(** * zotero-roam: synchronisation helpers and error display

    A shallow embedding of the parts of the repository that its
    specification talks about:

    - [ErrorCallout]   src/components/Errors/ErrorCallout.tsx
    - [Transport]      the axios response interceptor of the seeding scripts
                       (scripts/add-collections-and-notes.js and its sibling)
    - [DeltaMerger]    [matchWithCurrentData]   (IMPROVEMENT_PLAN.md, 2.2)
    - [TagIndexer]     [categorizeZoteroTags]   (IMPROVEMENT_PLAN.md, 2.1)
    - [Paginator]      [fetchAdditionalData]    (IMPROVEMENT_PLAN.md, 2.5)
    - [Coordinator]    the sync coordinator, which has no source text and is
                       modelled from the specification.

    and of the seeding and checking scripts around them ([Populate],
    [Env], [Citekeys], [Organize]) and further snippets of the plan
    ([CleanLibrary], [ChildrenIndex], [PullWatch]).

    JavaScript values are modelled as the code uses them: a [Map] is a
    [gmap], a [Set] is a [gset], an array is a list (with explicit holes
    where the code can create them), [undefined] is [None].  A string
    that the code only compares or passes on is a [string]; a string
    that it takes apart ([trim], [split], a regular expression) is the
    list of its UTF-16 code units.  Built-ins whose result depends on
    Unicode tables or on the locale ([toLowerCase], [localeCompare]) are
    parameters. *)

From Stdlib Require Import ZArith Lia Ascii String.
From stdpp Require Import gmap strings list fin_maps sorting pretty.

Local Open Scope string_scope.
Local Open Scope list_scope.
Local Open Scope nat_scope.

(* ===================================================================== *)
(** ** ErrorCallout *)
(* ===================================================================== *)

Module ErrorCallout.

(** The fields of [error] that the component reads.  [isAxiosError] is
    the truthiness of the property of that name; [response_status] is
    [error.response?.status], [None] standing for [undefined]. *)
Record JsError := mkError {
  name : string;
  message : string;
  isAxiosError : bool;
  response_status : option Z
}.

(** What is rendered: the callout's title, the paragraph, and the text of
    the button when there is one. *)
Record Callout := mkCallout {
  title : string;
  body : string;
  button : option string
}.

Definition msg_not_found : string :=
  "This item could not be found in the external database. It may not have been indexed yet or the identifier may be incorrect.".
Definition msg_access_denied : string :=
  "Unable to access this resource. You may need to check your API credentials.".
Definition msg_server_error : string :=
  "The external service is experiencing issues. Please try again later.".
Definition msg_offline : string :=
  "Please check your internet connection and try again.".

(** [status === n] and [status >= n] on a possibly undefined number. *)
Definition status_is (st : option Z) (n : Z) : bool :=
  match st with Some s => bool_decide (s = n) | None => false end.
Definition status_ge (st : option Z) (n : Z) : bool :=
  match st with Some s => bool_decide (n ≤ s)%Z | None => false end.

Definition is_axios (error : JsError) : bool :=
  bool_decide (name error = "AxiosError") || isAxiosError error.

(** [onLine] is [navigator.onLine]; [buttonText] and
    [resetErrorBoundary] are the optional arguments ([None] when the
    caller leaves them out; the handler itself is irrelevant here, only
    whether there is one). *)
Definition ErrorCallout (onLine : bool) (buttonText : option string)
    (error : JsError) (resetErrorBoundary : bool) : Callout :=
  let buttonText := default "Go back" buttonText in
  let '(t, m) :=
    if is_axios error then
      let status := response_status error in
      if status_is status 404%Z then ("Not Found", msg_not_found)
      else if status_is status 403%Z then ("Access Denied", msg_access_denied)
      else if status_ge status 500%Z then ("Server Error", msg_server_error)
      else if negb onLine then ("No Internet Connection", msg_offline)
      else (name error, message error)
    else (name error, message error) in
  {| title := t; body := m;
     button := if resetErrorBoundary then Some buttonText else None |}.

End ErrorCallout.

(* ===================================================================== *)
(** ** Transport: the axios client of the scripts and its interceptor *)
(* ===================================================================== *)

Module Transport.

(** A request configuration ([error.config]). *)
Record Config := mkConfig {
  method : string;
  url : string;
  payload : string
}.

(** A response as axios presents it; header names are lower-case. *)
Record Response := mkResponse {
  status : Z;
  headers : gmap string string;
  data : string
}.

(** What one attempt meets on the network: an HTTP answer, or a failure
    that carries no response (refused connection, DNS failure, ...). *)
Inductive Reply :=
| Answer (r : Response)
| NoAnswer.

Record AxiosError := mkAxiosError {
  config : Config;
  response : option Response
}.

(** The state of the promise returned by [zoteroClient.request]:
    [Pending] when the network never answers. *)
Inductive Outcome :=
| Fulfilled (r : Response)
| Rejected (e : AxiosError)
| Pending.

(** A JavaScript number as far as this model evaluates it: an integer,
    or [None] for a value it does not evaluate. *)
Definition JsNumber := option Z.

(** What the caller can observe from outside: requests put on the wire
    and timer suspensions, in order. *)
Inductive Event :=
| Sent (cfg : Config)
| Slept (delayMs : JsNumber).

(** The operands of [headers['retry-after'] || headers['backoff'] || 5]. *)
Inductive JsValue :=
| JUndefined
| JString (s : string)
| JNumber (n : Z).

Definition truthy (v : JsValue) : bool :=
  match v with
  | JUndefined => false
  | JString s => negb (bool_decide (s = ""))
  | JNumber n => negb (bool_decide (n = 0%Z))
  end.

(** [a || b] *)
Definition js_or (a b : JsValue) : JsValue := if truthy a then a else b.

(** [headers[name]] *)
Definition header (h : gmap string string) (name : string) : JsValue :=
  match h !! name with
  | Some s => JString s
  | None => JUndefined
  end.

Definition digit_of_ascii (c : ascii) : option Z :=
  let n := Z.of_N (N_of_ascii c) in
  if bool_decide (48 ≤ n ≤ 57)%Z then Some (n - 48)%Z else None.

Fixpoint parse_digits (acc : Z) (s : string) : option Z :=
  match s with
  | EmptyString => Some acc
  | String c s' =>
      match digit_of_ascii c with
      | Some d => parse_digits (10 * acc + d)%Z s'
      | None => None
      end
  end.

(** [Number(v)].  A string of decimal digits denotes its integer (the
    empty string denotes 0): this is the form of the delay in seconds of
    [Retry-After] and of Zotero's [Backoff].  A string in any other
    notation (a sign, a fraction, an exponent, a date) is not evaluated
    here and gives [None]. *)
Definition Number (v : JsValue) : JsNumber :=
  match v with
  | JUndefined => None
  | JString s => parse_digits 0 s
  | JNumber n => Some n
  end.

(** axios' default [validateStatus]: 2xx resolves, the rest rejects with
    [error.response] set; no answer rejects with no response. *)
Definition dispatch (cfg : Config) (reply : Reply) : Response + AxiosError :=
  match reply with
  | Answer r =>
      if bool_decide (200 ≤ status r < 300)%Z then inl r
      else inr {| config := cfg; response := Some r |}
  | NoAnswer => inr {| config := cfg; response := None |}
  end.

Definition retryAfter (h : gmap string string) : JsValue :=
  js_or (js_or (header h "retry-after") (header h "backoff")) (JNumber 5).

Definition delayMs (h : gmap string string) : JsNumber :=
  (λ n, n * 1000)%Z <$> Number (retryAfter h).

(** [zoteroClient.request(cfg)] with the response interceptor installed.
    [network] lists what successive attempts meet.  The success handler
    is [response => response]; the error handler waits and calls
    [zoteroClient.request(error.config)] for 429 and for 500 and above,
    and rejects with the error otherwise.  ([console.log] is left out.) *)
Fixpoint request (cfg : Config) (network : list Reply) : list Event * Outcome :=
  match network with
  | [] => ([Sent cfg], Pending)
  | reply :: rest =>
      match dispatch cfg reply with
      | inl r => ([Sent cfg], Fulfilled r)
      | inr error =>
          match response error with
          | Some r =>
              if bool_decide (status r = 429)%Z || bool_decide (500 ≤ status r)%Z then
                let '(later, outcome) := request (config error) rest in
                (Sent cfg :: Slept (delayMs (headers r)) :: later, outcome)
              else ([Sent cfg], Rejected error)
          | None => ([Sent cfg], Rejected error)
          end
      end
  end.

(** The wait hint as the specification words it: the [retry-after]
    header, else the [backoff] header, else 5 seconds. *)
Definition spec_wait_seconds (h : gmap string string) : JsNumber :=
  match h !! "retry-after" with
  | Some s => Number (JString s)
  | None =>
      match h !! "backoff" with
      | Some s => Number (JString s)
      | None => Some 5%Z
      end
  end.

(** Sample traffic. *)
Definition cfg0 : Config := mkConfig "GET" "users/1/items" "".
Definition too_many : Response := mkResponse 429 {[ "retry-after" := "2" ]} "".
Definition unavailable : Response := mkResponse 503 ∅ "".
Definition ok200 : Response := mkResponse 200 ∅ "[]".
Definition not_found : Response := mkResponse 404 ∅ "".
Definition empty_hint : Response := mkResponse 429 {[ "retry-after" := "" ]} "".
Definition backing_off : Response :=
  mkResponse 503 (<[ "backoff" := "3" ]> {[ "retry-after" := "" ]}) "".

End Transport.

(* ===================================================================== *)
(** ** Delta Merger: [matchWithCurrentData] *)
(* ===================================================================== *)

Module DeltaMerger.

(** A JavaScript array of [T]: [None] is a hole (an index below [length]
    that was never assigned). *)
Abbreviation JsArray T := (list (option T)).

(** [update: { modified?: T[], deleted?: string[] }] *)
Record Update (T : Type) := mkUpdate {
  modified : option (list T);
  deleted : option (list string)
}.
Arguments mkUpdate {T} _ _.
Arguments modified {T} _.
Arguments deleted {T} _.

Section Merge.

Context {T : Type}.

(** [item.data.key] *)
Variable key : T → string.

(** [arr.filter((item, index) => ...)] together with the writes to
    [keyToIndex] that the callback makes.  [index] is the position in
    [arr]; the callback is not called on holes. *)
Fixpoint filter_pass (deletedSet : gset string) (arr : JsArray T) (index : nat)
    (keyToIndex : gmap string nat) : list T * gmap string nat :=
  match arr with
  | [] => ([], keyToIndex)
  | None :: rest => filter_pass deletedSet rest (S index) keyToIndex
  | Some item :: rest =>
      if decide (key item ∈ deletedSet) then
        filter_pass deletedSet rest (S index) keyToIndex
      else
        let '(kept, keyToIndex') :=
          filter_pass deletedSet rest (S index) (<[key item := index]> keyToIndex) in
        (item :: kept, keyToIndex')
  end.

(** [a[i] = x]: in range it overwrites; at or past the end JavaScript
    grows the array, leaving holes in between. *)
Definition array_set (i : nat) (x : T) (a : JsArray T) : JsArray T :=
  if decide (i < length a) then <[i := Some x]> a
  else a ++ replicate (i - length a) None ++ [Some x].

(** One round of [for (const item of modified)]. *)
Definition merge_item (keyToIndex : gmap string nat) (datastore : JsArray T)
    (item : T) : JsArray T :=
  match keyToIndex !! key item with
  | Some existingIndex => array_set existingIndex item datastore
  | None => datastore ++ [Some item]
  end.

(** ([arr] defaults to the empty array when the caller leaves it out.) *)
Definition matchWithCurrentData (update : Update T) (arr : JsArray T) : JsArray T :=
  let modified := default [] (modified update) in
  let deleted := default [] (deleted update) in
  let deletedSet : gset string := list_to_set deleted in
  let '(kept, keyToIndex) := filter_pass deletedSet arr 0 ∅ in
  let datastore : JsArray T := Some <$> kept in
  fold_left (merge_item keyToIndex) modified datastore.

(** The last item of [modified] that has the key of [x]; [x] itself when
    there is none. *)
Definition replaced_by (modified : list T) (x : T) : T :=
  fold_left (λ acc item, if decide (key item = key acc) then item else acc) modified x.

(** The items an array holds, in order, holes skipped. *)
Definition items_of (a : JsArray T) : list T := omap id a.

Definition keys_of (a : JsArray T) : list string := key <$> items_of a.

End Merge.

(** The items of the specification's examples: a key and a version. *)
Record Item := mkItem {
  item_key : string;
  item_version : Z
}.

#[global] Instance Item_eq_dec : EqDecision Item.
Proof. solve_decision. Defined.

(** The contract [merge(snapshot, delta)] as this code provides it.  A
    snapshot carries its version; a delta is tagged with the version of
    the snapshot it was computed against. *)
Record Snapshot := mkSnapshot {
  items : JsArray Item;
  version : Z
}.

Record Delta := mkDelta {
  changes : Update Item;
  base : Z
}.

Inductive MergeResult :=
| Merged (items : JsArray Item)
| VersionConflict.

(** [matchWithCurrentData] takes the two lists of the delta and the item
    array; it has no version parameter and no [throw]. *)
Definition merge (snapshot : Snapshot) (delta : Delta) : MergeResult :=
  Merged (matchWithCurrentData item_key (changes delta) (items snapshot)).

(** "Computed against a snapshot base more than two generations older". *)
Definition stale (snapshot : Snapshot) (delta : Delta) : Prop :=
  (base delta + 2 < version snapshot)%Z.

(** The items of the specification's scenario: [A@v1], [B@v1], [B@v2],
    [C@v1]. *)
Definition A1 := mkItem "A" 1.
Definition A2 := mkItem "A" 2.
Definition B1 := mkItem "B" 1.
Definition B2 := mkItem "B" 2.
Definition C1 := mkItem "C" 1.

(** The keys a delta touches. *)
Definition touched (update : Update Item) : list string :=
  (item_key <$> default [] (modified update)) ++ default [] (deleted update).

(** A snapshot at version 10 and a delta computed against version 1. *)
Definition snapshot10 : Snapshot := mkSnapshot [Some A1; Some B1] 10.
Definition delta_from1 : Delta := mkDelta (mkUpdate (Some [B2]) None) 1.

End DeltaMerger.

(* ===================================================================== *)
(** ** Tag Indexer: [categorizeZoteroTags] *)
(* ===================================================================== *)

Module TagIndexer.

(** [{ token, roam, zotero }] *)
Record ZTagEntry (RoamPage ZoteroTag : Type) := mkEntry {
  token : string;
  roam : list RoamPage;
  zotero : list ZoteroTag
}.
Arguments mkEntry {RoamPage ZoteroTag} _ _ _.
Arguments token {RoamPage ZoteroTag} _.
Arguments roam {RoamPage ZoteroTag} _.
Arguments zotero {RoamPage ZoteroTag} _.

(** What [String.prototype.toLowerCase] gives on a string of ASCII
    characters: the letters A to Z are folded, the rest is left as it
    is.  It stands in for the built-in in the runs on sample data, all of
    which are ASCII; the functions below take the built-in itself as a
    parameter. *)
Definition lower_ascii (c : ascii) : ascii :=
  let n := N_of_ascii c in
  if bool_decide (65 ≤ n ≤ 90)%N then ascii_of_N (n + 32) else c.

Fixpoint toLowerCaseASCII (s : string) : string :=
  match s with
  | EmptyString => EmptyString
  | String c s' => String (lower_ascii c) (toLowerCaseASCII s')
  end.

Section Sort.

Context {A : Type}.

(** [Array.prototype.sort(compare)]: a stable sort; [x] is placed before
    [y] when [compare x y] is not positive. *)
Variable compare : A → A → Z.

Fixpoint sort_insert (x : A) (sorted : list A) : list A :=
  match sorted with
  | [] => [x]
  | y :: rest =>
      if bool_decide (compare x y ≤ 0)%Z then x :: y :: rest
      else y :: sort_insert x rest
  end.

Definition js_sort (l : list A) : list A := foldr sort_insert [] l.

End Sort.

Section Categorize.

Context {RoamPage ZoteroTag : Type}.

(** [elem.toLowerCase()]: the built-in folds every cased letter of
    Unicode; nothing is assumed about it. *)
Variable toLowerCase : string → string.

(** [a.localeCompare(b)]: depends on the host's locale, so it is left
    open. *)
Variable localeCompare : string → string → Z.

(** The elided operand of [zotero.push(...)] and [zotero: [...]]: the
    source references recorded for the raw tag [elem]. *)
Variable sources : string → list ZoteroTag.

Definition LoopState : Type := gmap string nat * list (ZTagEntry RoamPage ZoteroTag).

(** The body of [for (const elem of ...)].  [output[existingIndex].zotero]
    throws when the index is out of range: [None]. *)
Definition tag_step (st : LoopState) (elem : string) : option LoopState :=
  let '(tokenIndex, output) := st in
  let normalizedToken := toLowerCase elem in
  match tokenIndex !! normalizedToken with
  | Some existingIndex =>
      match output !! existingIndex with
      | Some entry =>
          let entry' :=
            mkEntry (token entry) (roam entry) (zotero entry ++ sources elem) in
          Some (tokenIndex, <[existingIndex := entry']> output)
      | None => None
      end
  | None =>
      let newIndex := length output in
      Some (<[normalizedToken := newIndex]> tokenIndex,
            output ++ [mkEntry normalizedToken [] (sources elem)])
  end.

Fixpoint tag_loop (st : LoopState) (elems : list string) : option LoopState :=
  match elems with
  | [] => Some st
  | elem :: rest =>
      match tag_step st elem with
      | Some st' => tag_loop st' rest
      | None => None
      end
  end.

Definition categorizeZoteroTags (z_data : list string)
    : option (list (ZTagEntry RoamPage ZoteroTag)) :=
  snd <$> tag_loop (∅, []) (js_sort (λ a b, localeCompare b a) z_data).

(** The loop states the function can be in: those reached from the empty
    index by running the loop body over some tokens. *)
Definition reachable (st : LoopState) : Prop :=
  ∃ elems, tag_loop (∅, []) elems = Some st.

(** The loop invariant: [tokenIndex] holds exactly the positions of the
    entries, each under the entry's token. *)
Definition indexed (st : LoopState) : Prop :=
  ∀ tok i, st.1 !! tok = Some i ↔ ∃ e, st.2 !! i = Some e ∧ token e = tok.

(** Number of entries of the index filed under [tok]. *)
Definition entries_for (tok : string) (output : list (ZTagEntry RoamPage ZoteroTag)) : nat :=
  length (filter (λ e, token e = tok) output).

End Categorize.

(** A sample comparison for concrete runs: the order of the bytes. *)
Definition byteCompare (a b : string) : Z :=
  match String.compare a b with
  | Lt => (-1)%Z
  | Eq => 0%Z
  | Gt => 1%Z
  end.

(** A sample tag map: every raw tag is its own single source reference. *)
Definition ownSource (elem : string) : list string := [elem].

(** The loop state after the single token "AI". *)
Definition after_AI : gmap string nat * list (ZTagEntry unit string) :=
  ({[ "ai" := 0 ]}, [mkEntry "ai" [] ["AI"]]).

End TagIndexer.

(* ===================================================================== *)
(** ** Paginator: [fetchAdditionalData] *)
(* ===================================================================== *)

Module Paginator.

Definition CONCURRENCY_LIMIT : nat := 5.

(** What happens on the wire: a page request is issued ([zoteroClient.get]
    is called with the given [start]), and later it is answered or it
    fails. *)
Inductive Event :=
| Issued (start : nat)
| Arrived (start : nat)
| Failed (start : nat).

Inductive Outcome (X : Type) :=
| Returned (results : list X)
| Thrown
| OutOfFuel.
Arguments Returned {X} _.
Arguments Thrown {X}.
Arguments OutOfFuel {X}.

Section Fetch.

Context {X : Type}.

(** The remote API: [r.data] of the page requested with a given [start],
    or [None] when that request is rejected.  The arguments of
    [zoteroClient.get] are elided in the source; the request is taken to
    carry the value that [reqParams] has for "start" when [get] is
    called. *)
Variable server : nat → option (list X).

(** Network timing: of the requests still pending, given as (position in
    the batch, start), which one settles next (an index, taken modulo the
    number of pending requests). *)
Variable pick : list (nat * nat) → nat.

(** The inner [for (let j = i; j < Math.min(i + CONCURRENCY_LIMIT,
    nbExtraCalls); j++)]: the [start] of each request pushed on [batch]. *)
Definition batch_starts (i nbExtraCalls : nat) : list nat :=
  (λ j, 100 * (j + 1)) <$> seq i (min (i + CONCURRENCY_LIMIT) nbExtraCalls - i).

(** [await Promise.all(batch)]: requests settle in the order the network
    chooses; each value is stored under the position of its promise; the
    first rejection rejects the whole. *)
Fixpoint promise_all (fuel : nat) (pending : list (nat * nat))
    (settled : gmap nat (list X)) : list Event * option (gmap nat (list X)) :=
  match pending with
  | [] => ([], Some settled)
  | _ :: _ =>
      match fuel with
      | 0 => ([], None)
      | S fuel' =>
          let k := pick pending `mod` length pending in
          match pending !! k with
          | Some (pos, start) =>
              match server start with
              | Some pageData =>
                  let '(events, r) :=
                    promise_all fuel' (delete k pending) (<[pos := pageData]> settled) in
                  (Arrived start :: events, r)
              | None => ([Failed start], None)
              end
          | None => ([], None)
          end
      end
  end.

(** The array [Promise.all] resolves to: the values in the order of the
    promises. *)
Definition batch_results (n : nat) (settled : gmap nat (list X)) : option (list (list X)) :=
  mapM (λ pos, settled !! pos) (seq 0 n).

(** The outer [for (let i = 0; i < nbExtraCalls; i += CONCURRENCY_LIMIT)]. *)
Fixpoint batches (fuel i nbExtraCalls : nat) (results : list X)
    : list Event * Outcome X :=
  match fuel with
  | 0 => ([], OutOfFuel)
  | S fuel' =>
      if decide (i < nbExtraCalls) then
        let batch := batch_starts i nbExtraCalls in
        let issued := Issued <$> batch in
        let '(events, r) := promise_all (length batch) (imap pair batch) ∅ in
        match r ≫= batch_results (length batch) with
        | Some batchResults =>
            let '(later, outcome) :=
              batches fuel' (i + CONCURRENCY_LIMIT) nbExtraCalls
                      (results ++ concat batchResults) in
            (issued ++ events ++ later, outcome)
        | None => (issued ++ events, Thrown)
        end
      else ([], Returned results)
  end.

Definition fetchAdditionalData (nbExtraCalls : nat) : list Event * Outcome X :=
  batches (S nbExtraCalls) 0 nbExtraCalls [].

(** The pages in page order. *)
Definition page_starts (nbExtraCalls : nat) : list nat :=
  (λ j, 100 * (j + 1)) <$> seq 0 nbExtraCalls.

Definition in_page_order (nbExtraCalls : nat) : Outcome X :=
  match mapM server (page_starts nbExtraCalls) with
  | Some pages => Returned (concat pages)
  | None => Thrown
  end.

End Fetch.

(** A sample remote: the page at [start] holds the single item [start];
    and a sample network on which the second pending request always
    answers first. *)
Definition echoServer (start : nat) : option (list nat) := Some [start].
Definition secondFirst (pending : list (nat * nat)) : nat := 1.

(** Requests in flight after a run of events: issued and not yet settled. *)
Fixpoint in_flight (trace : list Event) : Z :=
  match trace with
  | [] => 0
  | Issued _ :: rest => in_flight rest + 1
  | _ :: rest => in_flight rest - 1
  end%Z.

(** The [start] values of the requests issued, in order of issue. *)
Definition issued_starts (trace : list Event) : list nat :=
  omap (λ e, match e with Issued start => Some start | _ => None end) trace.

(** The event settles a request (it is not the issue of one). *)
Definition settles (e : Event) : Prop :=
  match e with Issued _ => False | _ => True end.

End Paginator.

(* ===================================================================== *)
(** ** Sync Coordinator *)
(* ===================================================================== *)

Module Coordinator.

(** (ownerType, ownerId, apiKeyFingerprint) *)
Definition LibraryIdentity : Type := string * string * string.

(** One call of [requestSync], named by a number. *)
Definition Call : Type := nat.

Section Machine.

Context {Snapshot : Type}.

(** Modelled from the spec: what a call of [requestSync] ends with, a
    Snapshot or a [SyncError] (section 4.6). *)
Inductive Resolution :=
| Resolved (snapshot : Snapshot)
| SyncError.

(** Modelled from the spec: the coordinator's state.  [inflight] holds,
    for each identity with a cycle in progress, the calls waiting for
    it; [cache] holds the snapshots that are not stale; [fetchCount] is
    the fetch-count instrumentation hook of section 8; [settled] logs
    what each call was answered with. *)
Record State := mkState {
  inflight : gmap LibraryIdentity (list Call);
  cache : gmap LibraryIdentity Snapshot;
  fetchCount : gmap LibraryIdentity nat;
  settled : list (Call * LibraryIdentity * Resolution)
}.

(** Modelled from the spec: the points at which the cooperative
    operations interleave (section 5). *)
Inductive Event :=
| RequestSync (id : LibraryIdentity) (call : Call)
| CycleDone (id : LibraryIdentity) (snapshot : Snapshot)
| CycleFailed (id : LibraryIdentity)
| Expired (id : LibraryIdentity).

Definition fetches (s : State) (id : LibraryIdentity) : nat :=
  default 0 (fetchCount s !! id).

(** Modelled from the spec: the Sync Coordinator of section 4.6, which has
    no source text.  [requestSync] joins the cycle in progress for the
    identity when there is one; otherwise it serves a cached snapshot that
    is not stale, or starts one Paginator fetch cycle.  A finished cycle
    stores its snapshot and hands it to every caller that waited; a failed
    one reports to them and leaves the cache as it was.  [Expired] is the
    cached snapshot passing the staleness horizon. *)
Definition step (s : State) (e : Event) : State :=
  match e with
  | RequestSync id call =>
      match inflight s !! id with
      | Some waiting =>
          mkState (<[id := waiting ++ [call]]> (inflight s)) (cache s)
                  (fetchCount s) (settled s)
      | None =>
          match cache s !! id with
          | Some snapshot =>
              mkState (inflight s) (cache s) (fetchCount s)
                      (settled s ++ [(call, id, Resolved snapshot)])
          | None =>
              mkState (<[id := [call]]> (inflight s)) (cache s)
                      (<[id := S (fetches s id)]> (fetchCount s)) (settled s)
          end
      end
  | CycleDone id snapshot =>
      match inflight s !! id with
      | Some waiting =>
          mkState (delete id (inflight s)) (<[id := snapshot]> (cache s))
                  (fetchCount s)
                  (settled s ++ ((λ c, (c, id, Resolved snapshot)) <$> waiting))
      | None => s
      end
  | CycleFailed id =>
      match inflight s !! id with
      | Some waiting =>
          mkState (delete id (inflight s)) (cache s) (fetchCount s)
                  (settled s ++ ((λ c, (c, id, SyncError)) <$> waiting))
      | None => s
      end
  | Expired id =>
      mkState (inflight s) (delete id (cache s)) (fetchCount s) (settled s)
  end.

Definition run (s : State) (events : list Event) : State :=
  fold_left step events s.

(** The event ends the cycle in progress for [id]. *)
Definition ends_cycle (id : LibraryIdentity) (e : Event) : Prop :=
  match e with
  | CycleDone id' _ | CycleFailed id' => id' = id
  | _ => False
  end.

Definition initial : State := mkState ∅ ∅ ∅ [].

End Machine.

Arguments State : clear implicits.
Arguments Event : clear implicits.
Arguments Resolution : clear implicits.

(** Two libraries for concrete runs. *)
Definition userLibrary : LibraryIdentity := ("users", "1", "k1").
Definition groupLibrary : LibraryIdentity := ("groups", "7", "k1").

End Coordinator.

(* ===================================================================== *)
(** ** Transport: reading a run of the client *)
(* ===================================================================== *)

Module TransportTrace.

Import Transport.

(** The statuses on which the interceptor waits and tries again. *)
Definition retryable (r : Response) : Prop :=
  (status r = 429 ∨ 500 ≤ status r)%Z.

(** The requests put on the wire during a run, in order. *)
Definition requests_sent (trace : list Event) : list Config :=
  omap (λ e, match e with Sent c => Some c | Slept _ => None end) trace.

(** The timer delays of a run, in order. *)
Definition delays (trace : list Event) : list JsNumber :=
  omap (λ e, match e with Slept d => Some d | Sent _ => None end) trace.

End TransportTrace.

(* ===================================================================== *)
(** ** Tag Indexer: what the loop has gathered *)
(* ===================================================================== *)

Module TagIndexerTrace.

Import TagIndexer.

Section Gathered.

Context {RoamPage ZoteroTag : Type}.
Variable toLowerCase : string → string.
Variable sources : string → list ZoteroTag.

(** The source references of the raw tags among [processed] that fold
    to [tok], in the order of [processed]. *)
Definition references_for (tok : string) (processed : list string) : list ZoteroTag :=
  concat (sources <$> filter (λ t, toLowerCase t = tok) processed).

(** The loop state after the tags [processed]: the tokens are their
    folded forms, each entry holds the references of its token, and the
    entries together hold the references of all the tags. *)
Definition gathered (processed : list string)
    (st : gmap string nat * list (ZTagEntry RoamPage ZoteroTag)) : Prop :=
  (∀ tok, tok ∈ token <$> st.2 ↔ tok ∈ toLowerCase <$> processed) ∧
  Forall (λ e, roam e = [] ∧ zotero e = references_for (token e) processed) st.2 ∧
  concat (zotero <$> st.2) ≡ₚ concat (sources <$> processed).

End Gathered.

End TagIndexerTrace.

(* ===================================================================== *)
(** ** Working through a list in slices: the seeding script's
       [addItemsToZotero] and the plan's [cleanLibraryData] *)
(* ===================================================================== *)

Module Slices.

(** [l.slice(start, stop)] for [start <= stop]. *)
Definition slice {A} (l : list A) (start stop : nat) : list A :=
  take (stop - start) (drop start l).

End Slices.

Module Populate.

Import Slices.

Definition batchSize : nat := 50.
Definition RATE_LIMIT_DELAY_MS : nat := 1000.

(** [response.data] of a write: objects keyed by the index in the batch.
    A field is [None] when the response leaves it out. *)
Record WriteReport := mkReport {
  success : option (gmap string string);
  failed : option (gmap string string);
  unchanged : option (gmap string string)
}.

Section AddItems.

Context {Item : Type}.

(** [await zoteroClient.post(..., batch)]: the report, or [None] when the
    promise is rejected. *)
Variable post : list Item → option WriteReport.

(** [name in batch] for a [name] that is not the index of an item:
    true for [length] and for the names an array inherits, whose values
    are numbers, functions and objects. *)
Variable arrayProperty : string → bool.

Variable testItems : list Item.

Inductive Event :=
| Posted (batch : list Item)
| Waited (ms : nat).

(** [Object.keys(o).length] of a field defaulting to the empty object. *)
Definition keys_length (o : option (gmap string string)) : nat :=
  size (default ∅ o).

(** Whether [batch[idx]] is something [.title] can be read from: an item
    of the batch, when [idx] is the decimal form of its index, or a
    property of the array.  Otherwise it is [undefined]. *)
Definition has_item (batch : list Item) (idx : string) : bool :=
  existsb (λ i, bool_decide (pretty i = idx)) (seq 0 (length batch))
  || arrayProperty idx.

(** [for (const idx of successKeys) { const item = batch[idx]; ...
    item.title ... }]: reading [title] from [undefined] throws.  [true]
    when the loop runs to its end.  (Only log lines depend on the order
    of the keys.) *)
Definition titles_shown (batch : list Item) (report : WriteReport) : bool :=
  forallb (λ entry, has_item batch entry.1) (map_to_list (default ∅ (success report))).

(** The [for (let i = 0; i < testItems.length; i += batchSize)] loop
    with its two counters.  A rejected post goes to the [catch], which
    counts the batch as failed; so does a throw of the loop over the
    titles, after both counters were raised by the report.  (The log
    lines are left out.) *)
Fixpoint addItems_loop (fuel i successCount failCount : nat)
    : list Event * option (nat * nat) :=
  match fuel with
  | 0 => ([], None)
  | S fuel' =>
      if decide (i < length testItems) then
        let batch := slice testItems i (i + batchSize) in
        let '(successCount', failCount') :=
          match post batch with
          | Some report =>
              let successCount1 := successCount + keys_length (success report) in
              let failCount1 := failCount + keys_length (failed report) in
              if titles_shown batch report then (successCount1, failCount1)
              else (successCount1, failCount1 + length batch)
          | None => (successCount, failCount + length batch)
          end in
        let wait :=
          if decide (i + batchSize < length testItems)
          then [Waited RATE_LIMIT_DELAY_MS] else [] in
        let '(later, counts) :=
          addItems_loop fuel' (i + batchSize) successCount' failCount' in
        (Posted batch :: wait ++ later, counts)
      else ([], Some (successCount, failCount))
  end.

(** The run and the two counts of the summary. *)
Definition addItemsToZotero : list Event * option (nat * nat) :=
  addItems_loop (S (length testItems)) 0 0 0.

Definition posted (trace : list Event) : list (list Item) :=
  omap (λ e, match e with Posted b => Some b | Waited _ => None end) trace.

(** What a batch adds to [successCount] and to [failCount]. *)
Definition counted_success (batch : list Item) : nat :=
  match post batch with
  | Some report => keys_length (success report)
  | None => 0
  end.

Definition counted_failed (batch : list Item) : nat :=
  match post batch with
  | Some report =>
      if titles_shown batch report then keys_length (failed report)
      else keys_length (failed report) + length batch
  | None => length batch
  end.

(** The batches, each after the first preceded by the wait. *)
Definition spaced (batches : list (list Item)) : list Event :=
  match batches with
  | [] => []
  | b :: bs => Posted b :: flat_map (λ b', [Waited RATE_LIMIT_DELAY_MS; Posted b']) bs
  end.

End AddItems.

(** A sample server that reports every item of the batch as created,
    and one that rejects every write. *)
Definition acceptAll (batch : list nat) : option WriteReport :=
  Some (mkReport
          (Some (list_to_map ((λ i, (pretty i, "KEY")) <$> seq 0 (length batch))))
          None None).
Definition rejectAll (batch : list nat) : option WriteReport := None.

(** A server that reports one success under a key that is no index of
    the batch, and an array with no property but its items. *)
Definition misreport (batch : list nat) : option WriteReport :=
  Some (mkReport (Some {[ "5" := "KEY" ]}) None None).
Definition itemsOnly (name : string) : bool := false.

End Populate.

Module CleanLibrary.

Import Slices.

Definition CHUNK_SIZE : nat := 100.

Inductive Event :=
| Progress (percent : Z)
| Yielded.

#[global] Instance Event_eq_dec : EqDecision Event.
Proof. solve_decision. Defined.

Section Clean.

Context {A B : Type}.

(** [cleanLibraryItem(item, pdfs, notes, roamCitekeys)] with its three
    other arguments fixed. *)
Variable cleanLibraryItem : A → B.

(** [Math.round((i / items.length) * 100)], a floating-point
    computation that is left open. *)
Variable percent : nat → nat → Z.

(** The chunk loop; [onProgress] tells whether the callback was given.
    Each round ends by yielding to the main thread. *)
Fixpoint clean_loop (fuel i : nat) (items : list A) (onProgress : bool)
    (results : list B) : list Event * option (list B) :=
  match fuel with
  | 0 => ([], None)
  | S fuel' =>
      if decide (i < length items) then
        let chunk := slice items i (i + CHUNK_SIZE) in
        let results' := results ++ (cleanLibraryItem <$> chunk) in
        let report :=
          if onProgress then [Progress (percent i (length items))] else [] in
        let '(later, out) :=
          clean_loop fuel' (i + CHUNK_SIZE) items onProgress results' in
        (report ++ Yielded :: later, out)
      else ([], Some results)
  end.

Definition cleanLibraryData (items : list A) (onProgress : bool)
    : list Event * option (list B) :=
  clean_loop (S (length items)) 0 items onProgress [].

Definition yields (trace : list Event) : nat :=
  length (filter (λ e, e = Yielded) trace).

Definition progress (trace : list Event) : list Z :=
  omap (λ e, match e with Progress p => Some p | Yielded => None end) trace.

End Clean.

End CleanLibrary.

(* ===================================================================== *)
(** ** The plan's children index: [buildChildrenIndex], [identifyChildren] *)
(* ===================================================================== *)

Module ChildrenIndex.

Record Library := mkLibrary {
  lib_type : string;
  lib_id : N
}.

(** The fields of an attachment that the index reads; [parentItem] is
    [None] when the property is undefined. *)
Record ZItemAttachment := mkAttachment {
  att_key : string;
  parentItem : option string;
  library : Library
}.

(** [`${pdf.data.parentItem}:${pdf.library.type}s/${pdf.library.id}`];
    an undefined parent is rendered as "undefined". *)
Definition parent_key (pdf : ZItemAttachment) : string :=
  default "undefined" (parentItem pdf) +:+ ":" +:+ lib_type (library pdf)
    +:+ "s/" +:+ pretty (lib_id (library pdf)).

(** One round of [for (const pdf of pdfs)]:
    [if (!pdfsByParent.has(key)) pdfsByParent.set(key, [])] and then
    [pdfsByParent.get(key)!.push(pdf)]. *)
Definition add_pdf (pdfsByParent : gmap string (list ZItemAttachment))
    (pdf : ZItemAttachment) : gmap string (list ZItemAttachment) :=
  let key := parent_key pdf in
  let withKey :=
    if decide (is_Some (pdfsByParent !! key)) then pdfsByParent
    else <[key := []]> pdfsByParent in
  alter (λ children, children ++ [pdf]) key withKey.

(** The [pdfsByParent] map of [buildChildrenIndex] (the loop over the
    notes is elided in the source). *)
Definition buildChildrenIndex (pdfs : list ZItemAttachment)
    : gmap string (list ZItemAttachment) :=
  fold_left add_pdf pdfs ∅.

(** The [pdfs] field of [identifyChildren(itemKey, location, index)]. *)
Definition identifyChildren (itemKey location : string)
    (pdfsByParent : gmap string (list ZItemAttachment)) : list ZItemAttachment :=
  default [] (pdfsByParent !! (itemKey +:+ ":" +:+ location)).

(** Sample attachments: two children of ABCD in the user library 1, one
    child of WXYZ, one attachment without parent. *)
Definition lib1 : Library := mkLibrary "user" 1.
Definition pdf1 : ZItemAttachment := mkAttachment "P1" (Some "ABCD") lib1.
Definition pdf2 : ZItemAttachment := mkAttachment "P2" (Some "WXYZ") lib1.
Definition pdf3 : ZItemAttachment := mkAttachment "P3" (Some "ABCD") lib1.
Definition pdf4 : ZItemAttachment := mkAttachment "P4" None lib1.

End ChildrenIndex.

(* ===================================================================== *)
(** ** [String.prototype.includes] on strings taken whole *)
(* ===================================================================== *)

Module JsString.

(** [hay.includes(needle)] *)
Fixpoint includes (hay needle : string) : bool :=
  String.prefix needle hay ||
  match hay with
  | EmptyString => false
  | String _ rest => includes rest needle
  end.

End JsString.

(* ===================================================================== *)
(** ** Strings looked at character by character: [trim], [split],
       [startsWith], [includes] and the regular expression of the
       citekey check *)
(* ===================================================================== *)

Module Utf16.

(** A JavaScript string as these functions see it: the list of its
    UTF-16 code units. *)
Abbreviation JsStr := (list N).

(** A string literal of the source made of ASCII characters. *)
Definition lit (s : string) : JsStr := N_of_ascii <$> list_ascii_of_string s.

(** White space as [trim] and the class [\s] of a regular expression see
    it, the WhiteSpace and LineTerminator code points of ECMAScript:
    U+0009 to U+000D, U+0020, U+00A0, U+1680, U+2000 to U+200A, U+2028,
    U+2029, U+202F, U+205F, U+3000, U+FEFF.  Each is one code unit. *)
Definition white_space : list N :=
  [9; 10; 11; 12; 13; 32; 160; 5760;
   8192; 8193; 8194; 8195; 8196; 8197; 8198; 8199; 8200; 8201; 8202;
   8232; 8233; 8239; 8287; 12288; 65279]%N.

Definition is_space (u : N) : bool := bool_decide (u ∈ white_space).

Fixpoint trimStart (s : JsStr) : JsStr :=
  match s with
  | [] => []
  | u :: s' => if is_space u then trimStart s' else s
  end.

Fixpoint trimEnd (s : JsStr) : JsStr :=
  match s with
  | [] => []
  | u :: s' =>
      match trimEnd s' with
      | [] => if is_space u then [] else [u]
      | rest => u :: rest
      end
  end.

(** [s.trim()] *)
Definition trim (s : JsStr) : JsStr := trimEnd (trimStart s).

(** [s.split(sep)] for a separator of one character. *)
Fixpoint split_on (sep : N) (s : JsStr) : list JsStr :=
  match s with
  | [] => [[]]
  | u :: s' =>
      if decide (u = sep) then [] :: split_on sep s'
      else
        match split_on sep s' with
        | piece :: rest => (u :: piece) :: rest
        | [] => [[u]]
        end
  end.

(** [pieces.join(sep)] *)
Fixpoint join (sep : JsStr) (pieces : list JsStr) : JsStr :=
  match pieces with
  | [] => []
  | [piece] => piece
  | piece :: rest => piece ++ sep ++ join sep rest
  end.

(** What is left of [s] after [p], when [s] starts with [p]. *)
Fixpoint strip_prefix (p s : JsStr) : option JsStr :=
  match p, s with
  | [], _ => Some s
  | a :: p', b :: s' => if decide (a = b) then strip_prefix p' s' else None
  | _ :: _, [] => None
  end.

(** [s.startsWith(prefix)] *)
Definition startsWith (s prefix : JsStr) : bool :=
  match strip_prefix prefix s with Some _ => true | None => false end.

(** [hay.includes(needle)] *)
Fixpoint includes (hay needle : JsStr) : bool :=
  startsWith hay needle ||
  match hay with
  | [] => false
  | _ :: rest => includes rest needle
  end.

Definition newline : N := 10%N.
Definition equals : N := 61%N.
Definition hash : N := 35%N.

(** U+FEFF, the byte order mark, and U+00A0, the no-break space. *)
Definition bom : N := 65279%N.
Definition nbsp : N := 160%N.

End Utf16.

(* ===================================================================== *)
(** ** Reading the [.env] file: [loadEnv] *)
(* ===================================================================== *)

Module Env.

Import Utf16.

(** [env[name] = value] on the plain object [env], for a string [value].
    The name [__proto__] reaches the setter that [env] inherits from
    [Object.prototype], which ignores a value that is neither an object
    nor [null]: nothing is stored.  Any other name becomes an own
    property, and the map holds the own properties. *)
Definition assign (name value : JsStr) (env : gmap JsStr JsStr) : gmap JsStr JsStr :=
  if decide (name = lit "__proto__") then env else <[name := value]> env.

(** The body of [for (const line of lines)]. *)
Definition parse_line (env : gmap JsStr JsStr) (line : JsStr) : gmap JsStr JsStr :=
  let trimmed := trim line in
  if negb (bool_decide (trimmed = [])) && negb (startsWith trimmed (lit "#")) then
    match split_on equals trimmed with
    | key :: valueParts => assign (trim key) (trim (join (lit "=") valueParts)) env
    | [] => env
    end
  else env.

(** [loadEnv] on the text of the [.env] file. *)
Definition loadEnv (envFile : JsStr) : gmap JsStr JsStr :=
  fold_left parse_line (split_on newline envFile) ∅.

(** The check that follows: [!ZOTERO_USER_ID || !ZOTERO_API_KEY] ends
    the script; otherwise the two values are used. *)
Definition credentials (env : gmap JsStr JsStr) : option (JsStr * JsStr) :=
  match env !! lit "ZOTORO_USER", env !! lit "ZOTORO_API_KEY" with
  | Some user, Some apiKey =>
      if bool_decide (user = []) || bool_decide (apiKey = []) then None
      else Some (user, apiKey)
  | _, _ => None
  end.

(** A sample file: a comment, a line with spaces around the '=', a blank
    line, a value with '=' signs. *)
Definition sampleEnv : JsStr :=
  lit "# Zotero credentials" ++ newline ::
  lit "ZOTORO_USER = 123" ++ newline ::
  newline ::
  lit "  ZOTORO_API_KEY=abc=def==  ".

End Env.

(* ===================================================================== *)
(** ** The citekey check: [checkCitekeys] *)
(* ===================================================================== *)

Module Citekeys.

Import Utf16.

(** The fields of an item that the check reads ([None]: undefined). *)
Record ZItem := mkZItem {
  zitem_key : string;
  zitem_title : option string;
  zitem_extra : option JsStr
}.

Definition marker : JsStr := lit "Citation Key:".

(** The longest run of characters that are not white space at the start
    of [s]: what [\S+] takes. *)
Fixpoint take_word (s : JsStr) : JsStr :=
  match s with
  | [] => []
  | u :: s' => if is_space u then [] else u :: take_word s'
  end.

(** [\s*(\S+)] tried on the text right after the marker. *)
Definition word_after (s : JsStr) : option JsStr :=
  match take_word (trimStart s) with
  | [] => None
  | word => Some word
  end.

(** [extra.match(/Citation Key:\s*(\S+)/)]: the first position at which
    the pattern matches gives group 1; [None] is [null]. *)
Fixpoint match_citekey (extra : JsStr) : option JsStr :=
  match strip_prefix marker extra ≫= word_after with
  | Some word => Some word
  | None =>
      match extra with
      | [] => None
      | _ :: rest => match_citekey rest
      end
  end.

Definition unparsed : JsStr := lit "(found but could not parse)".

(** What the callback of [items.forEach] works out for one item:
    [hasCitekey] and [citekey] ([None]: null). *)
Definition analyze (item : ZItem) : bool * option JsStr :=
  let extra := default [] (zitem_extra item) in
  let hasCitekey := includes extra marker in
  if hasCitekey then (true, Some (default unparsed (match_citekey extra)))
  else (false, None).

(** The two counters after the loop: [itemsWithCitekeys] and
    [itemsWithoutCitekeys]. *)
Definition count_items (items : list ZItem) : nat * nat :=
  fold_left (λ counts item,
               if (analyze item).1 then (S counts.1, counts.2)
               else (counts.1, S counts.2))
            items (0, 0).

(** An extra field as Better BibTeX writes it, one where the key follows
    other text, and one with a no-break space before the key. *)
Definition extra_pinned : JsStr :=
  lit "Citation Key: smith2020" ++ newline :: lit "tex.ids: smith20".
Definition extra_late : JsStr :=
  lit "DOI: 10.1/x" ++ newline :: lit "Citation Key:jones21".
Definition extra_nbsp : JsStr :=
  lit "Citation Key:" ++ nbsp :: lit "smith2020".

End Citekeys.

(* ===================================================================== *)
(** ** Filing items in collections: [organizeItemsIntoCollections] *)
(* ===================================================================== *)

Module Organize.

Import JsString.

(** The fields of a top-level item that the function reads ([None]:
    undefined). *)
Record ZTop := mkZTop {
  top_key : string;
  top_version : Z;
  top_title : option string;
  top_collections : option (list string)
}.

(** An entry of [updates]. *)
Record ItemUpdate := mkItemUpdate {
  upd_key : string;
  upd_version : Z;
  upd_collections : list string
}.

(** The table of the source: collection names and title patterns, in the
    order of [Object.entries]. *)
Definition itemCollectionMapping : list (string * list string) :=
  [ ("Machine Learning & AI",
     ["Attention Is All You Need"; "Deep Learning"; "ImageNet Classification";
      "Language Models are Few-Shot Learners"; "Reinforcement Learning";
      "Generative Adversarial Networks"; "Playing Atari"]);
    ("Biology & Medicine", ["CRISPR-Cas9"]);
    ("Climate & Environment", ["Climate Change 2021"; "Physical Science Basis"]);
    ("Ethics & Philosophy",
     ["Superintelligence"; "Social Dilemma of Autonomous Vehicles"]) ].

Section Organize.

(** [String.prototype.toLowerCase], left open as in the tag indexer. *)
Variable toLowerCase : string → string.

Variable mapping : list (string * list string).
Variable collectionMap : gmap string string.

(** [titlePatterns.some(pattern =>
      itemTitle.toLowerCase().includes(pattern.toLowerCase()))].
    The callback runs only when there is a pattern; on an undefined
    title it throws: [None]. *)
Definition matches (itemTitle : option string) (titlePatterns : list string)
    : option bool :=
  match titlePatterns with
  | [] => Some false
  | _ :: _ =>
      match itemTitle with
      | None => None
      | Some title =>
          Some (existsb (λ pattern,
                           includes (toLowerCase title)
                                    (toLowerCase pattern))
                        titlePatterns)
      end
  end.

Definition current (item : ZTop) : list string := default [] (top_collections item).

(** The inner [for ... of Object.entries(itemCollectionMapping)]. *)
Fixpoint organize_item (item : ZTop) (entries : list (string * list string))
    (updates : list ItemUpdate) : option (list ItemUpdate) :=
  match entries with
  | [] => Some updates
  | (collectionName, titlePatterns) :: rest =>
      match collectionMap !! collectionName with
      | None => organize_item item rest updates
      | Some collectionKey =>
          if bool_decide (collectionKey = "") then organize_item item rest updates
          else
            match matches (top_title item) titlePatterns with
            | None => None
            | Some false => organize_item item rest updates
            | Some true =>
                if bool_decide (collectionKey ∈ current item)
                then organize_item item rest updates
                else organize_item item rest
                       (updates ++ [mkItemUpdate (top_key item) (top_version item)
                                      (current item ++ [collectionKey])])
            end
      end
  end.

(** The outer [for (const item of items)]. *)
Fixpoint collect_updates (items : list ZTop) (updates : list ItemUpdate)
    : option (list ItemUpdate) :=
  match items with
  | [] => Some updates
  | item :: rest =>
      match organize_item item mapping updates with
      | Some updates' => collect_updates rest updates'
      | None => None
      end
  end.

(** The call as a whole: [None] when it throws; otherwise what is
    posted, [None] standing for the early return without a post. *)
Definition organizeItemsIntoCollections (items : list ZTop)
    : option (option (list ItemUpdate)) :=
  match collect_updates items [] with
  | None => None
  | Some [] => Some None
  | Some updates => Some (Some updates)
  end.

(** What an update looks like: made for one of the items, from its
    current collections and one more key, that of a known collection. *)
Definition adds_one_key (items : list ZTop) (u : ItemUpdate) : Prop :=
  ∃ item name k,
    item ∈ items ∧ collectionMap !! name = Some k ∧ k ≠ "" ∧
    (k ∉ current item) ∧
    upd_key u = top_key item ∧ upd_version u = top_version item ∧
    upd_collections u = current item ++ [k].

End Organize.

(** Sample data: two collections created, one paper that fits both a
    pattern of each, one note without title. *)
Definition sampleMapping : list (string * list string) :=
  [("AI", ["learning"]); ("Ethics", ["ethics"])].
Definition sampleCollections : gmap string string :=
  {[ "AI" := "COLL1"; "Ethics" := "COLL2" ]}.
Definition paper : ZTop :=
  mkZTop "ITEM1" 7 (Some "Machine Learning Ethics") (Some ["COLL0"]).
Definition note : ZTop := mkZTop "NOTE1" 3 None None.

End Organize.

(* ===================================================================== *)
(** ** The plan's page watcher: [watchPage] and its cleanup *)
(* ===================================================================== *)

Module PullWatch.

(** The calls made on [window.roamAlphaAPI.data]. *)
Inductive Call :=
| AddPullWatch (pattern entity : string)
| RemovePullWatch (pattern entity : string).

Definition pullPattern : string := "[:node/title :block/uid]".

Definition dquote : ascii := "034"%char.

(** The entity id in the template literal: [:block/uid], then the uid
    between double quotes. *)
Definition entity (pageUid : string) : string :=
  "[:block/uid " +:+ String dquote (pageUid +:+ String dquote "]").

(** [watchedPages] is a [Set]: its elements in insertion order.
    [watchPage] returns at once for a page already watched; otherwise it
    adds the page and registers the watch. *)
Definition watchPage (st : list string * list Call) (pageUid : string)
    : list string * list Call :=
  let '(watchedPages, calls) := st in
  if bool_decide (pageUid ∈ watchedPages) then st
  else (watchedPages ++ [pageUid],
        calls ++ [AddPullWatch pullPattern (entity pageUid)]).

(** The cleanup function returned by the effect. *)
Definition cleanup (watchedPages : list string) : list Call :=
  (λ uid, RemovePullWatch pullPattern (entity uid)) <$> watchedPages.

(** Any number of calls of [watchPage], then the cleanup. *)
Definition watch_all (pageUids : list string) : list string * list Call :=
  fold_left watchPage pageUids ([], []).

(** The watch that a removal takes away. *)
Definition removed (c : Call) : option Call :=
  match c with
  | RemovePullWatch p e => Some (AddPullWatch p e)
  | AddPullWatch _ _ => None
  end.

End PullWatch.

(* ===================================================================== *)
(** * Properties *)
(* ===================================================================== *)

(** ** ErrorCallout *)

Section ErrorCalloutFacts.

Import ErrorCallout.

Lemma callout_not_axios onLine buttonText error reset :
  is_axios error = false →
  title (ErrorCallout onLine buttonText error reset) = name error ∧
  body (ErrorCallout onLine buttonText error reset) = message error.
Proof. intros H. unfold ErrorCallout. rewrite H. done. Qed.

(** C10: the title and message shown by ErrorCallout follow a fixed
    precedence.  An error is Axios-style when its name is "AxiosError" or
    its [isAxiosError] property is set.  For such an error, status 404
    gives "Not Found", 403 gives "Access Denied", 500 and above gives
    "Server Error", whether the browser is online or not; when the status
    is none of these (no response, or a status below 500 other than 404
    and 403) the browser being offline gives "No Internet Connection",
    and otherwise the error's own name and message are shown.  For an
    error that is not Axios-style the title is [error.name] and the
    message is [error.message], whatever its status and whether the
    browser is online or not. *)
Theorem ErrorCallout_precedence onLine buttonText error reset :
  let shown := ErrorCallout onLine buttonText error reset in
  (name error = "AxiosError" ∨ isAxiosError error = true →
     (response_status error = Some 404%Z →
        title shown = "Not Found" ∧ body shown = msg_not_found) ∧
     (response_status error = Some 403%Z →
        title shown = "Access Denied" ∧ body shown = msg_access_denied) ∧
     (∀ s, response_status error = Some s → (500 ≤ s)%Z →
        title shown = "Server Error" ∧ body shown = msg_server_error) ∧
     (response_status error = None ∨
      (∃ s, response_status error = Some s ∧ s ≠ 404%Z ∧ s ≠ 403%Z ∧ (s < 500)%Z) →
        (onLine = false →
           title shown = "No Internet Connection" ∧ body shown = msg_offline) ∧
        (onLine = true →
           title shown = name error ∧ body shown = message error)))
  ∧ (name error ≠ "AxiosError" → isAxiosError error = false →
       title shown = name error ∧ body shown = message error).
Proof.
  intros shown. split.
  - intros Hax.
    assert (is_axios error = true) as Hax'.
    { unfold is_axios. destruct Hax as [-> | ->]; [done|].
      by rewrite orb_true_r. }
    subst shown. unfold ErrorCallout. rewrite Hax'.
    split; [|split; [|split]].
    + intros ->. done.
    + intros ->. done.
    + intros s -> Hs. unfold status_is, status_ge.
      repeat case_bool_decide; try lia; done.
    + intros [-> | (s & -> & H404 & H403 & H500)].
      * split; intros ->; done.
      * unfold status_is, status_ge.
        repeat case_bool_decide; try lia; try congruence.
        split; intros ->; done.
  - intros Hname Hflag. apply callout_not_axios.
    unfold is_axios. rewrite Hflag. by case_bool_decide.
Qed.

Lemma ErrorCallout_precedence_witness :
  let gone := mkError "AxiosError" "Request failed with status code 404" true (Some 404%Z) in
  let bad := mkError "Error" "Request failed with status code 400" true (Some 400%Z) in
  let typeError := mkError "TypeError" "x is undefined" false (Some 404%Z) in
  (title (ErrorCallout false None gone false) = "Not Found" ∧
   body (ErrorCallout false None gone false) = msg_not_found) ∧
  (title (ErrorCallout false None bad false) = "No Internet Connection" ∧
   body (ErrorCallout false None bad false) = msg_offline) ∧
  (title (ErrorCallout true None bad false) = "Error" ∧
   body (ErrorCallout true None bad false) = "Request failed with status code 400") ∧
  (title (ErrorCallout false None typeError false) = "TypeError" ∧
   body (ErrorCallout false None typeError false) = "x is undefined").
Proof.
  intros gone bad typeError. split; [|split; [|split]].
  - destruct (ErrorCallout_precedence false None gone false) as [Haxios _].
    destruct (Haxios (or_introl eq_refl)) as [H404 _].
    apply H404. reflexivity.
  - destruct (ErrorCallout_precedence false None bad false) as [Haxios _].
    destruct (Haxios (or_intror eq_refl)) as (_ & _ & _ & Hother).
    apply Hother; [|reflexivity].
    right. exists 400%Z. split; [reflexivity|]. split; [lia|]. split; lia.
  - destruct (ErrorCallout_precedence true None bad false) as [Haxios _].
    destruct (Haxios (or_intror eq_refl)) as (_ & _ & _ & Hother).
    apply Hother; [|reflexivity].
    right. exists 400%Z. split; [reflexivity|]. split; [lia|]. split; lia.
  - destruct (ErrorCallout_precedence false None typeError false) as [_ Hplain].
    apply Hplain; [|reflexivity].
    intros H. discriminate H.
Defined.

End ErrorCalloutFacts.

(** ** Transport *)

Section TransportFacts.

Import Transport.

Lemma header_nonempty h name b :
  h !! name ≠ Some "" →
  js_or (header h name) b = match h !! name with Some s => JString s | None => b end.
Proof.
  intros H. unfold js_or, header, truthy.
  destruct (h !! name) as [s|]; [|done].
  case_bool_decide; [by subst | done].
Qed.

Lemma delayMs_spec h :
  h !! "retry-after" ≠ Some "" → h !! "backoff" ≠ Some "" →
  delayMs h = (λ n, n * 1000)%Z <$> spec_wait_seconds h.
Proof.
  intros Hr Hb. unfold delayMs, retryAfter, spec_wait_seconds.
  rewrite (header_nonempty _ _ _ Hr).
  destruct (h !! "retry-after") as [s|] eqn:Es.
  - unfold js_or, truthy. case_bool_decide; [by subst | done].
  - rewrite (header_nonempty _ _ _ Hb).
    by destruct (h !! "backoff").
Qed.

Lemma request_retry cfg r rest :
  (status r = 429 ∨ 500 ≤ status r)%Z →
  request cfg (Answer r :: rest) =
    (Sent cfg :: Slept (delayMs (headers r)) :: (request cfg rest).1,
     (request cfg rest).2).
Proof.
  intros Hst. cbn [request]. unfold dispatch.
  case_bool_decide; [lia|]. cbn [response config].
  destruct (request cfg rest) as [later outcome].
  repeat case_bool_decide; try lia; done.
Qed.

(** C2 (as stated, refuted): a 429 whose [retry-after] header is present
    with an empty value.  The header is there, so the default is not
    called for, and the number it holds is 0; yet the code waits the
    default 5 seconds, because the empty string is falsy in the [||]
    chain.  So the wait is not, for every response, the number of the
    [retry-after] header, else of [backoff], else 5. *)
Lemma transport_empty_hint_counterexample :
  status empty_hint = 429%Z ∧
  headers empty_hint !! "retry-after" = Some "" ∧
  spec_wait_seconds (headers empty_hint) = Some 0%Z ∧
  request cfg0 [Answer empty_hint; Answer ok200] =
    ([Sent cfg0; Slept (Some 5000%Z); Sent cfg0], Fulfilled ok200) ∧
  ¬ (∀ cfg r rest,
       (status r = 429 ∨ 500 ≤ status r)%Z →
       request cfg (Answer r :: rest) =
         (Sent cfg
            :: Slept ((λ secs, secs * 1000)%Z <$> spec_wait_seconds (headers r))
            :: (request cfg rest).1,
          (request cfg rest).2)).
Proof.
  assert (request cfg0 [Answer empty_hint; Answer ok200] =
            ([Sent cfg0; Slept (Some 5000%Z); Sent cfg0], Fulfilled ok200)) as Hrun
    by (vm_compute; reflexivity).
  split; [done|]. split; [done|]. split; [done|]. split; [done|].
  intros H. specialize (H cfg0 empty_hint [Answer ok200] (or_introl eq_refl)).
  rewrite Hrun in H. discriminate H.
Qed.

(** C2 (amended): a response with status 429, or 500 and above, makes the
    Transport wait and then send the same request again, the outcome
    being that of the second attempt, whatever the headers.  The wait, in
    seconds, is the number in the [retry-after] header when that header
    is present and not empty; else the number in the [backoff] header
    when that one is present and not empty; else 5.  A 429 with
    [retry-after: 2] followed by a successful answer gives that answer
    after 2000 ms of suspension, and no error. *)
Theorem transport_retries_after_hint :
  (∀ cfg r rest,
     (status r = 429 ∨ 500 ≤ status r)%Z →
     ∃ wait : JsNumber,
       request cfg (Answer r :: rest) =
         (Sent cfg
            :: Slept ((λ secs, secs * 1000)%Z <$> wait)
            :: (request cfg rest).1,
          (request cfg rest).2) ∧
       (∀ s, headers r !! "retry-after" = Some s → s ≠ "" →
             wait = Number (JString s)) ∧
       (headers r !! "retry-after" = None ∨ headers r !! "retry-after" = Some "" →
        ∀ s, headers r !! "backoff" = Some s → s ≠ "" →
             wait = Number (JString s)) ∧
       (headers r !! "retry-after" = None ∨ headers r !! "retry-after" = Some "" →
        headers r !! "backoff" = None ∨ headers r !! "backoff" = Some "" →
        wait = Some 5%Z))
  ∧ (∀ cfg r ok,
       status r = 429%Z →
       headers r !! "retry-after" = Some "2" →
       (200 ≤ status ok < 300)%Z →
       request cfg [Answer r; Answer ok] =
         ([Sent cfg; Slept (Some 2000%Z); Sent cfg], Fulfilled ok)).
Proof.
  split.
  - intros cfg r rest Hst. exists (Number (retryAfter (headers r))).
    split; [by rewrite request_retry|].
    unfold retryAfter, js_or, header, truthy.
    split; [|split].
    + intros s -> Hs. rewrite bool_decide_eq_false_2 by done. cbn.
      by rewrite bool_decide_eq_false_2.
    + intros Hr s -> Hs.
      destruct Hr as [-> | ->];
        rewrite ?(bool_decide_eq_true_2 ("" = "")) by done; cbn;
        by rewrite bool_decide_eq_false_2.
    + intros [-> | ->] [-> | ->]; done.
  - intros cfg r ok Hst Hr Hok.
    rewrite request_retry by auto.
    assert (delayMs (headers r) = Some 2000%Z) as ->.
    { unfold delayMs, retryAfter, js_or, header. rewrite Hr. done. }
    cbn [request]. unfold dispatch. case_bool_decide; [done | lia].
Qed.

Lemma transport_retries_after_hint_witness :
  request cfg0 [Answer too_many; Answer ok200] =
    ([Sent cfg0; Slept (Some 2000%Z); Sent cfg0], Fulfilled ok200)
  ∧ request cfg0 [Answer unavailable; Answer ok200] =
    ([Sent cfg0; Slept (Some 5000%Z); Sent cfg0], Fulfilled ok200)
  ∧ request cfg0 [Answer backing_off; Answer ok200] =
    ([Sent cfg0; Slept (Some 3000%Z); Sent cfg0], Fulfilled ok200).
Proof.
  destruct transport_retries_after_hint as [Hgen Hex]. split; [|split].
  - apply Hex; [reflexivity | reflexivity | simpl; lia].
  - destruct (Hgen cfg0 unavailable [Answer ok200]) as (wait & Hrun & _ & _ & Hdefault);
      [right; simpl; lia|].
    rewrite Hrun, Hdefault; [reflexivity | left; reflexivity | left; reflexivity].
  - destruct (Hgen cfg0 backing_off [Answer ok200]) as (wait & Hrun & _ & Hbackoff & _);
      [right; simpl; lia|].
    rewrite Hrun, (Hbackoff (or_intror eq_refl) "3" eq_refl); [reflexivity | done].
Defined.

(** C6: a 4xx response other than 429, and a failure that carries no
    response, are handed to the caller at once: the promise is rejected
    with that error, nothing was waited for and the request went out
    once, whatever the network would have answered to further attempts. *)
Theorem transport_client_error_propagates cfg reply rest :
  (reply = NoAnswer ∨
   ∃ r, reply = Answer r ∧ (400 ≤ status r < 500)%Z ∧ status r ≠ 429%Z) →
  request cfg (reply :: rest) =
    ([Sent cfg],
     Rejected {| config := cfg;
                 response := match reply with Answer r => Some r | NoAnswer => None end |}).
Proof.
  intros [-> | (r & -> & Hr & H429)]; [done|].
  cbn [request]. unfold dispatch.
  case_bool_decide; [lia|]. cbn [response config].
  repeat case_bool_decide; try lia; done.
Qed.

Lemma transport_client_error_propagates_witness :
  request cfg0 [Answer not_found; Answer ok200] =
    ([Sent cfg0], Rejected {| config := cfg0; response := Some not_found |})
  ∧ request cfg0 [NoAnswer; Answer ok200] =
    ([Sent cfg0], Rejected {| config := cfg0; response := None |}).
Proof.
  split.
  - apply (transport_client_error_propagates cfg0 (Answer not_found)).
    right. exists not_found. split; [reflexivity | simpl; lia].
  - apply (transport_client_error_propagates cfg0 NoAnswer). left. reflexivity.
Defined.

End TransportFacts.

(** ** Delta Merger *)

Section DeltaMergerFacts.

Import DeltaMerger.

(** C1 (as stated, refuted): on the specification's scenario, snapshot
    [A@v1, B@v1] and delta [{modified: [B@v2, C@v1], deleted: [A]}], the
    merge returns [B@v1, B@v2, C@v1] and not [B@v2, C@v1]: B@v2 is
    written one slot past B@v1, which stays, and key B occurs twice.  And
    merging [{modified: [A@v2], deleted: [A]}] into [A@v1] returns
    [A@v2], an item whose key is in the deleted set. *)
Lemma merge_scenario_counterexample :
  matchWithCurrentData item_key (mkUpdate (Some [B2; C1]) (Some ["A"]))
                       [Some A1; Some B1]
    = [Some B1; Some B2; Some C1] ∧
  [Some B1; Some B2; Some C1] ≠ [Some B2; Some C1] ∧
  ¬ NoDup (keys_of item_key [Some B1; Some B2; Some C1]) ∧
  matchWithCurrentData item_key (mkUpdate (Some [A2]) (Some ["A"])) [Some A1]
    = [Some A2] ∧
  item_key A2 ∈ ["A"].
Proof.
  split; [vm_compute; reflexivity|]. split; [done|].
  split; [by apply (bool_decide_unpack _)|].
  split; [vm_compute; reflexivity|]. by apply (bool_decide_unpack _).
Qed.

(** C4: with snapshot [A@v1, B@v1], D1 = [{modified: [B@v2], deleted: [A]}]
    and D2 = [{modified: [C@v1]}], which touch disjoint keys, merging D1
    then D2 gives [B@v1, B@v2, C@v1] while merging D2 then D1 gives
    [B@v1, B@v2]: item C is kept in one order and lost in the other. *)
Theorem merge_disjoint_deltas_order_matters :
  let S0 : JsArray Item := [Some A1; Some B1] in
  let D1 := mkUpdate (Some [B2]) (Some ["A"]) in
  let D2 := mkUpdate (Some [C1]) None in
  let merge12 := matchWithCurrentData item_key D2 (matchWithCurrentData item_key D1 S0) in
  let merge21 := matchWithCurrentData item_key D1 (matchWithCurrentData item_key D2 S0) in
  (∀ k, k ∈ touched D1 → k ∉ touched D2) ∧
  NoDup (keys_of item_key S0) ∧
  merge12 = [Some B1; Some B2; Some C1] ∧
  merge21 = [Some B1; Some B2] ∧
  C1 ∈ items_of merge12 ∧ C1 ∉ items_of merge21.
Proof.
  cbv zeta.
  assert (matchWithCurrentData item_key (mkUpdate (Some [C1]) None)
            (matchWithCurrentData item_key (mkUpdate (Some [B2]) (Some ["A"]))
               [Some A1; Some B1]) = [Some B1; Some B2; Some C1]) as ->
    by (vm_compute; reflexivity).
  assert (matchWithCurrentData item_key (mkUpdate (Some [B2]) (Some ["A"]))
            (matchWithCurrentData item_key (mkUpdate (Some [C1]) None)
               [Some A1; Some B1]) = [Some B1; Some B2]) as ->
    by (vm_compute; reflexivity).
  split.
  { apply Forall_forall. by apply (bool_decide_unpack _). }
  split; [by apply (bool_decide_unpack _)|].
  split; [done|]. split; [done|].
  split; by apply (bool_decide_unpack _).
Qed.

(** C7 (as stated, refuted): a delta computed against version 1 is merged
    into a snapshot at version 10, eight generations on, without a
    VersionConflict. *)
Lemma merge_accepts_stale_delta :
  stale snapshot10 delta_from1 ∧
  merge snapshot10 delta_from1 ≠ VersionConflict ∧
  ¬ (∀ snapshot delta, stale snapshot delta → merge snapshot delta = VersionConflict).
Proof.
  assert (stale snapshot10 delta_from1) as Hs by (unfold stale; simpl; lia).
  split; [done|]. split; [done|].
  intros H. specialize (H _ _ Hs). discriminate H.
Qed.

(** C7 (amended): the merge never fails with VersionConflict.  For every
    snapshot and delta it returns a merged item array, and that array
    depends only on the snapshot's items and the delta's lists, not on
    the version of either. *)
Theorem merge_ignores_versions snapshot delta :
  merge snapshot delta ≠ VersionConflict ∧
  (∃ merged, merge snapshot delta = Merged merged) ∧
  (∀ v b, merge (mkSnapshot (items snapshot) v) (mkDelta (changes delta) b)
          = merge snapshot delta).
Proof. split; [done|]. split; [by eexists|]. done. Qed.

End DeltaMergerFacts.

(** ** Delta Merger: what the merge does when no deleted item precedes a
    modified one *)

Section DeltaMergerGeneral.

Import DeltaMerger.

Context {T : Type}.
Variable key : T → string.

Lemma filter_pass_dense (D : gset string) (l : list T) : ∀ i m0,
  NoDup (key <$> l) →
  ∃ m, filter_pass key D (Some <$> l) i m0 = (filter (λ x, key x ∉ D) l, m) ∧
       (∀ j x, l !! j = Some x → key x ∉ D → m !! key x = Some (i + j)) ∧
       (∀ k, (∀ x, x ∈ l → key x = k → key x ∈ D) → m !! k = m0 !! k).
Proof.
  induction l as [|x l IH]; intros i m0 Hnd.
  - exists m0. split; [done|]. split; [|done]. intros j x Hx. by rewrite lookup_nil in Hx.
  - rewrite fmap_cons in Hnd. apply NoDup_cons in Hnd as [Hx Hnd].
    rewrite fmap_cons. cbn [filter_pass]. rewrite filter_cons.
    destruct (decide (key x ∈ D)) as [Hin|Hout].
    + destruct (IH (S i) m0 Hnd) as (m & -> & Hkept & Hother).
      exists m. rewrite decide_False by (intros H; by apply H).
      split; [done|]. split.
      * intros [|j] y Hy Hy'; simpl in Hy.
        -- injection Hy as <-. done.
        -- rewrite (Hkept j y Hy Hy'). f_equal. lia.
      * intros k Hk. apply Hother. intros y Hy. apply Hk. by right.
    + destruct (IH (S i) (<[key x := i]> m0) Hnd) as (m & -> & Hkept & Hother).
      exists m. rewrite decide_True by done.
      split; [done|]. split.
      * intros [|j] y Hy Hy'; simpl in Hy.
        -- injection Hy as <-. rewrite Hother.
           ++ rewrite lookup_insert_eq. f_equal. lia.
           ++ intros z Hz Hkz. exfalso. apply Hx. rewrite <- Hkz.
              apply list_elem_of_fmap. eauto.
        -- rewrite (Hkept j y Hy Hy'). f_equal. lia.
      * intros k Hk. rewrite Hother.
        -- apply lookup_insert_ne. intros <-. apply Hout. apply (Hk x); [by left | done].
        -- intros y Hy. apply Hk. by right.
Qed.

Lemma replaced_by_key ms : ∀ x, key (replaced_by key ms x) = key x.
Proof.
  unfold replaced_by.
  induction ms as [|item ms IH]; intros x; [done|].
  cbn [fold_left]. rewrite IH. by case_decide.
Qed.

Lemma replaced_by_cons item ms x :
  replaced_by key (item :: ms) x =
    replaced_by key ms (if decide (key item = key x) then item else x).
Proof. done. Qed.

(** The loop over [modified], when [keyToIndex] holds the true position
    of every item of [front] and knows no other key of [modified]. *)
Lemma merge_loop (m : gmap string nat) (ms : list T) : ∀ front back : list T,
  NoDup (key <$> front) →
  (∀ j x, front !! j = Some x → m !! key x = Some j) →
  (∀ item j, item ∈ ms → m !! key item = Some j →
             ∃ x, front !! j = Some x ∧ key x = key item) →
  fold_left (merge_item key m) ms (Some <$> (front ++ back)) =
    Some <$> ((replaced_by key ms <$> front) ++ back
              ++ filter (λ item, m !! key item = None) ms).
Proof.
  induction ms as [|item ms IH]; intros front back Hnd Hfront Hms.
  - simpl. rewrite app_nil_r. do 2 f_equal.
    rewrite <- (list_fmap_id front) at 1. done.
  - cbn [fold_left]. unfold merge_item at 2. rewrite filter_cons.
    destruct (m !! key item) as [j|] eqn:Hj.
    + destruct (Hms item j) as (x & Hx & Hkx); [by left | done |].
      assert (j < length front) as Hlt by (by eapply lookup_lt_Some).
      unfold array_set. rewrite decide_True
        by (rewrite length_fmap, length_app; lia).
      rewrite <- (list_fmap_insert Some), insert_app_l by done.
      assert (key <$> <[j:=item]> front = key <$> front) as Hkeys.
      { rewrite (list_fmap_insert key), <- Hkx. apply list_insert_id.
        by rewrite list_lookup_fmap, Hx. }
      rewrite IH.
      * rewrite decide_False by done. do 2 f_equal.
        apply list_eq. intros j'. rewrite !list_lookup_fmap.
        destruct (decide (j = j')) as [<-|Hne].
        -- rewrite list_lookup_insert_eq by done. rewrite Hx. simpl.
           by rewrite decide_True.
        -- rewrite list_lookup_insert_ne by done.
           destruct (front !! j') as [y|] eqn:Hy; [|done]. simpl.
           rewrite decide_False; [done|].
           intros Heq. apply Hne.
           apply (NoDup_lookup (key <$> front) j j' (key x)); [done | |].
           ++ by rewrite list_lookup_fmap, Hx.
           ++ rewrite list_lookup_fmap, Hy. simpl. congruence.
      * by rewrite Hkeys.
      * intros j' y Hy. destruct (decide (j = j')) as [<-|Hne].
        -- rewrite list_lookup_insert_eq in Hy by done. by injection Hy as <-.
        -- rewrite list_lookup_insert_ne in Hy by done. by apply Hfront.
      * intros item' j' Hin Hj'.
        destruct (Hms item' j') as (y & Hy & Hky); [by right | done |].
        destruct (decide (j = j')) as [<-|Hne].
        -- exists item. rewrite list_lookup_insert_eq by done.
           split; [done|]. rewrite Hx in Hy. injection Hy as <-. congruence.
        -- exists y. by rewrite list_lookup_insert_ne.
    + rewrite decide_True by done.
      change [Some item] with (Some <$> [item]).
      rewrite <- (fmap_app Some (front ++ back) [item]), <- app_assoc.
      rewrite IH; [|done|done|].
      * rewrite <- !app_assoc. simpl. do 2 f_equal.
        apply list_fmap_ext. intros j' y Hy.
        rewrite replaced_by_cons. rewrite decide_False; [done|].
        intros Heq. rewrite Heq, (Hfront j' y Hy) in Hj. done.
      * intros item' j' Hin. apply Hms. by right.
Qed.

Lemma filter_ext_in {A} (P Q : A → Prop) `{!∀ x, Decision (P x)} `{!∀ x, Decision (Q x)}
    (l : list A) :
  (∀ x, x ∈ l → P x ↔ Q x) → filter P l = filter Q l.
Proof.
  induction l as [|x l IH]; intros Hext; [done|].
  rewrite !filter_cons. rewrite IH by (intros y Hy; apply Hext; by right).
  destruct (decide (P x)) as [HP|HP], (decide (Q x)) as [HQ|HQ]; try done.
  - exfalso. apply HQ, Hext; [by left | done].
  - exfalso. apply HP, Hext; [by left | done].
Qed.

Lemma filter_all {A} (P : A → Prop) `{!∀ x, Decision (P x)} (l : list A) :
  (∀ x, x ∈ l → P x) → filter P l = l.
Proof.
  induction l as [|x l IH]; intros Hall; [done|].
  rewrite filter_cons, decide_True by (apply Hall; by left).
  f_equal. apply IH. intros y Hy. apply Hall. by right.
Qed.

(** C1 (amended): for a snapshot with unique keys in which no deleted
    item precedes a modified one ([front] holds no deleted item, and what
    is kept of [back] is not modified), the merge is: the items of
    [front], each replaced in place by the last modified item of its key
    when there is one; then the items of [back] whose key is not deleted,
    in their former order; then the modified items whose key is not in
    [front], in delta order.  Deletion is applied to the snapshot only: a
    modified item whose key is also deleted is appended. *)
Theorem merge_in_place_then_append (update : Update T) (front back : list T) :
  let ms := default [] (modified update) in
  let ds := default [] (deleted update) in
  NoDup (key <$> (front ++ back)) →
  (∀ x, x ∈ front → key x ∉ ds) →
  (∀ x, x ∈ back → key x ∉ ds → key x ∉ key <$> ms) →
  matchWithCurrentData key update (Some <$> (front ++ back)) =
    Some <$> ((replaced_by key ms <$> front)
              ++ filter (λ x, key x ∉ ds) back
              ++ filter (λ item, key item ∉ key <$> front) ms).
Proof.
  intros ms ds Hnd Hfront Hback. unfold matchWithCurrentData.
  fold ms. fold ds. set (D := list_to_set ds : gset string).
  assert (∀ k, k ∈ D ↔ k ∈ ds) as HD by (intros k; apply elem_of_list_to_set).
  destruct (filter_pass_dense D (front ++ back) 0 ∅ Hnd) as (m & -> & Hkept & Hother).
  assert (∀ j x, front !! j = Some x → m !! key x = Some j) as Hpos.
  { intros j x Hx. apply (Hkept j x).
    - by apply lookup_app_l_Some.
    - rewrite HD. apply Hfront. by eapply list_elem_of_lookup_2. }
  assert (∀ item j, item ∈ ms → m !! key item = Some j →
                    ∃ x, front !! j = Some x ∧ key x = key item) as Hknown.
  { intros item j Hin Hj.
    destruct (decide (Exists (λ y, key y = key item ∧ key y ∉ D) (front ++ back)))
      as [Hex|Hnex].
    - apply Exists_exists in Hex as (y & Hy & Hky & HyD).
      apply elem_of_app in Hy as [Hy|Hy].
      + apply list_elem_of_lookup in Hy as [j' Hj'].
        pose proof (Hpos j' y Hj') as Hm. rewrite Hky, Hj in Hm.
        injection Hm as ->. eauto.
      + exfalso. apply (Hback y Hy); [by rewrite <- HD|].
        rewrite Hky. apply list_elem_of_fmap. eauto.
    - exfalso. rewrite Hother in Hj; [by rewrite lookup_empty in Hj|].
      intros y Hy Hky. destruct (decide (key y ∈ D)) as [|HyD]; [done|].
      exfalso. apply Hnex, Exists_exists. eauto. }
  rewrite filter_app. rewrite (filter_all _ front) by (intros x Hx; rewrite HD; auto).
  assert (NoDup (key <$> front)) as Hndf.
  { rewrite fmap_app in Hnd. by apply NoDup_app in Hnd as [? _]. }
  rewrite (merge_loop m ms front _ Hndf Hpos Hknown).
  do 3 f_equal.
  - apply filter_ext_in. intros x _. by rewrite HD.
  - apply filter_ext_in. intros item Hin. split.
    + intros Hnone Hkey. apply list_elem_of_fmap in Hkey as (x & Hkx & Hx).
      apply list_elem_of_lookup in Hx as [j Hj].
      pose proof (Hpos j x Hj) as Hm. rewrite <- Hkx, Hnone in Hm. done.
    + intros Hfresh. destruct (m !! key item) as [j|] eqn:Hj; [|done].
      exfalso. destruct (Hknown item j Hin Hj) as (x & Hx & Hkx).
      apply Hfresh. rewrite <- Hkx. apply list_elem_of_fmap.
      exists x. split; [done|]. by eapply list_elem_of_lookup_2.
Qed.

End DeltaMergerGeneral.

Section DeltaMergerWitness.

Import DeltaMerger.

(** The scenario with A after B: here the merge gives [B@v2, C@v1]. *)
Lemma merge_in_place_then_append_witness :
  matchWithCurrentData item_key (mkUpdate (Some [B2; C1]) (Some ["A"]))
                       (Some <$> ([B1] ++ [A1]))
    = [Some B2; Some C1].
Proof.
  rewrite (merge_in_place_then_append item_key
             (mkUpdate (Some [B2; C1]) (Some ["A"])) [B1] [A1]).
  - vm_compute. reflexivity.
  - by apply (bool_decide_unpack _).
  - intros x Hx. apply list_elem_of_singleton in Hx as ->.
    by apply (bool_decide_unpack _).
  - intros x Hx. apply list_elem_of_singleton in Hx as ->.
    intros Hkept. exfalso. apply Hkept. by apply (bool_decide_unpack _).
Defined.

End DeltaMergerWitness.

(** ** Tag Indexer *)

Section TagIndexerFacts.

Import TagIndexer.

Context {RoamPage ZoteroTag : Type}.
Variable toLowerCase : string → string.
Variable sources : string → list ZoteroTag.

Abbreviation Entry := (ZTagEntry RoamPage ZoteroTag).
Abbreviation Loop := (@LoopState RoamPage ZoteroTag).

Lemma indexed_initial : indexed ((∅, []) : Loop).
Proof.
  intros tok i. simpl. split.
  - by rewrite lookup_empty.
  - intros (e & He & _). by rewrite lookup_nil in He.
Qed.

Lemma tag_step_existing (st : Loop) elem i e :
  st.1 !! toLowerCase elem = Some i → st.2 !! i = Some e →
  tag_step toLowerCase sources st elem =
    Some (st.1, <[i := mkEntry (token e) (roam e) (zotero e ++ sources elem)]> st.2).
Proof.
  destruct st as [m out]. simpl. intros Hm Ho.
  unfold tag_step. by rewrite Hm, Ho.
Qed.

Lemma tag_step_fresh (st : Loop) elem :
  st.1 !! toLowerCase elem = None →
  tag_step toLowerCase sources st elem =
    Some (<[toLowerCase elem := length st.2]> st.1,
          st.2 ++ [mkEntry (toLowerCase elem) [] (sources elem)]).
Proof.
  destruct st as [m out]. simpl. intros Hm.
  unfold tag_step. by rewrite Hm.
Qed.

Lemma indexed_step (st : Loop) elem :
  indexed st → ∃ st', tag_step toLowerCase sources st elem = Some st' ∧ indexed st'.
Proof.
  intros Hinv. unfold indexed in Hinv.
  destruct (st.1 !! toLowerCase elem) as [i|] eqn:Hm.
  - destruct (proj1 (Hinv _ _) Hm) as (e & Ho & Htok).
    eexists. split; [by apply tag_step_existing|].
    intros tok j. simpl. rewrite Hinv. split.
    + intros (e' & He' & Htok').
      destruct (decide (i = j)) as [->|Hne].
      * eexists. split.
        -- apply list_lookup_insert_eq. by eapply lookup_lt_Some.
        -- simpl. congruence.
      * exists e'. by rewrite list_lookup_insert_ne.
    + intros (e' & He' & Htok').
      destruct (decide (i = j)) as [->|Hne].
      * rewrite list_lookup_insert_eq in He' by (by eapply lookup_lt_Some).
        injection He' as <-. simpl in Htok'. exists e. split; congruence.
      * rewrite list_lookup_insert_ne in He' by done. by exists e'.
  - eexists. split; [by apply tag_step_fresh|].
    intros tok j. simpl.
    destruct (decide (toLowerCase elem = tok)) as [<-|Hne].
    + rewrite lookup_insert_eq. split.
      * intros [= <-]. eexists.
        split; [by rewrite lookup_app_r, Nat.sub_diag | done].
      * intros (e' & He' & Htok').
        destruct (decide (j < length st.2)) as [Hlt|Hge].
        -- rewrite lookup_app_l in He' by done.
           assert (st.1 !! toLowerCase elem = Some j) as Hj
             by (apply Hinv; eauto).
           congruence.
        -- apply lookup_lt_Some in He'. rewrite length_app in He'. simpl in He'.
           f_equal. lia.
    + rewrite lookup_insert_ne by done. rewrite Hinv. split.
      * intros (e' & He' & Htok'). exists e'.
        split; [|done]. rewrite lookup_app_l; [done|]. by eapply lookup_lt_Some.
      * intros (e' & He' & Htok').
        destruct (decide (j < length st.2)) as [Hlt|Hge].
        -- rewrite lookup_app_l in He' by done. eauto.
        -- rewrite lookup_app_r in He' by lia.
           destruct (j - length st.2) as [|n] eqn:Hn; simpl in He'.
           ++ injection He' as <-. simpl in Htok'. congruence.
           ++ by rewrite lookup_nil in He'.
Qed.

Lemma indexed_loop elems : ∀ st : Loop,
  indexed st → ∃ st', tag_loop toLowerCase sources st elems = Some st' ∧ indexed st'.
Proof.
  induction elems as [|elem rest IH]; intros st Hinv; simpl.
  - eauto.
  - destruct (indexed_step st elem Hinv) as (st1 & -> & Hinv1). by apply IH.
Qed.

Lemma reachable_indexed (st : Loop) : reachable toLowerCase sources st → indexed st.
Proof.
  intros [elems Hrun].
  destruct (indexed_loop elems _ indexed_initial) as (st' & Hrun' & Hinv).
  rewrite Hrun in Hrun'. by injection Hrun' as <-.
Qed.

(** The loop never throws. *)
Lemma tag_loop_total elems :
  ∃ st : Loop, tag_loop toLowerCase sources (∅, []) elems = Some st ∧ reachable toLowerCase sources st.
Proof.
  destruct (indexed_loop elems _ indexed_initial) as (st & Hrun & _).
  exists st. split; [done|]. by exists elems.
Qed.

Lemma indexed_tokens_NoDup (st : Loop) : indexed st → NoDup (token <$> st.2).
Proof.
  intros Hinv. apply NoDup_alt. intros i j tok Hi Hj.
  rewrite list_lookup_fmap in Hi, Hj.
  destruct (st.2 !! i) as [ei|] eqn:Ei; [|done].
  destruct (st.2 !! j) as [ej|] eqn:Ej; [|done].
  simpl in Hi, Hj.
  assert (st.1 !! tok = Some i) as Hti by (apply Hinv; exists ei; split; congruence).
  assert (st.1 !! tok = Some j) as Htj by (apply Hinv; exists ej; split; congruence).
  congruence.
Qed.

Lemma entries_for_NoDup tok (output : list Entry) :
  NoDup (token <$> output) → tok ∈ token <$> output →
  entries_for tok output = 1.
Proof.
  unfold entries_for. induction output as [|e rest IH]; simpl.
  - intros _ H. by apply elem_of_nil in H.
  - rewrite NoDup_cons. intros [Hnotin Hnd] Hin.
    rewrite filter_cons. destruct (decide (token e = tok)) as [Heq|Hne].
    + simpl. f_equal. subst tok.
      destruct (filter (λ e0 : Entry, token e0 = token e) rest) as [|x xs] eqn:Hf; [done|].
      exfalso. apply Hnotin.
      assert (x ∈ filter (λ e0 : Entry, token e0 = token e) rest) as Hx
        by (rewrite Hf; left).
      apply list_elem_of_filter in Hx as [Hx1 Hx2].
      rewrite <- Hx1. apply list_elem_of_fmap. eauto.
    + apply IH; [done|]. apply elem_of_cons in Hin as [Hin|Hin]; [congruence | done].
Qed.

(** C5: when the index already has an entry for the case-folded form of
    a token, merging the token appends its source references to that
    entry, adds no entry, and leaves exactly one entry for the
    normalized token.  This holds for every token and whatever
    [toLowerCase] folds: nothing is assumed about the built-in. *)
Theorem tag_merge_existing_token (st : Loop) t :
  reachable toLowerCase sources st →
  toLowerCase t ∈ token <$> st.2 →
  ∃ i e st',
    st.2 !! i = Some e ∧ token e = toLowerCase t ∧
    tag_step toLowerCase sources st t = Some st' ∧
    st'.2 = <[i := mkEntry (token e) (roam e) (zotero e ++ sources t)]> st.2 ∧
    length st'.2 = length st.2 ∧
    entries_for (toLowerCase t) st'.2 = 1.
Proof.
  intros Hreach Hin.
  pose proof (reachable_indexed _ Hreach) as Hinv.
  apply list_elem_of_fmap in Hin as (e & Htok & He).
  apply list_elem_of_lookup in He as [i Hi].
  assert (st.1 !! toLowerCase t = Some i) as Hm by (apply Hinv; eauto).
  destruct (indexed_step st t Hinv) as (st' & Hstep & Hinv').
  pose proof (tag_step_existing st t i e Hm Hi) as Hstep'.
  rewrite Hstep in Hstep'. injection Hstep' as ->.
  exists i, e. eexists. split; [done|]. split; [done|].
  split; [done|]. simpl. split; [done|].
  split; [by rewrite length_insert|].
  apply entries_for_NoDup.
  - by apply (indexed_tokens_NoDup _ Hinv').
  - apply list_elem_of_fmap. eexists. split; [|eapply list_elem_of_lookup_2].
    2:{ apply list_lookup_insert_eq. by eapply lookup_lt_Some. }
    simpl. done.
Qed.

(** Merging the same token twice yields one entry for it. *)
Lemma tag_merge_twice elems t :
  ∃ st : Loop, tag_loop toLowerCase sources (∅, []) (elems ++ [t; t]) = Some st ∧
               entries_for (toLowerCase t) st.2 = 1.
Proof.
  destruct (tag_loop_total (elems ++ [t; t])) as (st & Hrun & Hreach).
  exists st. split; [done|].
  pose proof (reachable_indexed _ Hreach) as Hinv.
  apply entries_for_NoDup; [by apply indexed_tokens_NoDup|].
  destruct (tag_loop_total elems) as (st0 & Hrun0 & Hreach0).
  pose proof (reachable_indexed _ Hreach0) as Hinv0.
  destruct (indexed_step st0 t Hinv0) as (st1 & Hs1 & Hinv1).
  destruct (indexed_step st1 t Hinv1) as (st2 & Hs2 & Hinv2).
  assert (st = st2) as ->.
  { clear -Hrun Hrun0 Hs1 Hs2. revert Hrun Hrun0. generalize ((∅, []) : Loop).
    induction elems as [|x xs IH]; intros s0; simpl.
    - intros H [= ->]. rewrite Hs1, Hs2 in H. congruence.
    - destruct (tag_step toLowerCase sources s0 x); [apply IH | done]. }
  assert (∃ i, st2.1 !! toLowerCase t = Some i) as [i Hi].
  { destruct (st1.1 !! toLowerCase t) as [j|] eqn:Hj.
    - destruct (proj1 (Hinv1 _ _) Hj) as (e & He & _).
      rewrite (tag_step_existing st1 t j e Hj He) in Hs2.
      injection Hs2 as <-. eauto.
    - rewrite (tag_step_fresh st1 t Hj) in Hs2. injection Hs2 as <-.
      simpl. rewrite lookup_insert_eq. eauto. }
  destruct (proj1 (Hinv2 _ _) Hi) as (e & He & Htok).
  apply list_elem_of_fmap. exists e. split; [done|]. by eapply list_elem_of_lookup_2.
Qed.

(** C3: for the tokens ["AI", "ai", "ML"], each carrying one source
    reference, [categorizeZoteroTags] returns exactly two entries: one
    under "ai" with two references and one under "ml" with one, whatever
    order the locale's comparison puts the tokens in.  (On these three
    ASCII tokens the built-in [toLowerCase] is [toLowerCaseASCII].) *)
Theorem categorize_AI_ai_ML (localeCompare : string → string → Z) :
  (∀ t, t ∈ ["AI"; "ai"; "ML"] → length (sources t) = 1) →
  ∃ ai ml output,
    categorizeZoteroTags (RoamPage := RoamPage) toLowerCaseASCII localeCompare sources
                         ["AI"; "ai"; "ML"] = Some output ∧
    output ≡ₚ [ai; ml] ∧
    token ai = "ai" ∧ length (zotero ai) = 2 ∧
    token ml = "ml" ∧ length (zotero ml) = 1.
Proof.
  intros Hone.
  assert (length (sources "AI") = 1) as HAI by (apply Hone; set_solver).
  assert (length (sources "ai") = 1) as Hai by (apply Hone; set_solver).
  assert (length (sources "ML") = 1) as HML by (apply Hone; set_solver).
  unfold categorizeZoteroTags, js_sort. cbn [foldr sort_insert].
  repeat (case_bool_decide; cbn [sort_insert]).
  all: match goal with
       | |- context [tag_loop ?g ?f ?s ?l] =>
           let r := fresh "r" in
           set (r := tag_loop g f s l); vm_compute in r; subst r
       end.
  all: cbn [fmap option_fmap option_map snd].
  all: eexists _, _, _; split; [reflexivity|].
  all: first
         [ split; [reflexivity|];
           split; [reflexivity|]; split; [cbn [zotero]; rewrite length_app; lia|];
           split; [reflexivity|]; cbn [zotero]; lia
         | split; [apply perm_swap|];
           split; [reflexivity|]; split; [cbn [zotero]; rewrite length_app; lia|];
           split; [reflexivity|]; cbn [zotero]; lia ].
Qed.

End TagIndexerFacts.

Section TagIndexerWitnesses.

Import TagIndexer.

Lemma categorize_AI_ai_ML_witness :
  (∀ t, t ∈ ["AI"; "ai"; "ML"] → length (ownSource t) = 1) ∧
  ∃ ai ml output,
    categorizeZoteroTags (RoamPage := unit) toLowerCaseASCII byteCompare ownSource
                         ["AI"; "ai"; "ML"] = Some output ∧
    output ≡ₚ [ai; ml] ∧
    token ai = "ai" ∧ length (zotero ai) = 2 ∧
    token ml = "ml" ∧ length (zotero ml) = 1.
Proof.
  split; [intros t _; reflexivity|].
  apply (categorize_AI_ai_ML (RoamPage := unit) ownSource byteCompare).
  intros t _. reflexivity.
Defined.

Lemma tag_merge_existing_token_witness :
  reachable toLowerCaseASCII ownSource after_AI ∧
  toLowerCaseASCII "ai" ∈ token <$> after_AI.2 ∧
  ∃ i e st',
    after_AI.2 !! i = Some e ∧ token e = toLowerCaseASCII "ai" ∧
    tag_step toLowerCaseASCII ownSource after_AI "ai" = Some st' ∧
    st'.2 = <[i := mkEntry (token e) (roam e) (zotero e ++ ownSource "ai")]> after_AI.2 ∧
    length st'.2 = length after_AI.2 ∧
    entries_for (toLowerCaseASCII "ai") st'.2 = 1.
Proof.
  assert (reachable toLowerCaseASCII ownSource after_AI) as Hreach
    by (exists ["AI"]; vm_compute; reflexivity).
  assert (toLowerCaseASCII "ai" ∈ token <$> after_AI.2) as Hin
    by (vm_compute; left).
  split; [exact Hreach|]. split; [exact Hin|].
  exact (tag_merge_existing_token toLowerCaseASCII ownSource after_AI "ai" Hreach Hin).
Defined.

End TagIndexerWitnesses.

(** ** Paginator *)

Section PaginatorFacts.

Import Paginator.

Context {X : Type}.
Variable server : nat → option (list X).
Variable pick : list (nat * nat) → nat.

Lemma in_flight_app tr1 tr2 : in_flight (tr1 ++ tr2) = (in_flight tr1 + in_flight tr2)%Z.
Proof.
  induction tr1 as [|e tr1 IH]; simpl; [lia|].
  rewrite IH. destruct e; lia.
Qed.

Lemma in_flight_issued starts : in_flight (Issued <$> starts) = Z.of_nat (length starts).
Proof.
  induction starts as [|s l IH]; [done|].
  rewrite fmap_cons. cbn [in_flight length]. rewrite IH. lia.
Qed.

Lemma in_flight_settles tr : Forall settles tr → in_flight tr = (- Z.of_nat (length tr))%Z.
Proof.
  induction 1 as [|e tr He _ IH]; simpl; [done|].
  rewrite IH. destruct e; [done | lia | lia].
Qed.

Lemma prefix_app_cases {A} (p l1 l2 : list A) :
  p `prefix_of` l1 ++ l2 →
  p `prefix_of` l1 ∨ ∃ q, p = l1 ++ q ∧ q `prefix_of` l2.
Proof.
  revert p. induction l1 as [|x l1 IH]; intros p Hp; simpl in *.
  - right. by exists p.
  - destruct p as [|y p]; [left; apply prefix_nil|].
    pose proof (prefix_cons_inv_1 _ _ _ _ Hp) as ->.
    apply prefix_cons_inv_2 in Hp.
    destruct (IH _ Hp) as [H|(q & -> & Hq)].
    + left. by apply prefix_cons.
    + right. by exists q.
Qed.

Lemma prefix_Forall {A} (P : A → Prop) (p l : list A) :
  p `prefix_of` l → Forall P l → Forall P p.
Proof. intros [k ->] H. by apply Forall_app in H as [H _]. Qed.

(** What [Promise.all] puts on the wire: settlements only, at most one
    per pending request, and one for each when it resolves. *)
Lemma promise_all_events fuel : ∀ pending settled events r,
  promise_all server pick fuel pending settled = (events, r) →
  Forall settles events ∧ length events ≤ length pending ∧
  (is_Some r → length events = length pending).
Proof.
  induction fuel as [|fuel IH]; intros pending settled events r.
  - destruct pending; simpl; intros [= <- <-]; (split; [constructor|]);
      (split; [simpl; lia|]); [done | by intros []].
  - destruct pending as [|p0 rest].
    { simpl. intros [= <- <-]. split; [constructor|]. done. }
    cbn [promise_all]. set (pending := p0 :: rest).
    destruct (pending !! (pick pending `mod` length pending)) as [[pos start]|] eqn:Hk.
    2:{ intros [= <- <-]. split; [constructor|]. split; [simpl; lia | by intros []]. }
    destruct (server start) as [d|].
    2:{ intros [= <- <-]. split; [by repeat constructor|].
        split; [simpl; lia | by intros []]. }
    destruct (promise_all server pick fuel _ _) as [ev r'] eqn:Hrec.
    intros [= <- <-].
    destruct (IH _ _ _ _ Hrec) as (Hs & Hlen & Hfull).
    rewrite length_delete in Hlen, Hfull by eauto.
    assert (0 < length pending) by (simpl; lia).
    clearbody pending.
    split; [by constructor|]. simpl. split; [lia|].
    intros Hr. specialize (Hfull Hr). simpl in Hfull. lia.
Qed.

Lemma pick_in_range (pending : list (nat * nat)) :
  pending ≠ [] → is_Some (pending !! (pick pending `mod` length pending)).
Proof.
  intros Hne. apply lookup_lt_is_Some. apply Nat.mod_upper_bound.
  destruct pending; [done | simpl; lia].
Qed.

(** When every pending request is answered, [Promise.all] resolves and
    holds each answer under the position of its request, in whatever
    order the answers came. *)
Lemma promise_all_resolves fuel : ∀ pending settled,
  length pending ≤ fuel → NoDup pending.*1 →
  Forall (λ p, is_Some (server p.2)) pending →
  ∃ m, (promise_all server pick fuel pending settled).2 = Some m ∧
       (∀ pos start, (pos, start) ∈ pending → m !! pos = server start) ∧
       (∀ pos, pos ∉ pending.*1 → m !! pos = settled !! pos).
Proof.
  induction fuel as [|fuel IH]; intros pending settled Hfuel Hnd Hall.
  - destruct pending; [|simpl in Hfuel; lia].
    exists settled. simpl. split; [done|]. split; [|done].
    intros ? ? H. by apply elem_of_nil in H.
  - destruct pending as [|p0 rest].
    { exists settled. simpl. split; [done|]. split; [|done].
      intros ? ? H. by apply elem_of_nil in H. }
    cbn [promise_all]. set (pending := p0 :: rest) in *.
    destruct (pick_in_range pending) as [[pos start] Hk]; [done|].
    rewrite Hk.
    pose proof (delete_Permutation _ _ _ Hk) as Hperm.
    assert ((pos, start) ∈ pending) as Hin by (by eapply list_elem_of_lookup_2).
    assert (is_Some (server start)) as [d Hd].
    { rewrite Forall_forall in Hall. apply (Hall _ Hin). }
    rewrite Hd.
    set (pending' := delete (pick pending `mod` length pending) pending) in *.
    assert (NoDup ((pos, start) :: pending').*1) as Hnd'.
    { by rewrite <- Hperm. }
    rewrite fmap_cons, NoDup_cons in Hnd'. destruct Hnd' as [Hpos Hnd'].
    destruct (IH pending' (<[pos := d]> settled)) as (m & Hm & Hpend & Hrest).
    { subst pending'. rewrite length_delete by eauto. lia. }
    { done. }
    { rewrite Hperm in Hall. by apply Forall_cons in Hall as [_ Hall]. }
    exists m. destruct (promise_all server pick fuel pending' _) as [ev r'].
    cbn [snd] in *. split; [done|]. split.
    + intros pos' start' Hin'. rewrite Hperm in Hin'.
      apply elem_of_cons in Hin' as [[= -> ->]|Hin']; [|by apply Hpend].
      rewrite Hrest by done. by rewrite lookup_insert_eq.
    + intros pos' Hnot. rewrite Hrest.
      * rewrite lookup_insert_ne; [done|]. intros ->. apply Hnot.
        apply list_elem_of_fmap. by exists (pos', start).
      * intros Hin'. apply Hnot. rewrite Hperm, fmap_cons. by right.
Qed.

(** When some pending request is rejected, [Promise.all] rejects,
    whichever request settles first. *)
Lemma promise_all_rejects fuel : ∀ pending settled,
  Exists (λ p, server p.2 = None) pending →
  (promise_all server pick fuel pending settled).2 = None.
Proof.
  induction fuel as [|fuel IH]; intros pending settled Hex.
  - destruct pending; [by apply Exists_nil in Hex | done].
  - destruct pending as [|p0 rest]; [by apply Exists_nil in Hex|].
    cbn [promise_all]. set (pending := p0 :: rest) in *.
    destruct (pick_in_range pending) as [[pos start] Hk]; [done|].
    rewrite Hk. destruct (server start) as [d|] eqn:Hd; [|done].
    pose proof (delete_Permutation _ _ _ Hk) as Hperm.
    rewrite Hperm in Hex. apply Exists_cons in Hex as [Hex|Hex].
    { simpl in Hex. congruence. }
    specialize (IH _ (<[pos := d]> settled) Hex).
    by destruct (promise_all server pick fuel _ _).
Qed.

Lemma positions_of_batch (batch : list nat) :
  (imap pair batch).*1 = seq 0 (length batch).
Proof.
  rewrite fmap_imap, <- (list_fmap_id (seq 0 (length batch))).
  rewrite <- (imap_seq_0 batch id). by apply imap_ext.
Qed.

(** [Promise.all] over a batch gives the pages of the batch in the order
    of the requests, or rejects when a page is rejected: the arrival
    order does not show. *)
Lemma batch_resolution (batch : list nat) :
  (promise_all server pick (length batch) (imap pair batch) ∅).2
    ≫= batch_results (length batch)
  = mapM server batch.
Proof.
  destruct (mapM server batch) as [pages|] eqn:E.
  - pose proof (proj1 (mapM_Some _ _ _) E) as HF2.
    destruct (promise_all_resolves (length batch) (imap pair batch) ∅)
      as (m & -> & Hm & _).
    + by rewrite length_imap.
    + rewrite positions_of_batch. apply NoDup_seq.
    + apply Forall_forall. intros [pos start] Hin.
      apply elem_of_lookup_imap_1 in Hin as (i & y & [= -> ->] & Hy).
      simpl. assert (Forall (is_Some ∘ server) batch) as Hall
        by (apply mapM_is_Some; by rewrite E).
      rewrite Forall_forall in Hall. apply (Hall y).
      by eapply list_elem_of_lookup_2.
    + simpl. unfold batch_results. apply mapM_Some.
      apply Forall2_same_length_lookup. split.
      { rewrite length_seq. by eapply length_mapM. }
      intros i pos y Hpos Hy. apply lookup_seq in Hpos as [-> Hlt]. simpl.
      destruct (lookup_lt_is_Some_2 batch i Hlt) as [start Hstart].
      rewrite (Hm i start) by (by apply (elem_of_lookup_imap_2 pair)).
      exact (Forall2_lookup_lr _ batch pages i start y HF2 Hstart Hy).
  - apply mapM_None in E. rewrite promise_all_rejects; [done|].
    apply Exists_exists in E as (start & Hin & Hnone).
    apply list_elem_of_lookup in Hin as [i Hi].
    apply Exists_exists. exists (i, start). split; [|done].
    by apply (elem_of_lookup_imap_2 pair).
Qed.

Lemma mapM_option_app {A B} (f : A → option B) (l1 l2 : list A) :
  mapM f (l1 ++ l2) =
    k1 ← mapM f l1; k2 ← mapM f l2; Some (k1 ++ k2).
Proof.
  induction l1 as [|x l1 IH]; simpl.
  - by destruct (mapM f l2).
  - destruct (f x); simpl; [|done]. rewrite IH.
    destruct (mapM f l1); simpl; [|done]. by destruct (mapM f l2).
Qed.

Lemma batch_starts_length i nb : length (batch_starts i nb) ≤ CONCURRENCY_LIMIT.
Proof. unfold batch_starts, CONCURRENCY_LIMIT. rewrite length_fmap, length_seq. lia. Qed.

Lemma starts_split i nb :
  i < nb →
  (λ j, 100 * (j + 1)) <$> seq i (nb - i) =
    batch_starts i nb
      ++ ((λ j, 100 * (j + 1)) <$> seq (i + CONCURRENCY_LIMIT) (nb - (i + CONCURRENCY_LIMIT))).
Proof.
  intros Hlt. unfold batch_starts, CONCURRENCY_LIMIT. rewrite <- fmap_app. f_equal.
  destruct (decide (i + 5 ≤ nb)) as [Hle|Hgt].
  - replace (nb - i) with (5 + (nb - (i + 5))) by lia.
    rewrite seq_app. do 2 f_equal; lia.
  - replace (nb - (i + 5)) with 0 by lia. simpl. rewrite app_nil_r. f_equal. lia.
Qed.

Lemma issued_starts_app tr1 tr2 :
  issued_starts (tr1 ++ tr2) = issued_starts tr1 ++ issued_starts tr2.
Proof. apply omap_app. Qed.

Lemma issued_starts_issued starts : issued_starts (Issued <$> starts) = starts.
Proof. induction starts as [|x l IH]; [done|]. rewrite fmap_cons. simpl. by f_equal. Qed.

Lemma issued_starts_settles tr : Forall settles tr → issued_starts tr = [].
Proof. induction 1 as [|e tr He _ IH]; [done|]. by destruct e. Qed.

(** The outer loop returns the pages from [i] on, in page order, appended
    to what it had; it throws when one of them is rejected.  Enough fuel
    is one round per batch and one for the exit test. *)
Lemma batches_outcome fuel : ∀ i nb results,
  (nb - i) + 5 ≤ 5 * fuel →
  (batches server pick fuel i nb results).2 =
    match mapM server ((λ j, 100 * (j + 1)) <$> seq i (nb - i)) with
    | Some pages => Returned (results ++ concat pages)
    | None => Thrown
    end
  ∧ (is_Some (mapM server ((λ j, 100 * (j + 1)) <$> seq i (nb - i))) →
     issued_starts (batches server pick fuel i nb results).1 =
       (λ j, 100 * (j + 1)) <$> seq i (nb - i)).
Proof.
  induction fuel as [|fuel IH]; intros i nb results Hfuel; [lia|].
  cbn [batches]. destruct (decide (i < nb)) as [Hlt|Hge].
  2:{ replace (nb - i) with 0 by lia. simpl. by rewrite app_nil_r. }
  rewrite (starts_split i nb Hlt), mapM_option_app.
  pose proof (batch_resolution (batch_starts i nb)) as Hres.
  destruct (promise_all server pick _ _ ∅) as [events r] eqn:Hp.
  destruct (promise_all_events _ _ _ _ _ Hp) as (Hsettle & _ & _).
  cbn [snd] in Hres. rewrite Hres.
  destruct (mapM server (batch_starts i nb)) as [pages|]; cbn [mbind option_bind].
  2:{ split; [done|]. by intros []. }
  destruct (IH (i + CONCURRENCY_LIMIT) nb (results ++ concat pages)) as [Hout Hiss].
  { unfold CONCURRENCY_LIMIT. lia. }
  destruct (batches server pick fuel _ _ _) as [later outcome].
  cbn [fst snd] in *. rewrite Hout. split.
  - destruct (mapM server _) as [more|]; cbn [mbind option_bind]; [|done].
    by rewrite concat_app, app_assoc.
  - intros Hsome. rewrite !issued_starts_app, issued_starts_issued.
    rewrite (issued_starts_settles _ Hsettle). simpl. f_equal. apply Hiss.
    destruct (mapM server _) as [more|]; [done|]. by destruct Hsome.
Qed.

Lemma batch_in_flight (batch : list nat) events p :
  Forall settles events → length events ≤ length batch →
  p `prefix_of` (Issued <$> batch) ++ events →
  (0 ≤ in_flight p ≤ Z.of_nat (length batch))%Z.
Proof.
  intros Hs Hlen Hp. apply prefix_app_cases in Hp as [Hp|(q & -> & Hq)].
  - destruct Hp as [k Hk].
    assert (∃ b1 b2, batch = b1 ++ b2 ∧ p = Issued <$> b1) as (b1 & b2 & -> & ->).
    { apply fmap_app_inv in Hk as (b1 & b2 & ? & ? & ?). eauto. }
    rewrite in_flight_issued, length_app. lia.
  - rewrite in_flight_app, in_flight_issued.
    rewrite (in_flight_settles q) by (by eapply prefix_Forall).
    apply prefix_length in Hq. lia.
Qed.

(** At every point of the run, the requests in flight number between 0
    and the concurrency limit. *)
Lemma batches_in_flight fuel : ∀ i nb results p,
  p `prefix_of` (batches server pick fuel i nb results).1 →
  (0 ≤ in_flight p ≤ Z.of_nat CONCURRENCY_LIMIT)%Z.
Proof.
  induction fuel as [|fuel IH]; intros i nb results p.
  { simpl. intros ->%prefix_nil_inv. simpl. unfold CONCURRENCY_LIMIT. lia. }
  cbn [batches]. destruct (decide (i < nb)) as [Hlt|Hge].
  2:{ simpl. intros ->%prefix_nil_inv. simpl. unfold CONCURRENCY_LIMIT. lia. }
  pose proof (batch_starts_length i nb) as Hk.
  destruct (promise_all server pick _ _ ∅) as [events r] eqn:Hp.
  destruct (promise_all_events _ _ _ _ _ Hp) as (Hsettle & Hlen & Hfull).
  rewrite length_imap in Hlen, Hfull.
  destruct (r ≫= batch_results _) as [batchResults|] eqn:Hr.
  - specialize (IH (i + CONCURRENCY_LIMIT) nb (results ++ concat batchResults)).
    destruct (batches server pick fuel _ _ _) as [later outcome].
    cbn [fst] in *. rewrite app_assoc. intros Hpre.
    apply prefix_app_cases in Hpre as [Hpre|(q & -> & Hq)].
    + pose proof (batch_in_flight _ _ _ Hsettle Hlen Hpre). lia.
    + rewrite !in_flight_app, in_flight_issued, (in_flight_settles _ Hsettle).
      rewrite Hfull by (destruct r; [done | discriminate Hr]).
      specialize (IH q Hq). lia.
  - cbn [fst]. intros Hpre.
    pose proof (batch_in_flight _ _ _ Hsettle Hlen Hpre). lia.
Qed.

End PaginatorFacts.

Section PaginatorResults.

Import Paginator.

(** C8: the remaining pages are requested with never more than 5
    requests in flight, and what is returned is the concatenation of the
    pages in page order: the outcome is the same for every order in which
    the answers arrive.  When every page is answered, every page has been
    requested, in page order, and the result is returned. *)
Theorem fetchAdditionalData_bounded_in_page_order {X : Type}
    (server : nat → option (list X)) (nbExtraCalls : nat)
    (pick : list (nat * nat) → nat) :
  let run := fetchAdditionalData server pick nbExtraCalls in
  (∀ p, p `prefix_of` run.1 → (0 ≤ in_flight p ≤ 5)%Z) ∧
  run.2 = in_page_order server nbExtraCalls ∧
  (∀ pick', (fetchAdditionalData server pick' nbExtraCalls).2 = run.2) ∧
  (∀ pages, mapM server (page_starts nbExtraCalls) = Some pages →
     run.2 = Returned (concat pages) ∧
     issued_starts run.1 = page_starts nbExtraCalls).
Proof.
  intros run. subst run. unfold fetchAdditionalData.
  assert (∀ pk, (batches server pk (S nbExtraCalls) 0 nbExtraCalls []).2
                = in_page_order server nbExtraCalls) as Hall.
  { intros pk.
    destruct (batches_outcome server pk (S nbExtraCalls) 0 nbExtraCalls []) as [H _];
      [lia|].
    rewrite H. unfold in_page_order, page_starts.
    by rewrite Nat.sub_0_r. }
  split; [apply batches_in_flight|]. split; [apply Hall|].
  split; [intros pick'; by rewrite !Hall|].
  intros pages Hpages.
  destruct (batches_outcome server pick (S nbExtraCalls) 0 nbExtraCalls []) as [H1 H2];
    [lia|].
  rewrite Nat.sub_0_r in H1, H2. unfold page_starts in *.
  rewrite Hpages in H1, H2. split; [done|]. by apply H2.
Qed.

Lemma fetchAdditionalData_bounded_in_page_order_witness :
  mapM echoServer (page_starts 7)
    = Some [[100]; [200]; [300]; [400]; [500]; [600]; [700]] ∧
  (fetchAdditionalData echoServer secondFirst 7).2
    = Returned [100; 200; 300; 400; 500; 600; 700].
Proof.
  assert (mapM echoServer (page_starts 7)
            = Some [[100]; [200]; [300]; [400]; [500]; [600]; [700]]) as Hpages
    by (vm_compute; reflexivity).
  split; [exact Hpages|].
  destruct (fetchAdditionalData_bounded_in_page_order
              echoServer 7 secondFirst) as (_ & _ & _ & Hret).
  exact (proj1 (Hret _ Hpages)).
Defined.

Example fetch_arrivals_out_of_order :
  (fetchAdditionalData echoServer secondFirst 7).1 =
    [Issued 100; Issued 200; Issued 300; Issued 400; Issued 500;
       Arrived 200; Arrived 300; Arrived 400; Arrived 500; Arrived 100;
       Issued 600; Issued 700; Arrived 700; Arrived 600].
Proof. vm_compute. reflexivity. Qed.

End PaginatorResults.

(** ** Sync Coordinator *)

Section CoordinatorFacts.

Import Coordinator.

Context {Snapshot : Type}.

Abbreviation St := (State Snapshot).
Abbreviation Ev := (Event Snapshot).

Lemma run_app (s : St) (es1 es2 : list Ev) : run s (es1 ++ es2) = run (run s es1) es2.
Proof. apply fold_left_app. Qed.

Lemma fetches_insert_ne (s : St) id id' n :
  id' ≠ id → default 0 (<[id' := n]> (fetchCount s) !! id) = fetches s id.
Proof. intros Hne. unfold fetches. by rewrite lookup_insert_ne. Qed.

(** While the cycle of [id] is in progress, a step that does not end it
    keeps it in progress, keeps those who wait, starts no fetch for [id]
    and settles no call for [id]. *)
Lemma step_keeps_flight (s : St) (e : Ev) id waiting :
  ¬ ends_cycle id e → inflight s !! id = Some waiting →
  ∃ more, inflight (step s e) !! id = Some (waiting ++ more) ∧
          fetches (step s e) id = fetches s id ∧
          (∀ c r, (c, id, r) ∈ settled (step s e) → (c, id, r) ∈ settled s).
Proof.
  intros Hend Hfl. destruct e as [id' c | id' snap | id' | id']; simpl in *.
  - destruct (decide (id' = id)) as [->|Hne].
    + rewrite Hfl. simpl. rewrite lookup_insert_eq. eauto.
    + exists []. rewrite app_nil_r.
      destruct (inflight s !! id') as [w|]; simpl.
      * by rewrite lookup_insert_ne.
      * destruct (cache s !! id') as [snap|]; simpl.
        -- split; [done|]. split; [done|]. intros c' r Hin.
           apply elem_of_app in Hin as [Hin|Hin]; [done|].
           apply list_elem_of_singleton in Hin. congruence.
        -- rewrite lookup_insert_ne by done. split; [done|].
           split; [by apply fetches_insert_ne | done].
  - exists []. rewrite app_nil_r.
    destruct (inflight s !! id') as [w|]; simpl; [|done].
    rewrite lookup_delete_ne by done. split; [done|]. split; [done|].
    intros c r Hin. apply elem_of_app in Hin as [Hin|Hin]; [done|].
    apply list_elem_of_fmap in Hin as (c' & [= -> ? ->] & _). congruence.
  - exists []. rewrite app_nil_r.
    destruct (inflight s !! id') as [w|]; simpl; [|done].
    rewrite lookup_delete_ne by done. split; [done|]. split; [done|].
    intros c r Hin. apply elem_of_app in Hin as [Hin|Hin]; [done|].
    apply list_elem_of_fmap in Hin as (c' & [= -> ? ->] & _). congruence.
  - exists []. by rewrite app_nil_r.
Qed.

Lemma run_keeps_flight (events : list Ev) id : ∀ (s : St) waiting,
  Forall (λ e, ¬ ends_cycle id e) events → inflight s !! id = Some waiting →
  ∃ more, inflight (run s events) !! id = Some (waiting ++ more) ∧
          fetches (run s events) id = fetches s id ∧
          (∀ c r, (c, id, r) ∈ settled (run s events) → (c, id, r) ∈ settled s).
Proof.
  induction events as [|e rest IH]; intros s waiting Hall Hfl.
  - exists []. by rewrite app_nil_r.
  - apply Forall_cons in Hall as [He Hall].
    destruct (step_keeps_flight s e id waiting He Hfl) as (m1 & Hfl1 & Hf1 & Hs1).
    destruct (IH (step s e) _ Hall Hfl1) as (m2 & Hfl2 & Hf2 & Hs2).
    exists (m1 ++ m2). simpl. rewrite Hfl2, Hf2, Hf1, app_assoc.
    split; [done|]. split; [done|]. eauto.
Qed.

(** C9: two calls of [requestSync] for the same identity, the second
    made before the cycle started by the first has ended (with anything
    for other identities, and further calls, in between), start exactly
    one fetch cycle for it, and both are resolved with the snapshot that
    cycle publishes; no call for the identity is settled otherwise in the
    meantime. *)
Theorem requestSync_single_flight (s : St) id c1 c2 (mid1 mid2 : list Ev) snapshot :
  inflight s !! id = None → cache s !! id = None →
  Forall (λ e, ¬ ends_cycle id e) mid1 →
  Forall (λ e, ¬ ends_cycle id e) mid2 →
  let s' := run s ([RequestSync id c1] ++ mid1 ++ [RequestSync id c2] ++ mid2
                     ++ [CycleDone id snapshot]) in
  fetches s' id = S (fetches s id) ∧
  (c1, id, Resolved snapshot) ∈ settled s' ∧
  (c2, id, Resolved snapshot) ∈ settled s' ∧
  (∀ c r, (c, id, r) ∈ settled s' → (c, id, r) ∈ settled s ∨ r = Resolved snapshot).
Proof.
  intros Hidle Hcold Hmid1 Hmid2 s'. subst s'.
  rewrite !run_app.
  set (s1 := run s [RequestSync id c1]).
  assert (inflight s1 !! id = Some [c1] ∧ fetches s1 id = S (fetches s id)
          ∧ settled s1 = settled s) as (Hfl1 & Hf1 & Hs1).
  { subst s1. simpl. rewrite Hidle, Hcold. simpl. rewrite lookup_insert_eq.
    split; [done|]. split; [|done]. unfold fetches at 1. simpl.
    by rewrite lookup_insert_eq. }
  destruct (run_keeps_flight mid1 id s1 _ Hmid1 Hfl1) as (w1 & Hfl2 & Hf2 & Hs2).
  set (s2 := run s1 mid1) in *.
  destruct (step_keeps_flight s2 (RequestSync id c2) id _ (λ H, H) Hfl2)
    as (w2 & Hfl3 & Hf3 & Hs3).
  assert (w2 = [c2]) as ->.
  { simpl in Hfl3. rewrite Hfl2 in Hfl3. simpl in Hfl3.
    rewrite lookup_insert_eq in Hfl3. injection Hfl3 as Hfl3.
    by apply app_inv_head in Hfl3. }
  change (run s2 [RequestSync id c2]) with (step s2 (RequestSync id c2)).
  set (s3 := step s2 (RequestSync id c2)) in *.
  destruct (run_keeps_flight mid2 id s3 _ Hmid2 Hfl3) as (w3 & Hfl4 & Hf4 & Hs4).
  set (s4 := run s3 mid2) in *.
  change (run s4 [CycleDone id snapshot]) with (step s4 (CycleDone id snapshot)).
  cbn [step]. rewrite Hfl4. cbn [settled]. unfold fetches at 1. cbn [fetchCount].
  fold (fetches s4 id).
  split; [congruence|].
  split.
  { apply elem_of_app. right. apply list_elem_of_fmap. exists c1.
    split; [done|]. rewrite <- !app_assoc. apply elem_of_cons. by left. }
  split.
  { apply elem_of_app. right. apply list_elem_of_fmap. exists c2.
    split; [done|]. rewrite !elem_of_app. left. right. by left. }
  intros c r Hin. apply elem_of_app in Hin as [Hin|Hin].
  - left. rewrite <- Hs1. auto.
  - right. by apply list_elem_of_fmap in Hin as (c' & [= _ ->] & _).
Qed.

End CoordinatorFacts.

Section CoordinatorWitness.

Import Coordinator.

Lemma requestSync_single_flight_witness :
  let mid1 : list (Event nat) := [RequestSync groupLibrary 3; Expired userLibrary] in
  let mid2 : list (Event nat) := [CycleDone groupLibrary 40] in
  let s' := run initial ([RequestSync userLibrary 1] ++ mid1
                           ++ [RequestSync userLibrary 2] ++ mid2
                           ++ [CycleDone userLibrary 41]) in
  fetches s' userLibrary = 1 ∧
  (1, userLibrary, Resolved 41) ∈ settled s' ∧
  (2, userLibrary, Resolved 41) ∈ settled s'.
Proof.
  intros mid1 mid2 s'.
  assert (Forall (λ e, ¬ ends_cycle userLibrary e) mid1) as H1.
  { constructor; [simpl; tauto|]. constructor; [simpl; tauto|]. constructor. }
  assert (Forall (λ e, ¬ ends_cycle userLibrary e) mid2) as H2.
  { constructor; [simpl; discriminate|]. constructor. }
  destruct (requestSync_single_flight (initial (Snapshot := nat)) userLibrary 1 2
              mid1 mid2 41 eq_refl eq_refl H1 H2) as (Hf & Hc1 & Hc2 & _).
  split; [exact Hf|]. split; [exact Hc1 | exact Hc2].
Defined.

End CoordinatorWitness.

(* ===================================================================== *)
(** * Further properties of the code *)
(* ===================================================================== *)

(** ** Transport: runs of retries *)

Section TransportRuns.

Import Transport TransportTrace.

Lemma request_chain cfg (rs : list Response) network :
  Forall retryable rs →
  request cfg ((Answer <$> rs) ++ network) =
    (flat_map (λ r, [Sent cfg; Slept (delayMs (headers r))]) rs
       ++ (request cfg network).1,
     (request cfg network).2).
Proof.
  induction 1 as [|r rs Hr _ IH].
  - simpl. by destruct (request cfg network).
  - rewrite fmap_cons, <- app_comm_cons, request_retry by done.
    rewrite IH. done.
Qed.

Lemma sent_of_retries cfg (rs : list Response) :
  requests_sent (flat_map (λ r, [Sent cfg; Slept (delayMs (headers r))]) rs)
    = replicate (length rs) cfg.
Proof. induction rs as [|r rs IH]; [done|]. simpl. by f_equal. Qed.

Lemma delays_of_retries cfg (rs : list Response) :
  delays (flat_map (λ r, [Sent cfg; Slept (delayMs (headers r))]) rs)
    = (λ r, delayMs (headers r)) <$> rs.
Proof. induction rs as [|r rs IH]; [done|]. simpl. by f_equal. Qed.

(** X1: however many 429 or 5xx answers come in a row, each is waited
    out for its own hint and the same request is sent again; what the
    caller gets is what the first other reply gives. *)
Theorem request_retries_until_other_reply cfg (rs : list Response) network :
  Forall retryable rs →
  (request cfg ((Answer <$> rs) ++ network)).2 = (request cfg network).2 ∧
  requests_sent (request cfg ((Answer <$> rs) ++ network)).1
    = replicate (length rs) cfg ++ requests_sent (request cfg network).1 ∧
  delays (request cfg ((Answer <$> rs) ++ network)).1
    = ((λ r, delayMs (headers r)) <$> rs) ++ delays (request cfg network).1.
Proof.
  intros Hrs. rewrite (request_chain cfg rs network Hrs). cbn [fst snd].
  split; [done|].
  unfold requests_sent at 1, delays at 1. rewrite !omap_app.
  fold (requests_sent (flat_map (λ r, [Sent cfg; Slept (delayMs (headers r))]) rs)).
  fold (delays (flat_map (λ r, [Sent cfg; Slept (delayMs (headers r))]) rs)).
  by rewrite sent_of_retries, delays_of_retries.
Qed.

(** X2: there is no cap on the attempts: while the server answers only
    429 or 5xx, the request is sent once more than it was answered and
    the caller's promise neither fulfils nor rejects. *)
Theorem request_never_gives_up cfg (rs : list Response) :
  Forall retryable rs →
  (request cfg (Answer <$> rs)).2 = Pending ∧
  length (requests_sent (request cfg (Answer <$> rs)).1) = S (length rs) ∧
  length (delays (request cfg (Answer <$> rs)).1) = length rs.
Proof.
  intros Hrs. pose proof (request_chain cfg rs [] Hrs) as H.
  rewrite app_nil_r in H. rewrite H. cbn [fst snd request].
  split; [done|].
  unfold requests_sent at 1, delays at 1. rewrite !omap_app.
  fold (requests_sent (flat_map (λ r, [Sent cfg; Slept (delayMs (headers r))]) rs)).
  fold (delays (flat_map (λ r, [Sent cfg; Slept (delayMs (headers r))]) rs)).
  rewrite sent_of_retries, delays_of_retries.
  rewrite !length_app, length_replicate, length_fmap. simpl. lia.
Qed.

Lemma request_cons_cases cfg reply rest :
  (∃ r, reply = Answer r ∧ (200 ≤ status r < 300)%Z ∧
        request cfg (reply :: rest) = ([Sent cfg], Fulfilled r)) ∨
  (∃ r, reply = Answer r ∧ retryable r ∧
        request cfg (reply :: rest) =
          (Sent cfg :: Slept (delayMs (headers r)) :: (request cfg rest).1,
           (request cfg rest).2)) ∨
  (∃ e, request cfg (reply :: rest) = ([Sent cfg], Rejected e) ∧ config e = cfg ∧
        match reply with
        | Answer r => response e = Some r ∧ ¬ (200 ≤ status r < 300)%Z ∧ ¬ retryable r
        | NoAnswer => response e = None
        end).
Proof.
  destruct reply as [r|].
  - destruct (decide (200 ≤ status r < 300)%Z) as [Hok|Hno].
    + left. exists r. split; [done|]. split; [done|].
      cbn [request]. unfold dispatch. by rewrite bool_decide_eq_true_2.
    + destruct (decide (retryable r)) as [Hre|Hnre].
      * right. left. exists r. split; [done|]. split; [done|].
        by apply request_retry.
      * right. right. eexists. unfold retryable in Hnre.
        cbn [request]. unfold dispatch. rewrite bool_decide_eq_false_2 by done.
        cbn [response config]. rewrite !bool_decide_eq_false_2 by lia.
        cbn [orb]. done.
  - right. right. eexists. done.
Qed.

(** X3: whatever the network does, every request of a run is the
    caller's own; a fulfilled promise carries a 2xx response; a rejected
    one carries the caller's request and never a 429 or a 5xx response;
    and the promise stays pending only when every reply was a 429 or a
    5xx. *)
Theorem request_outcome_sound cfg network :
  Forall (λ c, c = cfg) (requests_sent (request cfg network).1) ∧
  match (request cfg network).2 with
  | Fulfilled r => (200 ≤ status r < 300)%Z
  | Rejected e =>
      config e = cfg ∧
      ∀ r, response e = Some r → ¬ retryable r ∧ ¬ (200 ≤ status r < 300)%Z
  | Pending => Forall (λ reply, ∃ r, reply = Answer r ∧ retryable r) network
  end.
Proof.
  induction network as [|reply rest [IHsent IHout]].
  - simpl. split; [by repeat constructor | constructor].
  - destruct (request_cons_cases cfg reply rest)
      as [(r & -> & Hok & ->) | [(r & -> & Hre & ->) | (e & -> & Hcfg & He)]];
      cbn [fst snd].
    + split; [by repeat constructor | done].
    + split; [by constructor|].
      destruct (request cfg rest).2 as [r'|e|]; [done | done |].
      constructor; eauto.
    + split; [by repeat constructor|]. split; [done|].
      intros r Hr. destruct reply as [r'|]; [|congruence].
      destruct He as (He & Hno & Hnre). rewrite He in Hr. by injection Hr as <-.
Qed.

(** X4: an empty [retry-after] value is not a wait of zero: it is passed
    over as if the header were absent, in favour of [backoff] or of 5
    seconds; the value "0" does mean no wait. *)
Theorem empty_retry_after_is_skipped (h : gmap string string) :
  delayMs (<["retry-after" := ""]> h) = delayMs (delete "retry-after" h) ∧
  delayMs (<["retry-after" := "0"]> h) = Some 0%Z ∧
  (h !! "retry-after" = None → h !! "backoff" = None → delayMs h = Some 5000%Z).
Proof.
  unfold delayMs, retryAfter, js_or, header.
  rewrite !lookup_insert_eq, lookup_delete_eq.
  rewrite lookup_insert_ne, lookup_delete_ne by done.
  split; [done|]. split; [done|]. by intros -> ->.
Qed.

Lemma two_retryable : Forall retryable [too_many; unavailable].
Proof. repeat constructor; unfold retryable; simpl; lia. Qed.

Lemma request_retries_until_other_reply_witness :
  (request cfg0 [Answer too_many; Answer unavailable; Answer ok200]).2 = Fulfilled ok200 ∧
  requests_sent (request cfg0 [Answer too_many; Answer unavailable; Answer ok200]).1
    = [cfg0; cfg0; cfg0] ∧
  delays (request cfg0 [Answer too_many; Answer unavailable; Answer ok200]).1
    = [Some 2000%Z; Some 5000%Z].
Proof.
  destruct (request_retries_until_other_reply cfg0 [too_many; unavailable]
              [Answer ok200] two_retryable) as (Hout & Hsent & Hdel).
  split; [exact Hout|]. split; [exact Hsent | exact Hdel].
Defined.

Lemma request_never_gives_up_witness :
  (request cfg0 [Answer too_many; Answer unavailable]).2 = Pending ∧
  length (requests_sent (request cfg0 [Answer too_many; Answer unavailable]).1) = 3.
Proof.
  destruct (request_never_gives_up cfg0 [too_many; unavailable] two_retryable)
    as (Hout & Hsent & _).
  split; [exact Hout | exact Hsent].
Defined.

End TransportRuns.

(** ** Delta Merger: deltas that modify nothing, deltas that delete nothing *)

Section DeltaMergerMore.

Import DeltaMerger.

Context {T : Type}.
Variable key : T → string.

Lemma items_of_dense (l : list T) : items_of (Some <$> l) = l.
Proof. unfold items_of. induction l as [|x l IH]; [done|]. simpl. by f_equal. Qed.

Lemma filter_pass_kept (D : gset string) (arr : JsArray T) : ∀ i m,
  (filter_pass key D arr i m).1 = filter (λ x, key x ∉ D) (items_of arr).
Proof.
  unfold items_of. induction arr as [|[x|] arr IH]; intros i m; [done| |].
  - cbn [filter_pass omap list_omap id]. rewrite filter_cons.
    destruct (decide (key x ∈ D)) as [Hin|Hout].
    + rewrite decide_False by (intros H; by apply H). apply IH.
    + rewrite decide_True by done.
      specialize (IH (S i) (<[key x := i]> m)).
      destruct (filter_pass key D arr (S i) _) as [kept m']. simpl in *. by f_equal.
  - cbn [filter_pass omap list_omap id]. apply IH.
Qed.

(** X5: a delta that modifies nothing returns the snapshot's items whose
    key is not deleted, in their order, whatever the array holds (holes
    are dropped, repeated keys are kept or dropped together); with
    nothing deleted either, the items come back as they were. *)
Theorem merge_without_modified (update : Update T) (arr : JsArray T) :
  default [] (modified update) = [] →
  matchWithCurrentData key update arr =
    Some <$> filter (λ x, key x ∉ default [] (deleted update)) (items_of arr)
  ∧ (default [] (deleted update) = [] →
     matchWithCurrentData key update arr = Some <$> items_of arr).
Proof.
  intros Hms.
  assert (matchWithCurrentData key update arr =
            Some <$> filter (λ x, key x ∉ default [] (deleted update)) (items_of arr))
    as Hmain.
  { unfold matchWithCurrentData. rewrite Hms.
    pose proof (filter_pass_kept (list_to_set (default [] (deleted update))) arr 0 ∅)
      as Hkept.
    destruct (filter_pass key _ arr 0 ∅) as [kept m]. simpl in *. rewrite Hkept.
    f_equal. apply filter_ext_in. intros x _. by rewrite elem_of_list_to_set. }
  split; [done|]. intros Hds. rewrite Hmain, Hds. f_equal.
  apply filter_all. intros x _. apply not_elem_of_nil.
Qed.

Lemma replaced_by_id ms : ∀ x, key x ∉ key <$> ms → replaced_by key ms x = x.
Proof.
  induction ms as [|item ms IH]; intros x Hx; [done|].
  rewrite replaced_by_cons, fmap_cons, not_elem_of_cons in *.
  destruct Hx as [Hne Hx]. rewrite decide_False by done. by apply IH.
Qed.

Lemma replaced_by_own ms : ∀ x, NoDup (key <$> ms) → x ∈ ms → replaced_by key ms x = x.
Proof.
  induction ms as [|item ms IH]; intros x Hnd Hx; [by apply elem_of_nil in Hx|].
  rewrite fmap_cons in Hnd. apply NoDup_cons in Hnd as [Hfresh Hnd].
  rewrite replaced_by_cons. apply elem_of_cons in Hx as [->|Hx].
  - rewrite decide_True by done. by apply replaced_by_id.
  - rewrite decide_False; [by apply IH|].
    intros Heq. apply Hfresh. rewrite Heq. apply list_elem_of_fmap. eauto.
Qed.

Lemma replaced_by_snoc ms item x :
  replaced_by key (ms ++ [item]) x =
    if decide (key item = key x) then item else replaced_by key ms x.
Proof.
  unfold replaced_by. rewrite fold_left_app. cbn [fold_left].
  fold (replaced_by key ms x). rewrite replaced_by_key. done.
Qed.

Lemma replaced_by_idem ms : ∀ x,
  replaced_by key ms (replaced_by key ms x) = replaced_by key ms x.
Proof.
  induction ms as [|item ms IH] using rev_ind; intros x; [done|].
  rewrite (replaced_by_snoc ms item x).
  destruct (decide (key item = key x)) as [Hk|Hk].
  - rewrite replaced_by_snoc. by rewrite decide_True.
  - rewrite replaced_by_snoc, replaced_by_key. rewrite decide_False by done.
    apply IH.
Qed.

(** The shape of the merge when the stored positions are the true ones. *)
Lemma merge_shape (update : Update T) (front back : list T) :
  NoDup (key <$> (front ++ back)) →
  (∀ x, x ∈ front → key x ∉ default [] (deleted update)) →
  (∀ x, x ∈ back → key x ∉ default [] (deleted update) →
        key x ∉ key <$> default [] (modified update)) →
  matchWithCurrentData key update (Some <$> (front ++ back)) =
    Some <$> ((replaced_by key (default [] (modified update)) <$> front)
              ++ filter (λ x, key x ∉ default [] (deleted update)) back
              ++ filter (λ item, key item ∉ key <$> front)
                        (default [] (modified update))).
Proof.
  set (ms := default [] (modified update)). set (ds := default [] (deleted update)).
  intros Hnd Hfront Hback. unfold matchWithCurrentData.
  fold ms. fold ds. set (D := list_to_set ds : gset string).
  assert (∀ k, k ∈ D ↔ k ∈ ds) as HD by (intros k; apply elem_of_list_to_set).
  destruct (filter_pass_dense key D (front ++ back) 0 ∅ Hnd) as (m & -> & Hkept & Hother).
  assert (∀ j x, front !! j = Some x → m !! key x = Some j) as Hpos.
  { intros j x Hx. apply (Hkept j x); [by apply lookup_app_l_Some|].
    rewrite HD. apply Hfront. by eapply list_elem_of_lookup_2. }
  assert (∀ item j, item ∈ ms → m !! key item = Some j →
                    ∃ x, front !! j = Some x ∧ key x = key item) as Hknown.
  { intros item j Hin Hj.
    destruct (decide (Exists (λ y, key y = key item ∧ key y ∉ D) (front ++ back)))
      as [Hex|Hnex].
    - apply Exists_exists in Hex as (y & Hy & Hky & HyD).
      apply elem_of_app in Hy as [Hy|Hy].
      + apply list_elem_of_lookup in Hy as [j' Hj'].
        pose proof (Hpos j' y Hj') as Hm. rewrite Hky, Hj in Hm.
        injection Hm as ->. eauto.
      + exfalso. apply (Hback y Hy); [by rewrite <- HD|].
        rewrite Hky. apply list_elem_of_fmap. eauto.
    - exfalso. rewrite Hother in Hj; [by rewrite lookup_empty in Hj|].
      intros y Hy Hky. destruct (decide (key y ∈ D)) as [|HyD]; [done|].
      exfalso. apply Hnex, Exists_exists. eauto. }
  rewrite filter_app. rewrite (filter_all _ front) by (intros x Hx; rewrite HD; auto).
  assert (NoDup (key <$> front)) as Hndf.
  { rewrite fmap_app in Hnd. by apply NoDup_app in Hnd as [? _]. }
  rewrite (merge_loop key m ms front _ Hndf Hpos Hknown).
  do 3 f_equal.
  - apply filter_ext_in. intros x _. by rewrite HD.
  - apply filter_ext_in. intros item Hin. split.
    + intros Hnone Hkey. apply list_elem_of_fmap in Hkey as (x & Hkx & Hx).
      apply list_elem_of_lookup in Hx as [j Hj].
      pose proof (Hpos j x Hj) as Hm. rewrite <- Hkx, Hnone in Hm. done.
    + intros Hfresh. destruct (m !! key item) as [j|] eqn:Hj; [|done].
      exfalso. destruct (Hknown item j Hin Hj) as (x & Hx & Hkx).
      apply Hfresh. rewrite <- Hkx. apply list_elem_of_fmap.
      exists x. split; [done|]. by eapply list_elem_of_lookup_2.
Qed.

(** With nothing deleted: replacement in place, then the new items. *)
Lemma merge_no_deletion (update : Update T) (l : list T) :
  default [] (deleted update) = [] → NoDup (key <$> l) →
  matchWithCurrentData key update (Some <$> l) =
    Some <$> ((replaced_by key (default [] (modified update)) <$> l)
              ++ filter (λ item, key item ∉ key <$> l) (default [] (modified update))).
Proof.
  intros Hds Hnd. rewrite <- (app_nil_r l) at 1.
  rewrite merge_shape.
  - by rewrite filter_nil.
  - by rewrite app_nil_r.
  - intros x _. rewrite Hds. apply not_elem_of_nil.
  - intros x Hx. by apply elem_of_nil in Hx.
Qed.

Lemma keys_of_dense (l : list T) : keys_of key (Some <$> l) = key <$> l.
Proof. unfold keys_of. by rewrite items_of_dense. Qed.

Lemma replaced_keys ms (l : list T) : key <$> (replaced_by key ms <$> l) = key <$> l.
Proof.
  rewrite <- list_fmap_compose. apply list_fmap_ext. intros i x _. simpl.
  apply replaced_by_key.
Qed.

Lemma filter_keys_NoDup (P : T → Prop) `{!∀ x, Decision (P x)} (ms : list T) :
  NoDup (key <$> ms) → NoDup (key <$> filter P ms).
Proof.
  intros Hnd. eapply sublist_NoDup; [exact Hnd|].
  apply fmap_sublist, sublist_filter.
Qed.

Lemma filter_none {A} (P : A → Prop) `{!∀ x, Decision (P x)} (l : list A) :
  (∀ x, x ∈ l → ¬ P x) → filter P l = [].
Proof.
  induction l as [|x l IH]; intros Hno; [done|].
  rewrite filter_cons, decide_False by (apply Hno; by left).
  apply IH. intros y Hy. apply Hno. by right.
Qed.

(** The keys of the merged list are without repetition when the stored
    positions are the true ones and the modified keys are distinct. *)
Lemma shape_keys_NoDup (ds : list string) (ms front back : list T) :
  NoDup (key <$> (front ++ back)) →
  (∀ x, x ∈ back → key x ∉ ds → key x ∉ key <$> ms) →
  NoDup (key <$> ms) →
  NoDup (key <$> ((replaced_by key ms <$> front)
                  ++ filter (λ x, key x ∉ ds) back
                  ++ filter (λ item, key item ∉ key <$> front) ms)).
Proof.
  intros Hnd Hback Hms. rewrite !fmap_app, replaced_keys.
  rewrite fmap_app in Hnd. apply NoDup_app in Hnd as (Hf & Hfb & Hb).
  apply NoDup_app. split; [done|]. split.
  - intros k Hk Hin. apply elem_of_app in Hin as [Hin|Hin].
    + apply (Hfb k Hk). apply list_elem_of_fmap in Hin as (x & -> & Hx).
      apply list_elem_of_filter in Hx as [_ Hx]. apply list_elem_of_fmap. eauto.
    + apply list_elem_of_fmap in Hin as (x & -> & Hx).
      apply list_elem_of_filter in Hx as [Hx _]. done.
  - apply NoDup_app. split; [by apply filter_keys_NoDup|]. split.
    + intros k Hk Hin.
      apply list_elem_of_fmap in Hk as (x & -> & Hx).
      apply list_elem_of_filter in Hx as [Hkept Hx].
      apply list_elem_of_fmap in Hin as (item & Hkey & Hitem).
      apply list_elem_of_filter in Hitem as [_ Hitem].
      apply (Hback x Hx Hkept). rewrite Hkey. apply list_elem_of_fmap. eauto.
    + by apply filter_keys_NoDup.
Qed.

(** X6: the merge keeps the item keys unique: for a snapshot with unique
    keys in which no deleted item precedes a modified one, and a delta
    whose modified items have distinct keys, no key occurs twice in the
    result, and the result has no hole. *)
Theorem merge_keeps_keys_unique (update : Update T) (front back : list T) :
  NoDup (key <$> (front ++ back)) →
  (∀ x, x ∈ front → key x ∉ default [] (deleted update)) →
  (∀ x, x ∈ back → key x ∉ default [] (deleted update) →
        key x ∉ key <$> default [] (modified update)) →
  NoDup (key <$> default [] (modified update)) →
  NoDup (keys_of key (matchWithCurrentData key update (Some <$> (front ++ back)))) ∧
  Forall is_Some (matchWithCurrentData key update (Some <$> (front ++ back))).
Proof.
  intros Hnd Hfront Hback Hms. rewrite merge_shape by done.
  rewrite keys_of_dense. split; [by apply shape_keys_NoDup|].
  apply Forall_fmap, Forall_forall. intros x _. by eexists.
Qed.

(** X7: with nothing deleted, merging the same delta a second time
    changes nothing (snapshot keys unique, modified keys distinct). *)
Theorem merge_same_delta_twice (update : Update T) (l : list T) :
  default [] (deleted update) = [] →
  NoDup (key <$> l) →
  NoDup (key <$> default [] (modified update)) →
  matchWithCurrentData key update (matchWithCurrentData key update (Some <$> l))
    = matchWithCurrentData key update (Some <$> l).
Proof.
  intros Hds Hnd Hms. set (ms := default [] (modified update)) in *.
  rewrite (merge_no_deletion update l Hds Hnd). fold ms.
  set (new := filter (λ item, key item ∉ key <$> l) ms).
  assert (NoDup (key <$> ((replaced_by key ms <$> l) ++ new))) as Hnd1.
  { pose proof (shape_keys_NoDup [] ms l []) as H.
    rewrite app_nil_r, filter_nil in H. apply H; [done | | done].
    intros x Hx. by apply elem_of_nil in Hx. }
  rewrite (merge_no_deletion update _ Hds Hnd1). fold ms. f_equal.
  rewrite (filter_none _ ms).
  2:{ intros item Hitem Hfresh. apply Hfresh.
      rewrite fmap_app, replaced_keys. apply elem_of_app.
      destruct (decide (key item ∈ key <$> l)) as [Hin|Hout]; [by left|].
      right. apply list_elem_of_fmap. exists item. split; [done|].
      by apply list_elem_of_filter. }
  rewrite app_nil_r, fmap_app. f_equal.
  - rewrite <- list_fmap_compose. apply list_fmap_ext. intros i x _. simpl.
    apply replaced_by_idem.
  - rewrite <- (list_fmap_id new) at 2. apply list_fmap_ext. intros i x Hx. simpl.
    apply replaced_by_own; [done|].
    apply list_elem_of_lookup_2 in Hx. by apply list_elem_of_filter in Hx as [_ ?].
Qed.

(** Two deltas that delete nothing and touch disjoint keys, one after
    the other. *)
Lemma merge_two_no_deletion (D1 D2 : Update T) (l : list T) :
  default [] (deleted D1) = [] → default [] (deleted D2) = [] →
  NoDup (key <$> l) →
  NoDup (key <$> default [] (modified D1)) →
  (∀ k, k ∈ key <$> default [] (modified D1) →
        k ∉ key <$> default [] (modified D2)) →
  matchWithCurrentData key D2 (matchWithCurrentData key D1 (Some <$> l)) =
    Some <$> ((replaced_by key (default [] (modified D2))
                 <$> (replaced_by key (default [] (modified D1)) <$> l))
              ++ filter (λ item, key item ∉ key <$> l) (default [] (modified D1))
              ++ filter (λ item, key item ∉ key <$> l) (default [] (modified D2))).
Proof.
  intros Hd1 Hd2 Hnd Hms1 Hdisj.
  set (ms1 := default [] (modified D1)) in *.
  set (ms2 := default [] (modified D2)) in *.
  rewrite (merge_no_deletion D1 l Hd1 Hnd). fold ms1.
  set (new1 := filter (λ item, key item ∉ key <$> l) ms1).
  assert (NoDup (key <$> ((replaced_by key ms1 <$> l) ++ new1))) as Hnd1.
  { pose proof (shape_keys_NoDup [] ms1 l []) as H.
    rewrite app_nil_r, filter_nil in H. apply H; [done | | done].
    intros x Hx. by apply elem_of_nil in Hx. }
  rewrite (merge_no_deletion D2 _ Hd2 Hnd1). fold ms2. f_equal.
  rewrite fmap_app, <- app_assoc. f_equal. f_equal.
  - rewrite <- (list_fmap_id new1) at 2. apply list_fmap_ext. intros i x Hx. simpl.
    apply replaced_by_id. apply Hdisj.
    apply list_elem_of_lookup_2 in Hx. apply list_elem_of_filter in Hx as [_ Hx].
    apply list_elem_of_fmap. eauto.
  - apply filter_ext_in. intros item Hitem.
    rewrite fmap_app, replaced_keys, elem_of_app.
    split; [intros H Hin; apply H; by left|].
    intros Hl [Hin|Hin]; [done|].
    apply list_elem_of_fmap in Hin as (x & Hkx & Hx).
    apply list_elem_of_filter in Hx as [_ Hx].
    apply (Hdisj (key x)); [apply list_elem_of_fmap; eauto|].
    rewrite <- Hkx. apply list_elem_of_fmap. eauto.
Qed.

(** X8: two deltas that delete nothing and modify disjoint keys can be
    merged in either order: the two results hold the same items
    (snapshot keys unique, modified keys distinct within each delta). *)
Theorem merge_disjoint_no_deletion_commute (D1 D2 : Update T) (l : list T) :
  default [] (deleted D1) = [] → default [] (deleted D2) = [] →
  NoDup (key <$> l) →
  NoDup (key <$> default [] (modified D1)) →
  NoDup (key <$> default [] (modified D2)) →
  (∀ k, k ∈ key <$> default [] (modified D1) →
        k ∉ key <$> default [] (modified D2)) →
  items_of (matchWithCurrentData key D2 (matchWithCurrentData key D1 (Some <$> l)))
    ≡ₚ items_of (matchWithCurrentData key D1 (matchWithCurrentData key D2 (Some <$> l))).
Proof.
  intros Hd1 Hd2 Hnd Hms1 Hms2 Hdisj.
  assert (∀ k, k ∈ key <$> default [] (modified D2) →
               k ∉ key <$> default [] (modified D1)) as Hdisj'
    by (intros k H2 H1; by apply (Hdisj k)).
  rewrite (merge_two_no_deletion D1 D2 l), (merge_two_no_deletion D2 D1 l) by done.
  rewrite !items_of_dense.
  set (ms1 := default [] (modified D1)) in *.
  set (ms2 := default [] (modified D2)) in *.
  assert (replaced_by key ms2 <$> (replaced_by key ms1 <$> l)
          = replaced_by key ms1 <$> (replaced_by key ms2 <$> l)) as ->.
  { rewrite <- !list_fmap_compose. apply list_fmap_ext. intros i x _. simpl.
    destruct (decide (key x ∈ key <$> ms1)) as [H1|H1].
    - rewrite (replaced_by_id ms2 x) by (by apply Hdisj).
      apply replaced_by_id. rewrite replaced_by_key. by apply Hdisj.
    - rewrite (replaced_by_id ms1 x) by done.
      symmetry. apply replaced_by_id. by rewrite replaced_by_key. }
  f_equiv. apply Permutation_app_comm.
Qed.

End DeltaMergerMore.

Section DeltaMergerMoreWitnesses.

Import DeltaMerger.

Lemma merge_without_modified_witness :
  matchWithCurrentData item_key (mkUpdate None (Some ["A"])) [Some A1; None; Some B1]
    = [Some B1].
Proof.
  destruct (merge_without_modified item_key (mkUpdate None (Some ["A"]))
              [Some A1; None; Some B1] eq_refl) as [H _].
  rewrite H. vm_compute. reflexivity.
Defined.

Lemma merge_keeps_keys_unique_witness :
  NoDup (keys_of item_key
           (matchWithCurrentData item_key (mkUpdate (Some [B2; C1]) (Some ["A"]))
              (Some <$> ([B1] ++ [A1])))).
Proof.
  refine (proj1 (merge_keeps_keys_unique item_key
                   (mkUpdate (Some [B2; C1]) (Some ["A"])) [B1] [A1] _ _ _ _)).
  - by apply (bool_decide_unpack _).
  - intros x Hx; simpl in Hx; apply list_elem_of_singleton in Hx as ->;
    by apply (bool_decide_unpack _).
  - intros x Hx; simpl in Hx; apply list_elem_of_singleton in Hx as ->;
    by apply (bool_decide_unpack _).
  - by apply (bool_decide_unpack _).
Defined.

Lemma merge_same_delta_twice_witness :
  matchWithCurrentData item_key (mkUpdate (Some [B2; C1]) None)
    (matchWithCurrentData item_key (mkUpdate (Some [B2; C1]) None) (Some <$> [A1; B1]))
  = matchWithCurrentData item_key (mkUpdate (Some [B2; C1]) None) (Some <$> [A1; B1]).
Proof.
  apply (merge_same_delta_twice item_key (mkUpdate (Some [B2; C1]) None) [A1; B1]).
  - reflexivity.
  - by apply (bool_decide_unpack _).
  - by apply (bool_decide_unpack _).
Defined.

Lemma merge_disjoint_no_deletion_commute_witness :
  items_of (matchWithCurrentData item_key (mkUpdate (Some [C1]) None)
              (matchWithCurrentData item_key (mkUpdate (Some [B2]) None)
                 (Some <$> [A1; B1])))
  ≡ₚ items_of (matchWithCurrentData item_key (mkUpdate (Some [B2]) None)
                 (matchWithCurrentData item_key (mkUpdate (Some [C1]) None)
                    (Some <$> [A1; B1]))).
Proof.
  apply (merge_disjoint_no_deletion_commute item_key
           (mkUpdate (Some [B2]) None) (mkUpdate (Some [C1]) None) [A1; B1]).
  - reflexivity.
  - reflexivity.
  - by apply (bool_decide_unpack _).
  - by apply (bool_decide_unpack _).
  - by apply (bool_decide_unpack _).
  - intros x Hx; simpl in Hx; apply list_elem_of_singleton in Hx as ->;
    by apply (bool_decide_unpack _).
Defined.

End DeltaMergerMoreWitnesses.

(** ** Tag Indexer: the whole index *)

Section TagIndexerWhole.

Import TagIndexer TagIndexerTrace.

Context {RoamPage ZoteroTag : Type}.
Variable toLowerCase : string → string.
Variable sources : string → list ZoteroTag.

Abbreviation Entry' := (ZTagEntry RoamPage ZoteroTag).
Abbreviation Loop' := (@LoopState RoamPage ZoteroTag).

Lemma sort_insert_perm {A} (cmp : A → A → Z) x (l : list A) :
  sort_insert cmp x l ≡ₚ x :: l.
Proof.
  induction l as [|y l IH]; [done|]. simpl. case_bool_decide; [done|].
  rewrite IH. apply perm_swap.
Qed.

Lemma js_sort_perm {A} (cmp : A → A → Z) (l : list A) : js_sort cmp l ≡ₚ l.
Proof.
  unfold js_sort. induction l as [|x l IH]; [done|]. simpl.
  by rewrite sort_insert_perm, IH.
Qed.

Lemma references_for_snoc tok processed elem :
  references_for toLowerCase sources tok (processed ++ [elem]) =
    references_for toLowerCase sources tok processed
      ++ (if decide (toLowerCase elem = tok) then sources elem else []).
Proof.
  unfold references_for. rewrite filter_app, fmap_app, concat_app. f_equal.
  rewrite filter_cons, filter_nil. case_decide; simpl; by rewrite ?app_nil_r.
Qed.

Lemma concat_zotero_insert (output : list Entry') i e extra :
  output !! i = Some e →
  concat (zotero <$> <[i := mkEntry (token e) (roam e) (zotero e ++ extra)]> output)
    ≡ₚ concat (zotero <$> output) ++ extra.
Proof.
  intros Hi. rewrite insert_take_drop by (by eapply lookup_lt_Some).
  rewrite <- (take_drop_middle output i e Hi) at 3.
  rewrite !fmap_app, !fmap_cons, !concat_app. cbn [concat zotero].
  rewrite <- !app_assoc. f_equiv. f_equiv. apply Permutation_app_comm.
Qed.

Lemma gathered_step processed (st : Loop') elem :
  indexed st → gathered toLowerCase sources processed st →
  ∃ st', tag_step toLowerCase sources st elem = Some st' ∧ indexed st' ∧
         gathered toLowerCase sources (processed ++ [elem]) st'.
Proof.
  intros Hinv (Htok & Hent & Hall).
  destruct (indexed_step toLowerCase sources st elem Hinv) as (st' & Hstep & Hinv').
  exists st'. split; [done|]. split; [done|].
  destruct (st.1 !! toLowerCase elem) as [i|] eqn:Hm.
  - destruct (proj1 (Hinv _ _) Hm) as (e & Ho & Hte).
    rewrite (tag_step_existing toLowerCase sources st elem i e Hm Ho) in Hstep.
    injection Hstep as <-. unfold gathered. cbn [snd]. split; [|split].
    + intros tok. rewrite (list_fmap_insert token). cbn [token].
      rewrite list_insert_id by (by rewrite list_lookup_fmap, Ho).
      rewrite Htok, fmap_app, elem_of_app. split; [by left|].
      intros [H|H]; [done|]. apply list_elem_of_singleton in H as ->.
      apply Htok. apply list_elem_of_fmap. exists e. split; [done|].
      by eapply list_elem_of_lookup_2.
    + apply Forall_lookup. intros j x Hx.
      rewrite Forall_lookup in Hent.
      destruct (decide (i = j)) as [<-|Hne].
      * rewrite list_lookup_insert_eq in Hx by (by eapply lookup_lt_Some).
        injection Hx as <-. cbn [roam zotero token].
        destruct (Hent i e Ho) as [Hr Hz]. split; [done|].
        rewrite references_for_snoc, decide_True by done. by rewrite Hz.
      * rewrite list_lookup_insert_ne in Hx by done.
        destruct (Hent j x Hx) as [Hr Hz]. split; [done|].
        rewrite references_for_snoc, decide_False, app_nil_r; [done|].
        intros Heq. apply Hne.
        assert (st.1 !! toLowerCase elem = Some j) as Hj by (apply Hinv; eauto).
        congruence.
    + rewrite (concat_zotero_insert _ _ _ _ Ho), Hall.
      rewrite fmap_app, concat_app. simpl. by rewrite app_nil_r.
  - assert (toLowerCase elem ∉ token <$> st.2) as Hfresh.
    { intros Hin. apply list_elem_of_fmap in Hin as (e & He & Hin).
      apply list_elem_of_lookup in Hin as [j Hj].
      assert (st.1 !! toLowerCase elem = Some j) as Hj' by (apply Hinv; eauto).
      congruence. }
    rewrite (tag_step_fresh toLowerCase sources st elem Hm) in Hstep.
    injection Hstep as <-. unfold gathered. cbn [snd]. split; [|split].
    + intros tok. rewrite !fmap_app, !elem_of_app, Htok. done.
    + apply Forall_app. split.
      * apply Forall_forall. intros e He. rewrite Forall_forall in Hent.
        destruct (Hent e He) as [Hr Hz]. split; [done|].
        rewrite references_for_snoc, decide_False, app_nil_r; [done|].
        intros Heq. apply Hfresh. rewrite Heq. apply list_elem_of_fmap. eauto.
      * repeat constructor. cbn [zotero token].
        rewrite references_for_snoc, decide_True by done.
        unfold references_for. rewrite filter_none; [done|].
        intros t Ht Heq. apply Hfresh, Htok. rewrite <- Heq.
        apply list_elem_of_fmap. eauto.
    + rewrite !fmap_app, !concat_app. simpl. rewrite !app_nil_r. by rewrite Hall.
Qed.

Lemma gathered_loop elems : ∀ processed (st : Loop'),
  indexed st → gathered toLowerCase sources processed st →
  ∃ st', tag_loop toLowerCase sources st elems = Some st' ∧ indexed st' ∧
         gathered toLowerCase sources (processed ++ elems) st'.
Proof.
  induction elems as [|elem rest IH]; intros processed st Hinv Hg.
  - exists st. rewrite app_nil_r. done.
  - destruct (gathered_step processed st elem Hinv Hg) as (st1 & Hs & Hinv1 & Hg1).
    destruct (IH _ st1 Hinv1 Hg1) as (st' & Hrun & Hinv' & Hg').
    exists st'. simpl. rewrite Hs. rewrite <- app_assoc in Hg'. done.
Qed.

Lemma gathered_initial : gathered toLowerCase sources [] ((∅, []) : Loop').
Proof. split; [done|]. split; [constructor | done]. Qed.

(** X9: [categorizeZoteroTags] never throws, whatever the tags, the
    locale's comparison and the folding of [toLowerCase]; the tokens of
    its entries are pairwise distinct and are exactly the lower-cased
    forms of the tags given, so tags that fold to the same token share
    one entry. *)
Theorem categorize_tokens (localeCompare : string → string → Z) (z_data : list string) :
  ∃ output : list Entry',
    categorizeZoteroTags toLowerCase localeCompare sources z_data = Some output ∧
    NoDup (token <$> output) ∧
    ∀ tok, tok ∈ token <$> output ↔ tok ∈ toLowerCase <$> z_data.
Proof.
  unfold categorizeZoteroTags.
  destruct (gathered_loop (js_sort (λ a b, localeCompare b a) z_data) [] (∅, [])
              (indexed_initial (RoamPage := RoamPage) (ZoteroTag := ZoteroTag))
              gathered_initial)
    as (st & -> & Hinv & Htok & _ & _).
  exists st.2. split; [done|]. split; [by apply indexed_tokens_NoDup|].
  intros tok. rewrite Htok. simpl. by rewrite js_sort_perm.
Qed.

(** X10: every entry has an empty [roam] list and holds exactly the
    source references of the tags that [toLowerCase] folds to its token,
    in the sorted order of the tags; taken together the entries hold the
    references of all the tags, none lost and none twice.  Nothing is
    assumed about [toLowerCase]. *)
Theorem categorize_references (localeCompare : string → string → Z)
    (z_data : list string) (output : list Entry') :
  categorizeZoteroTags toLowerCase localeCompare sources z_data = Some output →
  Forall (λ e, roam e = [] ∧
               zotero e = references_for toLowerCase sources (token e)
                            (js_sort (λ a b, localeCompare b a) z_data)) output ∧
  concat (zotero <$> output) ≡ₚ concat (sources <$> z_data).
Proof.
  unfold categorizeZoteroTags.
  destruct (gathered_loop (js_sort (λ a b, localeCompare b a) z_data) [] (∅, [])
              (indexed_initial (RoamPage := RoamPage) (ZoteroTag := ZoteroTag))
              gathered_initial)
    as (st & -> & Hinv & _ & Hent & Hall).
  simpl. intros [= <-]. split; [done|].
  rewrite Hall. by rewrite js_sort_perm.
Qed.

End TagIndexerWhole.

Section TagIndexerWholeWitness.

Import TagIndexer TagIndexerTrace.

Lemma categorize_references_witness :
  categorizeZoteroTags (RoamPage := unit) toLowerCaseASCII byteCompare ownSource ["AI"; "ai"; "ML"]
    = Some [mkEntry "ai" [] ["ai"; "AI"]; mkEntry "ml" [] ["ML"]] ∧
  concat (zotero <$> [mkEntry (RoamPage := unit) "ai" [] ["ai"; "AI"];
                      mkEntry "ml" [] ["ML"]])
    ≡ₚ concat (ownSource <$> ["AI"; "ai"; "ML"]).
Proof.
  assert (categorizeZoteroTags (RoamPage := unit) toLowerCaseASCII byteCompare ownSource
            ["AI"; "ai"; "ML"]
          = Some [mkEntry "ai" [] ["ai"; "AI"]; mkEntry "ml" [] ["ML"]]) as Hrun
    by (vm_compute; reflexivity).
  split; [exact Hrun|].
  exact (proj2 (categorize_references toLowerCaseASCII ownSource byteCompare _ _ Hrun)).
Defined.

End TagIndexerWholeWitness.

(** ** Paginator: which pages are requested *)

Section PaginatorRequests.

Import Paginator.

Context {X : Type}.
Variable server : nat → option (list X).
Variable pick : list (nat * nat) → nat.

Lemma batches_issue_prefix fuel : ∀ i nb results,
  issued_starts (batches server pick fuel i nb results).1
    `prefix_of` (λ j, 100 * (j + 1)) <$> seq i (nb - i).
Proof.
  induction fuel as [|fuel IH]; intros i nb results; [apply prefix_nil|].
  cbn [batches]. destruct (decide (i < nb)) as [Hlt|Hge]; [|apply prefix_nil].
  rewrite (starts_split i nb Hlt).
  destruct (promise_all server pick _ _ ∅) as [events r] eqn:Hp.
  destruct (promise_all_events server pick _ _ _ _ _ Hp) as (Hsettle & _ & _).
  destruct (r ≫= batch_results _) as [batchResults|].
  - specialize (IH (i + CONCURRENCY_LIMIT) nb (results ++ concat batchResults)).
    destruct (batches server pick fuel _ _ _) as [later outcome]. cbn [fst] in *.
    rewrite !issued_starts_app, issued_starts_issued.
    rewrite (issued_starts_settles _ Hsettle). simpl. by apply prefix_app.
  - cbn [fst]. rewrite !issued_starts_app, issued_starts_issued.
    rewrite (issued_starts_settles _ Hsettle), app_nil_r. by apply prefix_app_r.
Qed.

Lemma page_starts_NoDup nb : NoDup (page_starts nb).
Proof.
  unfold page_starts. apply NoDup_fmap_2; [|apply NoDup_seq].
  intros a b. lia.
Qed.

(** X11: whatever the answers and their order, the pages are requested
    in page order and each at most once: the requests made are an initial
    run of the list of pages (all of it when no page is rejected; after a
    rejection no later batch is requested).  With no extra page there is
    no traffic at all and the empty list is returned. *)
Theorem fetch_requests_in_page_order (nbExtraCalls : nat) :
  issued_starts (fetchAdditionalData server pick nbExtraCalls).1
    `prefix_of` page_starts nbExtraCalls ∧
  NoDup (issued_starts (fetchAdditionalData server pick nbExtraCalls).1) ∧
  fetchAdditionalData server pick 0 = ([], Returned []).
Proof.
  assert (issued_starts (fetchAdditionalData server pick nbExtraCalls).1
            `prefix_of` page_starts nbExtraCalls) as Hpre.
  { unfold fetchAdditionalData, page_starts.
    rewrite <- (Nat.sub_0_r nbExtraCalls) at 3. apply batches_issue_prefix. }
  split; [done|]. split; [|done].
  destruct Hpre as [rest Hrest].
  pose proof (page_starts_NoDup nbExtraCalls) as Hnd. rewrite Hrest in Hnd.
  by apply NoDup_app in Hnd as [? _].
Qed.

End PaginatorRequests.

(** ** The seeding script: batches of 50 *)

Section PopulateFacts.

Import Slices Populate.

Context {Item : Type}.
Variable post : list Item → option WriteReport.
Variable arrayProperty : string → bool.
Variable testItems : list Item.

Lemma slice_then_rest {A} (l : list A) i size :
  slice l i (i + size) ++ drop (i + size) l = drop i l.
Proof.
  unfold slice. replace (i + size - i) with size by lia.
  rewrite <- drop_drop. apply take_drop.
Qed.

Lemma slice_length {A} (l : list A) i size :
  i < length l → 0 < size →
  0 < length (slice l i (i + size)) ≤ size.
Proof.
  intros Hi Hs. unfold slice. rewrite length_take, length_drop. lia.
Qed.

Lemma posted_spaced (bs : list (list Item)) : posted (spaced bs) = bs.
Proof.
  destruct bs as [|b bs]; [done|]. simpl. f_equal.
  induction bs as [|b' bs IH]; [done|]. simpl. by f_equal.
Qed.

(** The loop from [i] on: the batches are the slices of what is left,
    spaced by the wait, and the counters grow by what each batch adds. *)
Lemma addItems_loop_spec fuel : ∀ i sc fc,
  (length testItems - i) + batchSize ≤ batchSize * fuel →
  ∃ bs,
    addItems_loop post arrayProperty testItems fuel i sc fc =
      (spaced bs,
       Some (sc + sum_list (counted_success post <$> bs),
             fc + sum_list (counted_failed post arrayProperty <$> bs))) ∧
    concat bs = drop i testItems ∧
    Forall (λ b, 0 < length b ≤ batchSize) bs ∧
    (bs = [] ↔ length testItems ≤ i).
Proof.
  unfold batchSize.
  induction fuel as [|fuel IH]; intros i sc fc Hfuel; [lia|].
  cbn [addItems_loop]. destruct (decide (i < length testItems)) as [Hlt|Hge].
  2:{ exists []. simpl. rewrite !Nat.add_0_r. split; [done|].
      split; [by rewrite drop_ge by lia|]. split; [constructor|]. split; [lia|done]. }
  set (batch := slice testItems i (i + batchSize)).
  pose proof (slice_length testItems i batchSize Hlt ltac:(unfold batchSize; lia))
    as Hlen.
  set (sc' := sc + counted_success post batch).
  set (fc' := fc + counted_failed post arrayProperty batch).
  assert (match post batch with
          | Some report =>
              if titles_shown arrayProperty batch report
              then (sc + keys_length (success report),
                    fc + keys_length (failed report))
              else (sc + keys_length (success report),
                    fc + keys_length (failed report) + length batch)
          | None => (sc, fc + length batch)
          end = (sc', fc')) as ->.
  { subst sc' fc'. unfold counted_success, counted_failed.
    destruct (post batch) as [report|]; [|by rewrite Nat.add_0_r].
    destruct (titles_shown arrayProperty batch report); [done|].
    by rewrite Nat.add_assoc. }
  destruct (IH (i + batchSize) sc' fc') as (bs & -> & Hcat & Hall & Hnil).
  { unfold batchSize. lia. }
  exists (batch :: bs). split; [|split; [|split]].
  - subst sc' fc'. simpl. rewrite !Nat.add_assoc. f_equal.
    destruct (decide (i + batchSize < length testItems)) as [Hmore|Hlast].
    + destruct bs as [|b' bs]; [|done].
      exfalso. pose proof (proj1 Hnil eq_refl). lia.
    + assert (bs = []) as -> by (apply Hnil; lia). done.
  - simpl. rewrite Hcat. apply slice_then_rest.
  - constructor; [exact Hlen | exact Hall].
  - split; [done | lia].
Qed.

Lemma addItems_spec :
  ∃ bs,
    addItemsToZotero post arrayProperty testItems =
      (spaced bs,
       Some (sum_list (counted_success post <$> bs),
             sum_list (counted_failed post arrayProperty <$> bs))) ∧
    concat bs = testItems ∧
    Forall (λ b, 0 < length b ≤ batchSize) bs.
Proof.
  destruct (addItems_loop_spec (S (length testItems)) 0 0 0)
    as (bs & Hrun & Hcat & Hall & _); [unfold batchSize; lia|].
  exists bs. done.
Qed.

(** X12: the script ends with its two counts, and the batches it posts
    are consecutive pieces of the item list: put end to end they give
    the list back, so every item is posted exactly once and in order,
    and no batch is empty or larger than 50. *)
Theorem addItems_posts_every_item_once :
  is_Some (addItemsToZotero post arrayProperty testItems).2 ∧
  concat (posted (addItemsToZotero post arrayProperty testItems).1) = testItems ∧
  Forall (λ b, 0 < length b ≤ 50) (posted (addItemsToZotero post arrayProperty testItems).1).
Proof.
  destruct addItems_spec as (bs & -> & Hcat & Hall).
  cbn [fst snd]. rewrite posted_spaced. split; [by eexists | done].
Qed.

(** X13: the script waits 1000 ms between two consecutive posts and at
    no other time: not before the first post and not after the last. *)
Theorem addItems_waits_between_posts :
  (addItemsToZotero post arrayProperty testItems).1 =
    spaced (posted (addItemsToZotero post arrayProperty testItems).1).
Proof.
  destruct addItems_spec as (bs & -> & _ & _).
  cbn [fst]. by rewrite posted_spaced.
Qed.

Lemma addItems_loop_done fuel i sc fc :
  0 < fuel → length testItems ≤ i →
  addItems_loop post arrayProperty testItems fuel i sc fc = ([], Some (sc, fc)).
Proof.
  intros Hfuel Hi. destruct fuel as [|fuel]; [lia|].
  cbn [addItems_loop]. by rewrite decide_False by lia.
Qed.

Lemma titles_shown_indices (batch : list Item) (report : WriteReport) :
  (∀ idx, is_Some (default ∅ (success report) !! idx) →
          ∃ i, i < length batch ∧ idx = pretty i) →
  titles_shown arrayProperty batch report = true.
Proof.
  intros Hkeys. unfold titles_shown. apply forallb_forall.
  intros [idx v] Hin. apply list_elem_of_In, elem_of_map_to_list in Hin.
  destruct (Hkeys idx) as (i & Hi & ->); [by eexists|].
  unfold has_item. cbn [fst]. apply orb_true_intro. left.
  apply existsb_exists. exists i. split.
  - apply list_elem_of_In, elem_of_seq. lia.
  - by apply bool_decide_eq_true.
Qed.

Lemma titles_shown_stray (batch : list Item) (report : WriteReport) idx :
  is_Some (default ∅ (success report) !! idx) →
  (∀ i, i < length batch → idx ≠ pretty i) →
  arrayProperty idx = false →
  titles_shown arrayProperty batch report = false.
Proof.
  intros [v Hv] Hno Hprop. unfold titles_shown.
  destruct (forallb _ _) eqn:Hall; [|done]. exfalso.
  rewrite forallb_forall in Hall.
  specialize (Hall (idx, v)). cbn [fst] in Hall.
  assert (has_item arrayProperty batch idx = true) as Hhas.
  { apply Hall. by apply list_elem_of_In, elem_of_map_to_list. }
  unfold has_item in Hhas. rewrite Hprop, orb_false_r in Hhas.
  apply existsb_exists in Hhas as (i & Hi & Heq).
  apply list_elem_of_In, elem_of_seq in Hi. apply bool_decide_eq_true in Heq.
  apply (Hno i); [lia | done].
Qed.

(** X14: when every report keys its successes by indices of the batch
    and lists each item of the batch either under [success] or under
    [failed], the two counts of the summary add up to the number of
    items, whether or not some posts were rejected.  A report with a
    success key that names neither an item of the batch nor a property
    of the array makes the loop over the titles throw, and the whole
    batch is counted as failed on top of what the report gave: for a
    single batch the summary is then the report's successes, and the
    report's failures plus the number of items. *)
Theorem addItems_counts_add_up :
  ((∀ batch report, post batch = Some report →
      (∀ idx, is_Some (default ∅ (success report) !! idx) →
              ∃ i, i < length batch ∧ idx = pretty i) ∧
      keys_length (success report) + keys_length (failed report) = length batch) →
   ∃ successCount failCount,
     (addItemsToZotero post arrayProperty testItems).2 = Some (successCount, failCount) ∧
     successCount + failCount = length testItems)
  ∧ (∀ report idx,
       0 < length testItems ≤ 50 →
       post testItems = Some report →
       is_Some (default ∅ (success report) !! idx) →
       (∀ i, i < length testItems → idx ≠ pretty i) →
       arrayProperty idx = false →
       (addItemsToZotero post arrayProperty testItems).2 =
         Some (keys_length (success report),
               keys_length (failed report) + length testItems)).
Proof.
  split.
  - intros Hacc. destruct addItems_spec as (bs & -> & Hcat & _).
    eexists _, _. split; [done|]. rewrite <- Hcat. clear Hcat.
    induction bs as [|b bs IH]; [done|]. simpl. rewrite length_app.
    assert (counted_success post b + counted_failed post arrayProperty b = length b) as Hb.
    { unfold counted_success, counted_failed.
      destruct (post b) as [report|] eqn:Hp; [|done].
      destruct (Hacc b report Hp) as [Hkeys Hsum].
      by rewrite titles_shown_indices. }
    unfold fmap in IH. lia.
  - intros report idx Hlen Hpost Hkey Hno Hprop.
    unfold addItemsToZotero. cbn [addItems_loop].
    rewrite decide_True by lia.
    assert (slice testItems 0 (0 + batchSize) = testItems) as ->.
    { unfold slice, batchSize. cbn [drop]. apply take_ge. lia. }
    rewrite Hpost, (titles_shown_stray testItems report idx Hkey) by done.
    rewrite decide_False by (unfold batchSize; lia).
    rewrite addItems_loop_done by (unfold batchSize; lia). done.
Qed.

(** X15: a post that is rejected counts its whole batch as failed: when
    every post is rejected the summary shows no success and as many
    failures as there are items. *)
Theorem addItems_all_rejected :
  (∀ batch, post batch = None) →
  (addItemsToZotero post arrayProperty testItems).2 = Some (0, length testItems).
Proof.
  intros Hrej. destruct addItems_spec as (bs & -> & Hcat & _).
  cbn [snd]. rewrite <- Hcat. clear Hcat. do 2 f_equal.
  - induction bs as [|b bs IH]; [done|]. rewrite fmap_cons. cbn [sum_list foldr].
    unfold counted_success at 1. by rewrite Hrej.
  - induction bs as [|b bs IH]; [done|]. rewrite fmap_cons.
    cbn [sum_list foldr concat]. rewrite length_app.
    unfold counted_failed at 1. rewrite Hrej. by f_equal.
Qed.

End PopulateFacts.

Section PopulateWitnesses.

Import Slices Populate.

Lemma acceptAll_accounts batch report :
  acceptAll batch = Some report →
  (∀ idx, is_Some (default ∅ (success report) !! idx) →
          ∃ i, i < length batch ∧ idx = pretty i) ∧
  keys_length (success report) + keys_length (failed report) = length batch.
Proof.
  intros [= <-]. split.
  - intros idx [v Hv]. cbn [success default] in Hv.
    apply elem_of_list_to_map_2, list_elem_of_fmap in Hv as (i & [= -> _] & Hi).
    apply elem_of_seq in Hi. exists i. split; [lia | done].
  - unfold keys_length. cbn [success failed default].
    unfold id. rewrite map_size_empty, Nat.add_0_r.
    rewrite map_size_list_to_map.
    + by rewrite length_fmap, length_seq.
    + rewrite <- list_fmap_compose. apply NoDup_fmap_2; [|apply NoDup_seq].
      intros a b. simpl. apply pretty_nat_inj.
Qed.

Lemma addItems_counts_add_up_witness :
  (∃ successCount failCount,
     (addItemsToZotero acceptAll itemsOnly (seq 0 120)).2 = Some (successCount, failCount) ∧
     successCount + failCount = length (seq 0 120))
  ∧ (addItemsToZotero misreport itemsOnly [7]).2 = Some (1, 1).
Proof.
  split.
  - exact (proj1 (addItems_counts_add_up acceptAll itemsOnly (seq 0 120))
             acceptAll_accounts).
  - rewrite (proj2 (addItems_counts_add_up misreport itemsOnly [7])
               (mkReport (Some {[ "5" := "KEY" ]}) None None) "5").
    + vm_compute. reflexivity.
    + simpl. lia.
    + reflexivity.
    + by eexists.
    + intros i Hi. simpl in Hi. assert (i = 0) as -> by lia. done.
    + reflexivity.
Defined.

Lemma addItems_all_rejected_witness :
  (addItemsToZotero rejectAll itemsOnly (seq 0 120)).2 = Some (0, length (seq 0 120)).
Proof.
  exact (addItems_all_rejected rejectAll itemsOnly (seq 0 120) (λ _, eq_refl)).
Defined.

Example addItems_trace_120 :
  (addItemsToZotero rejectAll itemsOnly (seq 0 120)).1 =
    [Posted (seq 0 50); Waited 1000; Posted (seq 50 50); Waited 1000;
     Posted (seq 100 20)].
Proof. vm_compute. reflexivity. Qed.

End PopulateWitnesses.

(** ** The plan's [cleanLibraryData]: chunks of 100 *)

Section CleanLibraryFacts.

Import Slices CleanLibrary.

Context {A B : Type}.
Variable cleanLibraryItem : A → B.
Variable percent : nat → nat → Z.

Lemma yields_app tr1 tr2 : yields (tr1 ++ tr2) = yields tr1 + yields tr2.
Proof. unfold yields. by rewrite filter_app, length_app. Qed.

Lemma clean_loop_spec (items : list A) (onProgress : bool) fuel : ∀ i results,
  (length items - i) + CHUNK_SIZE ≤ CHUNK_SIZE * fuel →
  ∃ trace,
    clean_loop cleanLibraryItem percent fuel i items onProgress results =
      (trace, Some (results ++ (cleanLibraryItem <$> drop i items))) ∧
    length items - i ≤ CHUNK_SIZE * yields trace < (length items - i) + CHUNK_SIZE ∧
    progress trace =
      if onProgress
      then (λ k, percent (i + CHUNK_SIZE * k) (length items)) <$> seq 0 (yields trace)
      else [].
Proof.
  unfold CHUNK_SIZE.
  induction fuel as [|fuel IH]; intros i results Hfuel; [lia|].
  cbn [clean_loop]. destruct (decide (i < length items)) as [Hlt|Hge].
  2:{ exists []. rewrite drop_ge by lia. rewrite fmap_nil, app_nil_r.
      split; [done|]. split; [simpl; lia|]. by destruct onProgress. }
  destruct (IH (i + CHUNK_SIZE)
              (results ++ (cleanLibraryItem <$> slice items i (i + CHUNK_SIZE))))
    as (later & -> & Hy & Hp); [unfold CHUNK_SIZE; lia|].
  eexists. split; [|split].
  - f_equal. f_equal. rewrite <- app_assoc, <- fmap_app.
    by rewrite slice_then_rest.
  - rewrite yields_app.
    assert (yields (if onProgress then [Progress (percent i (length items))] else [])
            = 0) as -> by (by destruct onProgress).
    change (yields (Yielded :: later)) with (S (yields later)).
    unfold CHUNK_SIZE in *. lia.
  - unfold progress in *. rewrite omap_app. cbn [omap list_omap].
    fold (omap (λ e, match e with Progress p => Some p | Yielded => None end) later).
    rewrite Hp, yields_app.
    destruct onProgress; [|done]. simpl.
    change (yields (Yielded :: later)) with (S (yields later)).
    rewrite Nat.add_0_r. f_equal. rewrite <- fmap_S_seq, <- list_fmap_compose.
    apply list_fmap_ext. intros j k _. simpl. f_equal. unfold CHUNK_SIZE. lia.
Qed.

(** X16: processing in chunks changes nothing in the result: the list
    returned is [cleanLibraryItem] applied to every item, in order.  The
    main thread is yielded to once per chunk of 100 (the number of yields
    is the number of items divided by 100, rounded up), and the progress
    callback, when given, is called once per chunk with the percentage of
    the chunk's first index, so never for the completed list. *)
Theorem cleanLibraryData_maps_in_order (items : list A) (onProgress : bool) :
  let run := cleanLibraryData cleanLibraryItem percent items onProgress in
  run.2 = Some (cleanLibraryItem <$> items) ∧
  length items ≤ 100 * yields run.1 < length items + 100 ∧
  progress run.1 =
    if onProgress
    then (λ k, percent (100 * k) (length items)) <$> seq 0 (yields run.1)
    else [].
Proof.
  intros run. subst run. unfold cleanLibraryData.
  destruct (clean_loop_spec items onProgress (S (length items)) 0 [])
    as (trace & -> & Hy & Hp); [unfold CHUNK_SIZE; lia|].
  cbn [fst snd]. rewrite drop_0, Nat.sub_0_r in *.
  split; [done|]. split; [exact Hy|]. exact Hp.
Qed.

End CleanLibraryFacts.

(** ** The children index *)

Section ChildrenIndexFacts.

Import ChildrenIndex.

Lemma add_pdf_lookup (m : gmap string (list ZItemAttachment)) pdf k :
  default [] (add_pdf m pdf !! k) =
    default [] (m !! k) ++ (if decide (parent_key pdf = k) then [pdf] else []).
Proof.
  unfold add_pdf. destruct (decide (parent_key pdf = k)) as [<-|Hne].
  - rewrite lookup_alter_eq.
    destruct (decide (is_Some (m !! parent_key pdf))) as [[l Hl]|Hnone].
    + by rewrite Hl.
    + rewrite lookup_insert_eq. simpl.
      destruct (m !! parent_key pdf) eqn:E; [|done]. exfalso. apply Hnone. eauto.
  - rewrite lookup_alter_ne by done. rewrite app_nil_r.
    destruct (decide (is_Some (m !! parent_key pdf))); [done|].
    by rewrite lookup_insert_ne.
Qed.

Lemma add_pdf_nonempty (m : gmap string (list ZItemAttachment)) pdf :
  (∀ k l, m !! k = Some l → l ≠ []) →
  ∀ k l, add_pdf m pdf !! k = Some l → l ≠ [].
Proof.
  intros Hm k l. unfold add_pdf.
  destruct (decide (parent_key pdf = k)) as [<-|Hne].
  - rewrite lookup_alter_eq.
    destruct (decide (is_Some (m !! parent_key pdf))) as [[l' Hl]|Hnone].
    + rewrite Hl. simpl. intros [= <-]. by destruct l'.
    + rewrite lookup_insert_eq. simpl. by intros [= <-].
  - rewrite lookup_alter_ne by done.
    destruct (decide (is_Some (m !! parent_key pdf))); [apply Hm|].
    rewrite lookup_insert_ne by done. apply Hm.
Qed.

Lemma build_lookup pdfs : ∀ (m : gmap string (list ZItemAttachment)) k,
  default [] (fold_left add_pdf pdfs m !! k) =
    default [] (m !! k) ++ filter (λ pdf, parent_key pdf = k) pdfs.
Proof.
  induction pdfs as [|pdf pdfs IH]; intros m k; simpl.
  - by rewrite app_nil_r.
  - rewrite IH, add_pdf_lookup, filter_cons, <- app_assoc.
    by destruct (decide (parent_key pdf = k)).
Qed.

Lemma build_nonempty pdfs : ∀ (m : gmap string (list ZItemAttachment)),
  (∀ k l, m !! k = Some l → l ≠ []) →
  ∀ k l, fold_left add_pdf pdfs m !! k = Some l → l ≠ [].
Proof.
  induction pdfs as [|pdf pdfs IH]; intros m Hm; simpl; [done|].
  apply IH. by apply add_pdf_nonempty.
Qed.

(** X17: looking an item up in the index built once gives exactly what
    filtering the whole list gives: the attachments whose parent key is
    the item's, in their order in the list, and the empty list for an
    item without attachments; the index holds no key without
    attachments. *)
Theorem identifyChildren_is_filter (pdfs : list ZItemAttachment) (itemKey location : string) :
  identifyChildren itemKey location (buildChildrenIndex pdfs) =
    filter (λ pdf, parent_key pdf = itemKey +:+ ":" +:+ location) pdfs ∧
  ∀ k, buildChildrenIndex pdfs !! k = None ↔
       filter (λ pdf, parent_key pdf = k) pdfs = [].
Proof.
  unfold identifyChildren, buildChildrenIndex. split.
  - by rewrite build_lookup, lookup_empty.
  - intros k. pose proof (build_lookup pdfs ∅ k) as Hk.
    rewrite lookup_empty in Hk. simpl in Hk.
    destruct (fold_left add_pdf pdfs ∅ !! k) as [l|] eqn:El; simpl in Hk.
    + split; [done|]. intros Hnil. rewrite Hnil in Hk. subst l.
      exfalso. eapply (build_nonempty pdfs ∅); [|exact El|done].
      intros k' l'. by rewrite lookup_empty.
    + split; [done|]. done.
Qed.

Example children_of_ABCD :
  identifyChildren "ABCD" "users/1" (buildChildrenIndex [pdf1; pdf2; pdf3; pdf4])
    = [pdf1; pdf3] ∧
  identifyChildren "undefined" "users/1" (buildChildrenIndex [pdf1; pdf2; pdf3; pdf4])
    = [pdf4] ∧
  identifyChildren "NONE" "users/1" (buildChildrenIndex [pdf1; pdf2; pdf3; pdf4]) = [].
Proof. vm_compute. done. Qed.

End ChildrenIndexFacts.

(** ** Strings as code units *)

Section Utf16Facts.

Import Utf16.

Lemma split_on_nonempty sep s : split_on sep s ≠ [].
Proof.
  destruct s as [|u s]; [done|]. simpl.
  destruct (decide (u = sep)); [done|]. by destruct (split_on sep s).
Qed.

Lemma split_on_app_sep sep a b :
  split_on sep (a ++ sep :: b) = split_on sep a ++ split_on sep b.
Proof.
  induction a as [|u a IH]; simpl.
  - by rewrite decide_True.
  - destruct (decide (u = sep)); [by rewrite IH|].
    rewrite IH. pose proof (split_on_nonempty sep a).
    by destruct (split_on sep a).
Qed.

Lemma split_on_no_sep sep k : sep ∉ k → split_on sep k = [k].
Proof.
  induction k as [|u k IH]; [done|]. simpl. intros H.
  apply not_elem_of_cons in H as [Hu Hk].
  rewrite decide_False by done. by rewrite IH.
Qed.

Lemma join_split sep s : join [sep] (split_on sep s) = s.
Proof.
  induction s as [|u s IH]; [done|]. cbn [split_on].
  pose proof (split_on_nonempty sep s) as Hne.
  destruct (decide (u = sep)) as [->|Hu].
  - destruct (split_on sep s) as [|p r] eqn:E; [done|].
    rewrite <- IH. reflexivity.
  - destruct (split_on sep s) as [|p r] eqn:E; [done|].
    rewrite <- IH. by destruct r.
Qed.

Lemma strip_prefix_app p : ∀ s, strip_prefix p (p ++ s) = Some s.
Proof. induction p as [|a p IH]; intros s; [done|]. simpl. by rewrite decide_True. Qed.

Lemma strip_prefix_Some p : ∀ s rest, strip_prefix p s = Some rest → s = p ++ rest.
Proof.
  induction p as [|a p IH]; intros s rest; simpl.
  - by intros [= ->].
  - destruct s as [|b s]; [done|].
    destruct (decide (a = b)) as [->|Hne]; [|done].
    intros H. by rewrite (IH _ _ H).
Qed.

Lemma startsWith_hash s :
  startsWith s (lit "#") = true ↔ ∃ rest, s = hash :: rest.
Proof.
  unfold startsWith. split.
  - destruct (strip_prefix (lit "#") s) as [rest|] eqn:H; [|done].
    intros _. exists rest. by apply strip_prefix_Some in H.
  - intros [rest ->]. done.
Qed.

Lemma trimEnd_idem s : trimEnd (trimEnd s) = trimEnd s.
Proof.
  induction s as [|u s IH]; [done|]. cbn [trimEnd].
  destruct (trimEnd s) as [|v r] eqn:E.
  - destruct (is_space u) eqn:Hu; [done|]. cbn [trimEnd]. by rewrite Hu.
  - cbn [trimEnd] in *. rewrite IH. done.
Qed.

Lemma trimEnd_head u s :
  is_space u = false → ∃ r, trimEnd (u :: s) = u :: r.
Proof.
  intros Hu. cbn [trimEnd]. destruct (trimEnd s); [|by eexists].
  rewrite Hu. by eexists.
Qed.

Lemma trimStart_head s :
  trimStart s = [] ∨ ∃ u r, trimStart s = u :: r ∧ is_space u = false.
Proof.
  induction s as [|u s IH]; [by left|]. simpl.
  destruct (is_space u) eqn:Hu; [done|]. right. eauto.
Qed.

(** [trim] leaves a trimmed string as it is. *)
Lemma trim_idem s : trim (trim s) = trim s.
Proof.
  unfold trim. destruct (trimStart_head s) as [-> | (u & r & -> & Hu)]; [done|].
  destruct (trimEnd_head u r Hu) as [r' Hr']. rewrite Hr'.
  cbn [trimStart]. rewrite Hu, <- Hr'. apply trimEnd_idem.
Qed.

(** Where [trimStart] cuts: white space before, none at the cut. *)
Lemma trimStart_split s :
  ∃ ws, s = ws ++ trimStart s ∧ Forall (λ u, is_space u = true) ws.
Proof.
  induction s as [|u s (ws & Hs & Hws)]; [by exists []|]. simpl.
  destruct (is_space u) eqn:Hu.
  - exists (u :: ws). split; [by rewrite <- app_comm_cons, <- Hs | by constructor].
  - by exists [].
Qed.

Lemma trimStart_spaces ws :
  Forall (λ u, is_space u = true) ws → trimStart ws = [].
Proof. induction 1 as [|u ws Hu _ IH]; [done|]. simpl. by rewrite Hu. Qed.

Lemma trimStart_app_spaces ws s :
  Forall (λ u, is_space u = true) ws → trimStart (ws ++ s) = trimStart s.
Proof. induction 1 as [|u ws Hu _ IH]; [done|]. simpl. by rewrite Hu. Qed.

End Utf16Facts.

(** ** [loadEnv] *)

Section EnvFacts.

Import Utf16 Env.

Lemma parse_line_no_proto env line :
  env !! lit "__proto__" = None → parse_line env line !! lit "__proto__" = None.
Proof.
  intros Henv. unfold parse_line.
  destruct (negb _ && negb _); [|done].
  destruct (split_on equals (trim line)) as [|key valueParts]; [done|].
  unfold assign. destruct (decide (trim key = lit "__proto__")) as [|Hne]; [done|].
  by rewrite lookup_insert_ne.
Qed.

Lemma lines_no_proto lines : ∀ env,
  env !! lit "__proto__" = None →
  fold_left parse_line lines env !! lit "__proto__" = None.
Proof.
  induction lines as [|line lines IH]; intros env Henv; [done|].
  simpl. by apply IH, parse_line_no_proto.
Qed.

(** X18: a line [KEY=VALUE] that is not a comment sets KEY to VALUE, both
    trimmed of white space (the byte order mark and the no-break space
    included), and VALUE keeps every '=' it contains: only the first '='
    of the line separates.  A line with no '=' sets its text as a key
    with the empty value.  The one key that is never set is [__proto__]:
    such a line leaves the environment as it was. *)
Theorem parse_line_key_value (env : gmap JsStr JsStr) (line : JsStr) :
  (∀ rest, trim line ≠ hash :: rest) →
  (∀ k v, trim line = k ++ equals :: v → equals ∉ k →
          (trim k ≠ lit "__proto__" → parse_line env line = <[trim k := trim v]> env) ∧
          (trim k = lit "__proto__" → parse_line env line = env)) ∧
  (trim line ≠ [] → equals ∉ trim line →
   (trim line ≠ lit "__proto__" → parse_line env line = <[trim line := []]> env) ∧
   (trim line = lit "__proto__" → parse_line env line = env)).
Proof.
  intros Hnc.
  assert (startsWith (trim line) (lit "#") = false) as Hsw.
  { destruct (startsWith (trim line) (lit "#")) eqn:E; [|done].
    apply startsWith_hash in E as [rest E]. by destruct (Hnc rest). }
  unfold parse_line. rewrite Hsw. split.
  - intros k v Hline Hk. rewrite Hline.
    rewrite bool_decide_eq_false_2 by (by destruct k). cbn [negb andb].
    rewrite split_on_app_sep, (split_on_no_sep _ k Hk). cbn [app].
    change (lit "=") with [equals]. rewrite (join_split equals v).
    unfold assign. split; intros H.
    + by rewrite decide_False.
    + by rewrite decide_True.
  - intros Hne Hk. rewrite bool_decide_eq_false_2 by done. cbn [negb andb].
    rewrite (split_on_no_sep _ _ Hk). cbn [join]. rewrite trim_idem.
    change (trim []) with (@nil N).
    unfold assign. split; intros H.
    + by rewrite decide_False.
    + by rewrite decide_True.
Qed.

Lemma loadEnv_lines (file line : JsStr) :
  loadEnv (file ++ newline :: line) =
    fold_left parse_line (split_on newline line) (loadEnv file).
Proof. unfold loadEnv. by rewrite split_on_app_sep, fold_left_app. Qed.

(** X19: the lines of the file are taken in order, each acting on what
    the lines before it gave, so a later line for a key replaces an
    earlier one and leaves the other keys alone; blank lines and lines
    whose first character after the white space is '#' change nothing;
    the empty file gives the empty environment; and whatever the file
    holds, the environment has no key [__proto__]. *)
Theorem loadEnv_line_by_line (file line : JsStr) :
  newline ∉ line →
  loadEnv (file ++ newline :: line) = parse_line (loadEnv file) line ∧
  (trim line = [] ∨ (∃ rest, trim line = hash :: rest) →
   loadEnv (file ++ newline :: line) = loadEnv file) ∧
  (∀ k v, trim line = k ++ equals :: v → equals ∉ k →
          (∀ rest, k ≠ hash :: rest) → trim k ≠ lit "__proto__" →
          loadEnv (file ++ newline :: line) = <[trim k := trim v]> (loadEnv file)) ∧
  loadEnv [] = ∅ ∧
  loadEnv (file ++ newline :: line) !! lit "__proto__" = None.
Proof.
  intros Hnl.
  assert (loadEnv (file ++ newline :: line) = parse_line (loadEnv file) line)
    as Hstep by (by rewrite loadEnv_lines, (split_on_no_sep _ _ Hnl)).
  split; [done|]. split; [|split; [|split; [done|]]].
  - rewrite Hstep. unfold parse_line. intros [-> | Hhash]; [done|].
    apply startsWith_hash in Hhash. by rewrite Hhash, andb_false_r.
  - intros k v Hline Hk Hkc Hproto. rewrite Hstep.
    assert (∀ rest, trim line ≠ hash :: rest) as Hnc.
    { intros rest E. rewrite Hline in E. destruct k as [|u k].
      - injection E as E _. discriminate E.
      - injection E as -> _. by destruct (Hkc k). }
    by apply (parse_line_key_value (loadEnv file) line Hnc).
  - unfold loadEnv. by apply lines_no_proto.
Qed.

Example loadEnv_sample :
  loadEnv sampleEnv =
    <[lit "ZOTORO_API_KEY" := lit "abc=def=="]> {[ lit "ZOTORO_USER" := lit "123" ]} ∧
  credentials (loadEnv sampleEnv) = Some (lit "123", lit "abc=def==").
Proof.
  assert (loadEnv sampleEnv =
            <[lit "ZOTORO_API_KEY" := lit "abc=def=="]> {[ lit "ZOTORO_USER" := lit "123" ]})
    as H by (vm_compute; reflexivity).
  split; [done|]. rewrite H. unfold credentials.
  rewrite lookup_insert_ne by done.
  by rewrite lookup_singleton_eq, lookup_insert_eq.
Qed.

Lemma parse_line_key_value_witness :
  parse_line ∅ (lit "  ZOTORO_API_KEY = abc=def==  ")
    = {[ lit "ZOTORO_API_KEY" := lit "abc=def==" ]}
  ∧ parse_line ∅ (bom :: lit "ZOTORO_USER=1" ++ [nbsp])
    = {[ lit "ZOTORO_USER" := lit "1" ]}
  ∧ parse_line {[ lit "X" := lit "1" ]} (lit "__proto__=abc")
    = {[ lit "X" := lit "1" ]}.
Proof.
  split; [|split].
  - destruct (parse_line_key_value ∅ (lit "  ZOTORO_API_KEY = abc=def==  "))
      as [H _]; [by intros rest E; vm_compute in E|].
    destruct (H (lit "ZOTORO_API_KEY ") (lit " abc=def==")) as [Hset _].
    + vm_compute. reflexivity.
    + by apply (bool_decide_unpack _).
    + rewrite Hset; [|by vm_compute]. vm_compute trim. apply insert_empty.
  - destruct (parse_line_key_value ∅ (bom :: lit "ZOTORO_USER=1" ++ [nbsp]))
      as [H _]; [by intros rest E; vm_compute in E|].
    destruct (H (lit "ZOTORO_USER") (lit "1")) as [Hset _].
    + vm_compute. reflexivity.
    + by apply (bool_decide_unpack _).
    + rewrite Hset; [|by vm_compute]. vm_compute trim. apply insert_empty.
  - destruct (parse_line_key_value {[ lit "X" := lit "1" ]} (lit "__proto__=abc"))
      as [H _]; [by intros rest E; vm_compute in E|].
    destruct (H (lit "__proto__") (lit "abc")) as [_ Hskip].
    + vm_compute. reflexivity.
    + by apply (bool_decide_unpack _).
    + apply Hskip. vm_compute. reflexivity.
Defined.

Lemma loadEnv_line_by_line_witness :
  loadEnv (lit "ZOTORO_USER=1" ++ newline :: lit "ZOTORO_USER=2")
    = {[ lit "ZOTORO_USER" := lit "2" ]}.
Proof.
  destruct (loadEnv_line_by_line (lit "ZOTORO_USER=1") (lit "ZOTORO_USER=2"))
    as (_ & _ & H & _); [by apply (bool_decide_unpack _)|].
  rewrite (H (lit "ZOTORO_USER") (lit "2")).
  - vm_compute. reflexivity.
  - vm_compute. reflexivity.
  - by apply (bool_decide_unpack _).
  - intros rest E. vm_compute in E. discriminate E.
  - vm_compute. discriminate.
Defined.

End EnvFacts.

(** ** The citekey check *)

Section CitekeysFacts.

Import Utf16 Citekeys.

Lemma take_word_no_space s : Forall (λ u, is_space u = false) (take_word s).
Proof.
  induction s as [|u s IH]; [constructor|]. simpl.
  destruct (is_space u) eqn:Hu; [constructor|]. by constructor.
Qed.

(** Where [take_word] stops: at the end, or at white space. *)
Lemma take_word_split s :
  ∃ rest, s = take_word s ++ rest ∧
          (rest = [] ∨ ∃ u rest', rest = u :: rest' ∧ is_space u = true).
Proof.
  induction s as [|u s (rest & Hs & Hrest)]; [exists []; by split; [|left]|].
  simpl. destruct (is_space u) eqn:Hu.
  - exists (u :: s). split; [done|]. right. eauto.
  - exists rest. split; [|done]. by rewrite <- app_comm_cons, <- Hs.
Qed.

Lemma take_word_app k rest :
  Forall (λ u, is_space u = false) k →
  (rest = [] ∨ ∃ u rest', rest = u :: rest' ∧ is_space u = true) →
  take_word (k ++ rest) = k.
Proof.
  intros Hk Hrest. induction Hk as [|u k Hu _ IH]; simpl.
  - destruct Hrest as [-> | (u & rest' & -> & Hu)]; [done|]. simpl. by rewrite Hu.
  - by rewrite Hu, IH.
Qed.

Lemma word_after_sound s word :
  word_after s = Some word →
  word ≠ [] ∧ Forall (λ u, is_space u = false) word ∧
  ∃ ws rest, s = ws ++ word ++ rest ∧
             Forall (λ u, is_space u = true) ws ∧
             (rest = [] ∨ ∃ u rest', rest = u :: rest' ∧ is_space u = true).
Proof.
  unfold word_after. pose proof (take_word_no_space (trimStart s)) as Hw.
  destruct (trimStart_split s) as (ws & Hs & Hws).
  destruct (take_word_split (trimStart s)) as (rest & Ht & Hrest).
  destruct (take_word (trimStart s)) as [|u w]; [done|].
  intros [= <-]. split; [done|]. split; [done|].
  exists ws, rest. split; [|done]. by rewrite <- Ht.
Qed.

Lemma match_citekey_unfold extra :
  match_citekey extra =
    match strip_prefix marker extra ≫= word_after with
    | Some word => Some word
    | None => match extra with [] => None | _ :: rest => match_citekey rest end
    end.
Proof. by destruct extra. Qed.

(** X20: the citekey that the pattern extracts is never empty and
    contains no white space, and it is read from the text where the
    pattern says: after an occurrence of "Citation Key:" and a run of
    white space, up to the next white space or the end of the text. *)
Theorem match_citekey_sound (extra word : JsStr) :
  match_citekey extra = Some word →
  word ≠ [] ∧
  Forall (λ u, is_space u = false) word ∧
  ∃ before ws rest,
    extra = before ++ marker ++ ws ++ word ++ rest ∧
    Forall (λ u, is_space u = true) ws ∧
    (rest = [] ∨ ∃ u rest', rest = u :: rest' ∧ is_space u = true).
Proof.
  induction extra as [|u extra IH]; rewrite match_citekey_unfold.
  - cbn. done.
  - destruct (strip_prefix marker (u :: extra)) as [after|] eqn:Hs;
      cbn [mbind option_bind].
    + destruct (word_after after) as [w|] eqn:Hw.
      * intros [= <-].
        destruct (word_after_sound _ _ Hw) as (Hne & Hnsp & ws & rest & Ha & Hws & Hrest).
        split; [done|]. split; [done|].
        exists [], ws, rest. split; [|done].
        apply strip_prefix_Some in Hs. by rewrite Hs, Ha.
      * intros H. destruct (IH H) as (Hne & Hnsp & before & ws & rest & He & Hws & Hrest).
        split; [done|]. split; [done|].
        exists (u :: before), ws, rest. split; [|done]. by rewrite He.
    + intros H. destruct (IH H) as (Hne & Hnsp & before & ws & rest & He & Hws & Hrest).
      split; [done|]. split; [done|].
      exists (u :: before), ws, rest. split; [|done]. by rewrite He.
Qed.

Lemma strip_marker_other u s : u ≠ 67%N → strip_prefix marker (u :: s) = None.
Proof.
  intros Hu. change marker with (67%N :: lit "itation Key:").
  cbn [strip_prefix]. by rewrite decide_False.
Qed.

Lemma match_citekey_cons_other u s :
  u ≠ 67%N → match_citekey (u :: s) = match_citekey s.
Proof. intros Hu. rewrite match_citekey_unfold. by rewrite strip_marker_other. Qed.

Lemma match_citekey_spaces ws :
  Forall (λ u, is_space u = true) ws → match_citekey ws = None.
Proof.
  induction 1 as [|u ws Hu _ IH]; [done|].
  rewrite match_citekey_cons_other; [done|].
  intros ->. discriminate Hu.
Qed.

Lemma word_after_spaces ws :
  Forall (λ u, is_space u = true) ws → word_after ws = None.
Proof. intros H. unfold word_after. by rewrite trimStart_spaces. Qed.

(** Inside the marker the pattern finds no second start. *)
Lemma match_citekey_marker_tail s :
  match_citekey (lit "itation Key:" ++ s) = match_citekey s.
Proof.
  change (lit "itation Key:" ++ s)
    with (105 :: 116 :: 97 :: 116 :: 105 :: 111 :: 110 :: 32 :: 75 :: 101 :: 121 :: 58 :: s)%N.
  by rewrite !match_citekey_cons_other.
Qed.

Lemma match_citekey_marker_spaces ws :
  Forall (λ u, is_space u = true) ws → match_citekey (marker ++ ws) = None.
Proof.
  intros Hws. rewrite match_citekey_unfold.
  rewrite strip_prefix_app. cbn [mbind option_bind].
  rewrite word_after_spaces by done.
  change (marker ++ ws) with (67%N :: (lit "itation Key:" ++ ws)). cbv iota.
  rewrite match_citekey_marker_tail. by apply match_citekey_spaces.
Qed.

Lemma includes_marker s : includes (marker ++ s) marker = true.
Proof.
  assert (startsWith (marker ++ s) marker = true) as H
    by (unfold startsWith; by rewrite strip_prefix_app).
  change (marker ++ s) with (67%N :: (lit "itation Key:" ++ s)) in *.
  cbn [includes]. by rewrite H.
Qed.

Lemma count_items_fold items : ∀ w wo,
  fold_left (λ counts item,
               if (analyze item).1 then (S counts.1, counts.2)
               else (counts.1, S counts.2)) items (w, wo)
  = (w + length (filter (λ item, (analyze item).1 = true) items),
     wo + length (filter (λ item, (analyze item).1 ≠ true) items)).
Proof.
  induction items as [|item items IH]; intros w wo.
  - simpl. by rewrite !Nat.add_0_r.
  - cbn [fold_left]. rewrite !filter_cons.
    destruct (analyze item).1 eqn:Ha; cbn [fst snd].
    + rewrite IH. rewrite decide_True by done.
      rewrite decide_False by (intros H; by apply H).
      simpl. f_equal; lia.
    + rewrite IH. rewrite decide_False, decide_True by done.
      simpl. f_equal; lia.
Qed.

(** X21: every item is counted once, either as having a citekey or as
    lacking one, and what decides is only whether "Citation Key:" occurs
    in its extra field: when nothing but white space follows it, the
    item is still counted as having a citekey, which is then shown as
    "(found but could not parse)"; an item with no extra field is
    counted as lacking one. *)
Theorem count_items_partition (items : list ZItem) :
  (count_items items).1 + (count_items items).2 = length items ∧
  (∀ key title ws,
     Forall (λ u, is_space u = true) ws →
     analyze (mkZItem key title (Some (marker ++ ws))) = (true, Some unparsed)) ∧
  (∀ key title, analyze (mkZItem key title None) = (false, None)).
Proof.
  split; [|split].
  - unfold count_items. rewrite count_items_fold. cbn [fst snd].
    induction items as [|item items IH]; [done|].
    rewrite !filter_cons. destruct (analyze item).1.
    + rewrite decide_True by done.
      rewrite decide_False by (intros H; by apply H). simpl in *. lia.
    + rewrite decide_False, decide_True by done. simpl in *. lia.
  - intros key title ws Hws. unfold analyze.
    change (default [] (zitem_extra (mkZItem key title (Some (marker ++ ws)))))
      with (marker ++ ws).
    by rewrite includes_marker, match_citekey_marker_spaces.
  - done.
Qed.

(** X22: an extra field that begins with "Citation Key:", then any
    white space (a no-break space as well as a blank), then a key, gives
    back that key: the key ends at the first white space or at the end
    of the field. *)
Theorem match_citekey_reads_key (ws k rest : JsStr) :
  Forall (λ u, is_space u = true) ws →
  k ≠ [] →
  Forall (λ u, is_space u = false) k →
  (rest = [] ∨ ∃ u rest', rest = u :: rest' ∧ is_space u = true) →
  match_citekey (marker ++ ws ++ k ++ rest) = Some k.
Proof.
  intros Hws Hk Hnsp Hrest.
  rewrite match_citekey_unfold, strip_prefix_app. cbn [mbind option_bind].
  unfold word_after. rewrite trimStart_app_spaces by done.
  assert (trimStart (k ++ rest) = k ++ rest) as ->.
  { destruct Hnsp as [|u k' Hu _]; [done|]. simpl. by rewrite Hu. }
  rewrite take_word_app by done. by destruct k.
Qed.

Lemma match_citekey_reads_key_witness :
  match_citekey extra_pinned = Some (lit "smith2020") ∧
  match_citekey extra_nbsp = Some (lit "smith2020").
Proof.
  split.
  - apply (match_citekey_reads_key (lit " ") (lit "smith2020")
             (newline :: lit "tex.ids: smith20")).
    + by repeat constructor.
    + done.
    + by repeat constructor.
    + right. by eexists _, _.
  - apply (match_citekey_reads_key [nbsp] (lit "smith2020") []).
    + by repeat constructor.
    + done.
    + by repeat constructor.
    + by left.
Defined.

Lemma match_citekey_sound_witness :
  match_citekey extra_late = Some (lit "jones21") ∧
  ∃ before ws rest,
    extra_late = before ++ marker ++ ws ++ lit "jones21" ++ rest ∧
    Forall (λ u, is_space u = true) ws ∧
    (rest = [] ∨ ∃ u rest', rest = u :: rest' ∧ is_space u = true).
Proof.
  assert (match_citekey extra_late = Some (lit "jones21")) as H by (vm_compute; reflexivity).
  split; [exact H|]. exact (proj2 (proj2 (match_citekey_sound _ _ H))).
Defined.

End CitekeysFacts.

(** ** Filing items in collections *)

Section OrganizeFacts.

Import JsString Organize.

Variable toLowerCase : string → string.
Variable mapping : list (string * list string).
Variable collectionMap : gmap string string.

Lemma organize_item_titled (items : list ZTop) (item : ZTop) entries :
  item ∈ items → is_Some (top_title item) →
  ∀ updates, Forall (adds_one_key collectionMap items) updates →
  ∃ updates', organize_item toLowerCase collectionMap item entries updates = Some updates' ∧
              Forall (adds_one_key collectionMap items) updates'.
Proof.
  intros Hin [title Htitle].
  induction entries as [|[name patterns] rest IH]; intros updates Hall; simpl.
  - eauto.
  - destruct (collectionMap !! name) as [k|] eqn:Hk; [|by apply IH].
    case_bool_decide as Hempty; [by apply IH|].
    rewrite Htitle. destruct patterns as [|p ps]; simpl; [by apply IH|].
    destruct (_ || _); [|by apply IH].
    case_bool_decide as Hcur; [by apply IH|].
    apply IH. apply Forall_app. split; [done|]. constructor; [|constructor].
    exists item, name, k. done.
Qed.

Lemma collect_updates_titled (items : list ZTop) : ∀ (its : list ZTop) updates,
  (∀ item, item ∈ its → item ∈ items ∧ is_Some (top_title item)) →
  Forall (adds_one_key collectionMap items) updates →
  ∃ updates', collect_updates toLowerCase mapping collectionMap its updates = Some updates' ∧
              Forall (adds_one_key collectionMap items) updates'.
Proof.
  induction its as [|item its IH]; intros updates Hits Hall; simpl; [eauto|].
  destruct (Hits item) as [Hin Ht]; [by left|].
  destruct (organize_item_titled items item mapping Hin Ht updates Hall)
    as (u' & -> & Hall').
  apply IH; [|done]. intros it Hit. apply Hits. by right.
Qed.

(** X23: when every item has a title the call does not throw, and every
    update it posts is made for one of the items from the collections
    the item is in already and exactly one more key, that of a created
    collection the item is not in: an item whose title fits two
    collections gets two updates, each with one of the two keys, never
    one update with both.  Nothing is posted when there is no update. *)
Theorem organize_adds_one_key (items : list ZTop) :
  (∀ item, item ∈ items → is_Some (top_title item)) →
  ∃ posted, organizeItemsIntoCollections toLowerCase mapping collectionMap items = Some posted ∧
    match posted with
    | None => True
    | Some updates =>
        updates ≠ [] ∧ Forall (adds_one_key collectionMap items) updates
    end.
Proof.
  intros Htitles. unfold organizeItemsIntoCollections.
  destruct (collect_updates_titled items items []) as (updates & -> & Hall);
    [by auto | constructor |].
  destruct updates as [|u us]; [by exists None|].
  exists (Some (u :: us)). done.
Qed.

Lemma organize_item_unknown (item : ZTop) entries :
  (∀ name patterns k, (name, patterns) ∈ entries →
                      collectionMap !! name = Some k → k = "") →
  ∀ updates, organize_item toLowerCase collectionMap item entries updates = Some updates.
Proof.
  induction entries as [|[name patterns] rest IH]; intros Hunk updates; [done|].
  simpl. assert (∀ name patterns k, (name, patterns) ∈ rest →
                   collectionMap !! name = Some k → k = "") as Hrest
    by (intros n ps k Hin; apply (Hunk n ps k); by right).
  destruct (collectionMap !! name) as [k|] eqn:Hk; [|by apply IH].
  rewrite (Hunk name patterns k) by (by left || done).
  rewrite bool_decide_eq_true_2 by done. by apply IH.
Qed.

(** X24: when none of the collections of the table was created (the map
    has no key for it, or an empty one), nothing is posted and nothing
    is thrown, whatever the items, titled or not. *)
Theorem organize_without_collections (items : list ZTop) :
  (∀ name patterns k, (name, patterns) ∈ mapping →
                      collectionMap !! name = Some k → k = "") →
  organizeItemsIntoCollections toLowerCase mapping collectionMap items = Some None.
Proof.
  intros Hunk. unfold organizeItemsIntoCollections.
  assert (∀ updates, collect_updates toLowerCase mapping collectionMap items updates = Some updates)
    as ->; [|done].
  induction items as [|item items IH]; intros updates; [done|].
  simpl. by rewrite organize_item_unknown.
Qed.

Lemma organize_item_untitled (item : ZTop) name p ps k entries :
  top_title item = None →
  (name, p :: ps) ∈ entries → collectionMap !! name = Some k → k ≠ "" →
  ∀ updates, organize_item toLowerCase collectionMap item entries updates = None.
Proof.
  intros Htitle Hin Hk Hne.
  induction entries as [|[name' patterns] rest IH]; intros updates;
    [by apply elem_of_nil in Hin|].
  simpl. apply elem_of_cons in Hin as [[= <- <-]|Hin].
  - rewrite Hk, bool_decide_eq_false_2 by done. by rewrite Htitle.
  - destruct (collectionMap !! name') as [k'|]; [|by apply IH].
    case_bool_decide; [by apply IH|].
    rewrite Htitle. destruct patterns; simpl; [by apply IH | done].
Qed.

(** X25: one item without a title makes the whole call throw as soon as
    one collection of the table with a pattern was created, whatever the
    other items are: no update is posted, not even for them. *)
Theorem organize_untitled_item_throws (items : list ZTop) (item : ZTop) name p ps k :
  item ∈ items → top_title item = None →
  (name, p :: ps) ∈ mapping → collectionMap !! name = Some k → k ≠ "" →
  organizeItemsIntoCollections toLowerCase mapping collectionMap items = None.
Proof.
  intros Hin Htitle Hentry Hk Hne. unfold organizeItemsIntoCollections.
  assert (∀ updates, collect_updates toLowerCase mapping collectionMap items updates = None)
    as ->; [|done].
  induction items as [|it items IH]; intros updates; [by apply elem_of_nil in Hin|].
  simpl. apply elem_of_cons in Hin as [<-|Hin].
  - by rewrite (organize_item_untitled item name p ps k mapping).
  - destruct (organize_item toLowerCase collectionMap it mapping updates); [by apply IH | done].
Qed.

End OrganizeFacts.

Section OrganizeWitnesses.

Import Organize.

Lemma organize_adds_one_key_witness :
  organizeItemsIntoCollections TagIndexer.toLowerCaseASCII sampleMapping sampleCollections [paper]
    = Some (Some [mkItemUpdate "ITEM1" 7 ["COLL0"; "COLL1"];
                  mkItemUpdate "ITEM1" 7 ["COLL0"; "COLL2"]]).
Proof.
  destruct (organize_adds_one_key TagIndexer.toLowerCaseASCII sampleMapping sampleCollections [paper])
    as (posted & Hrun & _).
  - intros item Hitem. apply list_elem_of_singleton in Hitem as ->. by eexists.
  - rewrite Hrun. vm_compute in Hrun. by injection Hrun as <-.
Defined.

Lemma organize_without_collections_witness :
  organizeItemsIntoCollections TagIndexer.toLowerCaseASCII sampleMapping ∅ [paper; note] = Some None.
Proof.
  apply (organize_without_collections TagIndexer.toLowerCaseASCII sampleMapping ∅ [paper; note]).
  intros name patterns k _ Hk. by rewrite lookup_empty in Hk.
Defined.

Lemma organize_untitled_item_throws_witness :
  organizeItemsIntoCollections TagIndexer.toLowerCaseASCII sampleMapping sampleCollections [paper; note] = None.
Proof.
  apply (organize_untitled_item_throws TagIndexer.toLowerCaseASCII sampleMapping sampleCollections
           [paper; note] note "AI" "learning" [] "COLL1").
  - rewrite !elem_of_cons. auto.
  - reflexivity.
  - unfold sampleMapping. rewrite !elem_of_cons. auto.
  - reflexivity.
  - done.
Defined.

End OrganizeWitnesses.

(** ** The page watcher *)

Section PullWatchFacts.

Import PullWatch.

Lemma watch_all_invariant pageUids : ∀ watched calls,
  NoDup watched →
  calls = (λ uid, AddPullWatch pullPattern (entity uid)) <$> watched →
  let st := fold_left watchPage pageUids (watched, calls) in
  NoDup st.1 ∧
  st.2 = (λ uid, AddPullWatch pullPattern (entity uid)) <$> st.1 ∧
  (∀ uid, uid ∈ st.1 ↔ uid ∈ watched ∨ uid ∈ pageUids).
Proof.
  induction pageUids as [|uid rest IH]; intros watched calls Hnd Hcalls; simpl.
  - split; [done|]. split; [done|]. intros uid. rewrite elem_of_nil. tauto.
  - case_bool_decide as Hin.
    + destruct (IH watched calls Hnd Hcalls) as (H1 & H2 & H3).
      split; [done|]. split; [done|]. intros u. rewrite H3, elem_of_cons.
      split; [tauto|]. intros [?|[->|?]]; auto.
    + destruct (IH (watched ++ [uid])
                  (calls ++ [AddPullWatch pullPattern (entity uid)])) as (H1 & H2 & H3).
      * apply NoDup_app. split; [done|]. split; [|apply NoDup_singleton].
        intros u Hu Hu'. apply list_elem_of_singleton in Hu' as ->. done.
      * rewrite fmap_app, Hcalls. done.
      * split; [done|]. split; [done|]. intros u.
        rewrite H3, elem_of_app, !elem_of_cons, elem_of_nil. tauto.
Qed.

Lemma string_length_append (a b : string) :
  String.length (a +:+ b) = String.length a + String.length b.
Proof.
  induction a as [|c a IH]; [done|].
  change (S (String.length (a +:+ b)) = S (String.length a + String.length b)).
  by rewrite IH.
Qed.

Lemma append_cancel_r (suffix : string) : ∀ a b,
  a +:+ suffix = b +:+ suffix → a = b.
Proof.
  induction a as [|c a IH]; intros [|d b] H; [done| | |].
  - apply (f_equal String.length) in H.
    rewrite (string_length_append (String d b)) in H.
    change ("" +:+ suffix) with suffix in H.
    change (String.length (String d b)) with (S (String.length b)) in H. lia.
  - apply (f_equal String.length) in H.
    rewrite (string_length_append (String c a)) in H.
    change ("" +:+ suffix) with suffix in H.
    change (String.length (String c a)) with (S (String.length a)) in H. lia.
  - change (String c (a +:+ suffix) = String d (b +:+ suffix)) in H.
    injection H as -> H. f_equal. by apply IH.
Qed.

Lemma append_cancel_l (prefix : string) : ∀ a b,
  prefix +:+ a = prefix +:+ b → a = b.
Proof.
  induction prefix as [|c prefix IH]; intros a b H; [done|].
  change (String c (prefix +:+ a) = String c (prefix +:+ b)) in H.
  injection H as H. by apply IH.
Qed.

Lemma entity_inj a b : entity a = entity b → a = b.
Proof.
  unfold entity. intros H. apply append_cancel_l in H.
  injection H as H. by apply append_cancel_r in H.
Qed.

(** X26: however often and in whatever order pages are handed to
    [watchPage], each page gets one watch, registered when it is first
    seen, and the cleanup removes exactly the watches that were
    registered, each once and in the same order. *)
Theorem watches_registered_once_and_removed (pageUids : list string) :
  let st := watch_all pageUids in
  NoDup st.2 ∧
  (∀ uid, AddPullWatch pullPattern (entity uid) ∈ st.2 ↔ uid ∈ pageUids) ∧
  omap removed (cleanup st.1) = st.2.
Proof.
  intros st. subst st. unfold watch_all.
  destruct (watch_all_invariant pageUids [] [] (NoDup_nil_2) eq_refl)
    as (Hnd & Hcalls & Hin).
  assert (Inj (=) (=) (λ uid, AddPullWatch pullPattern (entity uid))) as Hinj.
  { intros a b H. apply entity_inj. congruence. }
  rewrite Hcalls. split; [by apply NoDup_fmap_2|]. split.
  - intros uid. rewrite list_elem_of_fmap. split.
    + intros (u & Hu & Hw). apply Hinj in Hu as ->. apply Hin in Hw as [Hw|Hw]; [|done].
      by apply elem_of_nil in Hw.
    + intros Hu. exists uid. split; [done|]. apply Hin. by right.
  - unfold cleanup. generalize (fold_left watchPage pageUids ([], [])).1.
    intros l. induction l as [|u l IH]; [done|]. simpl. by f_equal.
Qed.

End PullWatchFacts.
